(** * SortedList (C Macro Collections): a shallow embedding of [sortedlist.h]

    The header generates, for an element type [V], a growable array that is
    sorted lazily.  The embedding below follows the generated C functions one
    by one.

    - [size_t] values are integers in [0, 2^64); every arithmetic operation of
      the source on them is followed by an explicit [wrap].
    - The element buffer is a [list V] holding the whole allocated block (one
      slot per element the block has room for), not only the live prefix.
      [realloc] is asked for a number of bytes, the product
      [sizeof(V) * capacity] reduced as [size_t] arithmetic reduces it, and
      the block it returns has one slot for every whole element that fits.
      [calloc] checks its own product, and [memmove], [memcpy] and [memset]
      cover a part of a block that exists: their sizes are counted in
      elements.
    - An access outside the block, or a call through a null pointer, is
      undefined behaviour in C; the embedding makes it an explicit outcome,
      [Undefined].
    - Loops run on fuel; the entry points supply the fuel themselves. *)

From stdpp Require Import base list numbers sorting.
From Stdlib Require Import ZArith Lia ZifyBool.

Local Open Scope Z_scope.

(** ** Machine integers *)

Definition SIZE_MAX : Z := 18446744073709551615.

(** Reduction modulo [SIZE_MAX + 1], the arithmetic of [size_t]. *)
Definition wrap (x : Z) : Z := x mod 18446744073709551616.

(** ** Outcomes of a C function *)

Inductive fault : Type :=
| OutOfBounds (index : Z)   (* access to slot [index], outside its block *)
| NullPointer.              (* dereference or call of a null pointer *)

Inductive result (A : Type) : Type :=
| Ok (a : A)
| Undefined (f : fault)
| OutOfFuel.

Arguments Ok {A} a.
Arguments Undefined {A} f.
Arguments OutOfFuel {A}.

Definition bind {A B : Type} (m : result A) (k : A -> result B) : result B :=
  match m with
  | Ok a => k a
  | Undefined f => Undefined f
  | OutOfFuel => OutOfFuel
  end.

Notation "'let*' x ':=' m 'in' k" := (bind m (fun x => k))
  (at level 10, x pattern, m at level 100, k at level 200).

(** [cmc_flags]: the error codes shared by all collections. *)
Module cmc_flags.
Definition OK : Z := 0.
Definition ALLOC : Z := 1.
Definition EMPTY : Z := 2.
Definition NOT_FOUND : Z := 3.
Definition INVALID : Z := 4.
Definition OUT_OF_RANGE : Z := 5.
Definition DUPLICATE : Z := 6.
Definition ERROR : Z := 7.
End cmc_flags.

(** [struct cmc_callbacks_sortedlist]: four function pointers.  No function
    of the header calls them; a field records whether the pointer is set. *)
Record cmc_callbacks_sortedlist : Type := {
  before_clear : bool;
  after_clear : bool;
  before_free : bool;
  after_free : bool
}.

(** ** Blocks of elements *)

Section Memory.
Context {V : Type}.

(** [array[i]] as an rvalue. *)
Definition read (array : list V) (i : Z) : result V :=
  if (0 <=? i) && (i <? Z.of_nat (length array))
  then match array !! Z.to_nat i with
       | Some x => Ok x
       | None => Undefined (OutOfBounds i)
       end
  else Undefined (OutOfBounds i).

(** [array[i] = x]. *)
Definition write (array : list V) (i : Z) (x : V) : result (list V) :=
  if (0 <=? i) && (i <? Z.of_nat (length array))
  then Ok (<[Z.to_nat i := x]> array)
  else Undefined (OutOfBounds i).

(** [memmove(array + dst, array + src, n * sizeof(V))]: [n] slots are read
    from [src] on and written from [dst] on, inside one block. *)
Definition memmove (array : list V) (dst src n : Z) : result (list V) :=
  if Z.of_nat (length array) <? src + n
  then Undefined (OutOfBounds (src + n - 1))
  else if Z.of_nat (length array) <? dst + n
  then Undefined (OutOfBounds (dst + n - 1))
  else Ok (take (Z.to_nat dst) array
           ++ take (Z.to_nat n) (drop (Z.to_nat src) array)
           ++ drop (Z.to_nat (dst + n)) array).

(** [memcpy(dst, src, n * sizeof(V))] between two blocks. *)
Definition memcpy (dst src : list V) (n : Z) : result (list V) :=
  if Z.of_nat (length src) <? n then Undefined (OutOfBounds (n - 1))
  else if Z.of_nat (length dst) <? n then Undefined (OutOfBounds (n - 1))
  else Ok (take (Z.to_nat n) src ++ drop (Z.to_nat n) dst).
End Memory.

(** ** The data model *)

(** [sizeof(V)], a [size_t] that is at least 1. *)
Class SizeOf (V : Type) : Type := {
  sizeof : Z;
  sizeof_range : 1 <= sizeof <= SIZE_MAX
}.

Arguments sizeof V {_}.

Section SortedList.
Context {V : Type} `{!SizeOf V}.

(** The value [(V){ 0 }]. *)
Variable zero : V.

(** [struct SNAME##_ftab_val], the value function table.  A field is [None]
    when the function pointer is null.  The fields [str], [free], [hash] and
    [pri] are read by none of the functions below. *)
Record ftab_val : Type := {
  cmp : option (V -> V -> Z);
  cpy : option (V -> V)
}.

(** [struct cmc_alloc_node], seen from the list: whether a request is
    granted, what a refused request for no byte does to the old block, and
    what the slots added by [realloc] hold. *)
Record cmc_alloc_node : Type := {
  malloc : bool;          (* malloc(sizeof(struct SNAME)) returns non-null *)
  calloc : Z -> bool;     (* calloc(n, sizeof(V)) returns non-null *)
  realloc : Z -> bool;    (* realloc(buffer, size) returns non-null,
                             [size] in bytes *)
  realloc_frees : bool;   (* a realloc(buffer, 0) that returns null has
                             freed [buffer], as the C library's may *)
  fresh : nat -> V        (* content of slot [i] when realloc adds it *)
}.

Variable cmc_alloc_node_default : cmc_alloc_node.

(** [struct SNAME].  [it_start] and [it_end] always point to the same two
    functions and are left out. *)
Record sortedlist : Type := {
  buffer : list V;
  capacity : Z;
  count : Z;
  is_sorted : bool;
  flag : Z;
  f_val : option ftab_val;
  alloc : cmc_alloc_node;
  callbacks : option cmc_callbacks_sortedlist
}.

(** [struct SNAME##_iter].  [target] is a pointer to a list that the
    iterator does not own: the iterator functions take the current value of
    that list as an argument. *)
Record sortedlist_iter : Type := {
  cursor : Z;
  start : bool;
  end_ : bool
}.

(** ** Construction *)

Definition new (capacity : Z) (f_val : option ftab_val) : option sortedlist :=
  let alloc := cmc_alloc_node_default in
  if capacity <? 1 then None
  else match f_val with
       | None => None
       | Some _ =>
         if negb (malloc alloc) then None
         else if negb (calloc alloc capacity) then None
         else Some {| buffer := replicate (Z.to_nat capacity) zero;
                      capacity := capacity;
                      count := 0;
                      is_sorted := false;
                      flag := cmc_flags.OK;
                      f_val := f_val;
                      alloc := alloc;
                      callbacks := None |}
       end.

Definition new_custom (capacity : Z) (f_val : option ftab_val)
    (alloc : option cmc_alloc_node)
    (callbacks : option cmc_callbacks_sortedlist) : option sortedlist :=
  if capacity <? 1 then None
  else
    let alloc := match alloc with
                 | Some a => a
                 | None => cmc_alloc_node_default
                 end in
    if negb (malloc alloc) then None
    else if negb (calloc alloc capacity) then None
    else Some {| buffer := replicate (Z.to_nat capacity) zero;
                 capacity := capacity;
                 count := 0;
                 is_sorted := false;
                 flag := cmc_flags.OK;
                 f_val := f_val;
                 alloc := alloc;
                 callbacks := callbacks |}.

(** ** Collection state *)

Definition empty (l : sortedlist) : bool := count l =? 0.

Definition full (l : sortedlist) : bool := count l >=? capacity l.

(** Field updates, as the assignments [_list_->field = ...]. *)
Definition set_buffer (l : sortedlist) (b : list V) : sortedlist :=
  {| buffer := b; capacity := capacity l; count := count l;
     is_sorted := is_sorted l; flag := flag l; f_val := f_val l;
     alloc := alloc l; callbacks := callbacks l |}.

Definition set_capacity (l : sortedlist) (c : Z) : sortedlist :=
  {| buffer := buffer l; capacity := c; count := count l;
     is_sorted := is_sorted l; flag := flag l; f_val := f_val l;
     alloc := alloc l; callbacks := callbacks l |}.

Definition set_count (l : sortedlist) (c : Z) : sortedlist :=
  {| buffer := buffer l; capacity := capacity l; count := c;
     is_sorted := is_sorted l; flag := flag l; f_val := f_val l;
     alloc := alloc l; callbacks := callbacks l |}.

Definition set_is_sorted (l : sortedlist) (b : bool) : sortedlist :=
  {| buffer := buffer l; capacity := capacity l; count := count l;
     is_sorted := b; flag := flag l; f_val := f_val l;
     alloc := alloc l; callbacks := callbacks l |}.

(** The block [realloc] returns for [n] elements: the old content as far as
    it fits, then whatever the allocator left in the added slots. *)
Definition realloc_block (a : cmc_alloc_node) (b : list V) (n : Z) : list V :=
  take (Z.to_nat n) b
  ++ (fresh a <$> seq (length b) (Z.to_nat n - length b)).

(** [size] is the byte count [sizeof(V) * capacity] as the multiplication of
    two [size_t] gives it.  A block of [size] bytes has [size / sizeof(V)]
    slots.  When the request is refused the list keeps its fields; a block
    that the allocator freed on a refused request for no byte has no slot
    left to access. *)
Definition resize (l : sortedlist) (capacity' : Z) : bool * sortedlist :=
  if capacity l =? capacity' then (true, l)
  else if capacity' <? count l then (false, l)
  else
    let size := wrap (sizeof V * capacity') in
    if negb (realloc (alloc l) size)
    then (false, if (size =? 0) && realloc_frees (alloc l)
                 then set_buffer l [] else l)
    else (true, set_capacity
                  (set_buffer l (realloc_block (alloc l) (buffer l)
                                               (size / sizeof V)))
                  capacity').

(** ** Input and output *)

Definition insert (l : sortedlist) (element : V) : result (bool * sortedlist) :=
  let '(grown, l1) :=
    if full l then resize l (wrap (capacity l * 2)) else (true, l) in
  if negb grown then Ok (false, l1)
  else
    let* b := write (buffer l1) (count l1) element in
    Ok (true, set_is_sorted
                (set_count (set_buffer l1 b) (wrap (count l1 + 1))) false).

Definition remove (l : sortedlist) (index : Z) : result (bool * sortedlist) :=
  if index >=? count l then Ok (false, l)
  else
    let* b1 := memmove (buffer l) index (wrap (index + 1))
                  (wrap (count l - index)) in
    let count' := wrap (count l - 1) in
    let* b2 := write b1 count' zero in
    Ok (true, set_count (set_buffer l b2) count').

(** ** Sorting *)

(** The [while] loop of the insertion sort: slots holding an element
    greater than [tmp] move one place up; the result is the array and the
    final [j]. *)
Fixpoint impl_sort_insertion_shift (fuel : nat) (cmp : V -> V -> Z)
    (array : list V) (tmp : V) (j low : Z) : result (list V * Z) :=
  match fuel with
  | O => OutOfFuel
  | S fuel' =>
    if j >? low then
      let* x := read array (wrap (j - 1)) in
      if cmp x tmp >? 0 then
        let* array1 := write array j x in
        impl_sort_insertion_shift fuel' cmp array1 tmp (wrap (j - 1)) low
      else Ok (array, j)
    else Ok (array, j)
  end.

(** The [for] loop of the insertion sort, from its test [i <= high]. *)
Fixpoint impl_sort_insertion_from (fuel : nat) (cmp : V -> V -> Z)
    (array : list V) (i low high : Z) : result (list V) :=
  match fuel with
  | O => OutOfFuel
  | S fuel' =>
    if i <=? high then
      let* tmp := read array i in
      let* (array1, j) :=
        impl_sort_insertion_shift (S (Z.to_nat (i - low))) cmp array tmp i low in
      let* array2 := write array1 j tmp in
      impl_sort_insertion_from fuel' cmp array2 (wrap (i + 1)) low high
    else Ok array
  end.

Definition impl_sort_insertion (cmp : V -> V -> Z) (array : list V)
    (low high : Z) : result (list V) :=
  impl_sort_insertion_from (S (Z.to_nat (high - low))) cmp array
                           (wrap (low + 1)) low high.

(** The [for] loop of the partition, from its test [i < high]; the result
    is the array and the final [pindex]. *)
Fixpoint impl_sort_partition_from (fuel : nat) (cmp : V -> V -> Z)
    (array : list V) (pivot : V) (i pindex high : Z) : result (list V * Z) :=
  match fuel with
  | O => OutOfFuel
  | S fuel' =>
    if i <? high then
      let* ai := read array i in
      if cmp ai pivot <=? 0 then
        let tmp := ai in
        let* ap := read array pindex in
        let* array1 := write array i ap in
        let* array2 := write array1 pindex tmp in
        impl_sort_partition_from fuel' cmp array2 pivot (wrap (i + 1))
                                 (wrap (pindex + 1)) high
      else
        impl_sort_partition_from fuel' cmp array pivot (wrap (i + 1))
                                 pindex high
    else Ok (array, pindex)
  end.

(** One unit of fuel per test of [while (low < high)], recursive calls
    included. *)
Fixpoint impl_sort_quicksort (fuel : nat) (cmp : V -> V -> Z)
    (array : list V) (low high : Z) : result (list V) :=
  match fuel with
  | O => OutOfFuel
  | S fuel' =>
    if low <? high then
      if wrap (high - low) <? 10 then
        impl_sort_insertion cmp array low high
      else
        let* pivot := read array high in
        let* (array1, pindex) :=
          impl_sort_partition_from (S (Z.to_nat (high - low))) cmp array
                                   pivot low low high in
        let* tmp := read array1 pindex in
        let* ah := read array1 high in
        let* array2 := write array1 pindex ah in
        let* array3 := write array2 high tmp in
        if wrap (pindex - low) <? wrap (high - pindex) then
          let* array4 :=
            impl_sort_quicksort fuel' cmp array3 low (wrap (pindex - 1)) in
          impl_sort_quicksort fuel' cmp array4 (wrap (pindex + 1)) high
        else
          let* array4 :=
            impl_sort_quicksort fuel' cmp array3 (wrap (pindex + 1)) high in
          impl_sort_quicksort fuel' cmp array4 low (wrap (pindex - 1))
    else Ok array
  end.

(** [_list_->f_val->cmp], as the callee of a call. *)
Definition f_val_cmp (l : sortedlist) : result (V -> V -> Z) :=
  match f_val l with
  | None => Undefined NullPointer
  | Some ft =>
    match cmp ft with
    | None => Undefined NullPointer
    | Some c => Ok c
    end
  end.

Definition sort (l : sortedlist) : result sortedlist :=
  if negb (is_sorted l) && (count l >? 1) then
    let* c := f_val_cmp l in
    let* b := impl_sort_quicksort (S (Z.to_nat (count l))) c (buffer l) 0
                                  (wrap (count l - 1)) in
    Ok (set_is_sorted (set_buffer l b) true)
  else Ok l.

(** ** Binary searches *)

(** The [while (L < R)] loop of [impl_binary_search_first]; the result is
    the final [L]. *)
Fixpoint impl_binary_search_first_loop (fuel : nat) (c : V -> V -> Z)
    (array : list V) (value : V) (L R : Z) : result Z :=
  match fuel with
  | O => OutOfFuel
  | S fuel' =>
    if L <? R then
      let M := wrap (L + wrap (R - L) / 2) in
      let* x := read array M in
      if c x value <? 0
      then impl_binary_search_first_loop fuel' c array value (wrap (M + 1)) R
      else impl_binary_search_first_loop fuel' c array value L M
    else Ok L
  end.

Definition impl_binary_search_first (l : sortedlist) (value : V) : result Z :=
  if empty l then Ok 1
  else
    let* c := f_val_cmp l in
    let* L := impl_binary_search_first_loop (S (Z.to_nat (count l))) c
                (buffer l) value 0 (count l) in
    let* x := read (buffer l) L in
    if c x value =? 0 then Ok L
    else (* Not found *) Ok (count l).

(** The [while (L < R)] loop of [impl_binary_search_last]. *)
Fixpoint impl_binary_search_last_loop (fuel : nat) (c : V -> V -> Z)
    (array : list V) (value : V) (L R : Z) : result Z :=
  match fuel with
  | O => OutOfFuel
  | S fuel' =>
    if L <? R then
      let M := wrap (L + wrap (R - L) / 2) in
      let* x := read array M in
      if c x value >? 0
      then impl_binary_search_last_loop fuel' c array value L M
      else impl_binary_search_last_loop fuel' c array value (wrap (M + 1)) R
    else Ok L
  end.

Definition impl_binary_search_last (l : sortedlist) (value : V) : result Z :=
  if empty l then Ok 1
  else
    let* c := f_val_cmp l in
    let* L := impl_binary_search_last_loop (S (Z.to_nat (count l))) c
                (buffer l) value 0 (count l) in
    let* x := read (buffer l) (wrap (L - 1)) in
    if c x value =? 0 then Ok (wrap (L - 1))
    else (* Not found *) Ok (count l).

(** ** Element access *)

Definition min (l : sortedlist) : result (option V * sortedlist) :=
  if empty l then Ok (None, l)
  else
    let* l1 := sort l in
    let* x := read (buffer l1) 0 in
    Ok (Some x, l1).

Definition max (l : sortedlist) : result (option V * sortedlist) :=
  if empty l then Ok (None, l)
  else
    let* l1 := sort l in
    let* x := read (buffer l1) (wrap (count l1 - 1)) in
    Ok (Some x, l1).

Definition get (l : sortedlist) (index : Z) : result (V * sortedlist) :=
  if index >=? count l then Ok (zero, l)
  else
    let* l1 := sort l in
    let* x := read (buffer l1) index in
    Ok (x, l1).

Definition indexof (l : sortedlist) (element : V) (from_start : bool)
    : result (Z * sortedlist) :=
  let* l1 := sort l in
  if from_start then
    let* i := impl_binary_search_first l1 element in Ok (i, l1)
  else
    let* i := impl_binary_search_last l1 element in Ok (i, l1).

Definition contains (l : sortedlist) (element : V)
    : result (bool * sortedlist) :=
  if empty l then Ok (false, l)
  else
    let* l1 := sort l in
    let* i := impl_binary_search_first l1 element in
    Ok (i <? count l1, l1).

(** ** Copy and comparison *)

(** [_list_->f_val->cpy], as an rvalue. *)
Definition f_val_cpy (l : sortedlist) : result (option (V -> V)) :=
  match f_val l with
  | None => Undefined NullPointer
  | Some ft => Ok (cpy ft)
  end.

(** The loop [result->buffer[i] = cpy(_list_->buffer[i])], from its test. *)
Fixpoint copy_of_from (fuel : nat) (f : V -> V) (src dst : list V)
    (i n : Z) : result (list V) :=
  match fuel with
  | O => OutOfFuel
  | S fuel' =>
    if i <? n then
      let* x := read src i in
      let* dst1 := write dst i (f x) in
      copy_of_from fuel' f src dst1 (wrap (i + 1)) n
    else Ok dst
  end.

(** [None] is the null pointer the source returns when the copy cannot be
    allocated. *)
Definition copy_of (l : sortedlist) : result (option sortedlist) :=
  match new_custom (capacity l) (f_val l) (Some (alloc l)) (callbacks l) with
  | None => Ok None
  | Some r =>
    let* f := f_val_cpy l in
    let* b :=
      match f with
      | Some f =>
        copy_of_from (S (Z.to_nat (count l))) f (buffer l) (buffer r) 0
                     (count l)
      | None => memcpy (buffer r) (buffer l) (count l)
      end in
    Ok (Some (set_count (set_buffer r b) (count l)))
  end.

(** The loop of [equals], from its test: [Some r] when the loop body
    executes [return r], [None] when the loop runs to its end. *)
Fixpoint equals_from (fuel : nat) (l1 l2 : sortedlist) (i : Z)
    : result (option bool) :=
  match fuel with
  | O => OutOfFuel
  | S fuel' =>
    if i <? count l1 then
      let* c := f_val_cmp l1 in
      let* x := read (buffer l1) i in
      let* y := read (buffer l2) i in
      if negb (c x y =? 0) then Ok (Some false)
      else equals_from fuel' l1 l2 (wrap (i + 1))
    else Ok None
  end.

(** The two arguments are taken to be distinct lists. *)
Definition equals (l1 l2 : sortedlist)
    : result (bool * sortedlist * sortedlist) :=
  if negb (count l1 =? count l2) then Ok (false, l1, l2)
  else
    let* l1' := sort l1 in
    let* l2' := sort l2 in
    let* r := equals_from (S (Z.to_nat (count l1'))) l1' l2' 0 in
    match r with
    | Some r => Ok (r, l1', l2')
    | None => Ok (false, l1', l2')
    end.

(** ** Iterator *)

Definition iter_init (target : sortedlist)
    : result (sortedlist * sortedlist_iter) :=
  let* target1 := sort target in
  Ok (target1, {| cursor := 0; start := true; end_ := empty target1 |}).

Definition iter_start (target : sortedlist) (iter : sortedlist_iter) : bool :=
  empty target || start iter.

Definition iter_end (target : sortedlist) (iter : sortedlist_iter) : bool :=
  empty target || end_ iter.

Definition iter_to_start (target : sortedlist) (iter : sortedlist_iter)
    : sortedlist_iter :=
  if negb (empty target)
  then {| cursor := 0; start := true; end_ := empty target |}
  else iter.

Definition iter_to_end (target : sortedlist) (iter : sortedlist_iter)
    : sortedlist_iter :=
  if negb (empty target)
  then {| cursor := if empty target then 0 else wrap (count target - 1);
          start := empty target;
          end_ := true |}
  else iter.

Definition iter_next (target : sortedlist) (iter : sortedlist_iter)
    : bool * sortedlist_iter :=
  if end_ iter then (false, iter)
  else if wrap (cursor iter + 1) =? count target
  then (false, {| cursor := cursor iter; start := start iter; end_ := true |})
  else (true, {| cursor := wrap (cursor iter + 1);
                 start := empty target;
                 end_ := end_ iter |}).

Definition iter_prev (target : sortedlist) (iter : sortedlist_iter)
    : bool * sortedlist_iter :=
  if start iter then (false, iter)
  else if cursor iter =? 0
  then (false, {| cursor := cursor iter; start := true; end_ := end_ iter |})
  else (true, {| cursor := wrap (cursor iter - 1);
                 start := start iter;
                 end_ := empty target |}).

(** Returns true only if the iterator moved. *)
Definition iter_advance (target : sortedlist) (iter : sortedlist_iter)
    (steps : Z) : bool * sortedlist_iter :=
  if end_ iter then (false, iter)
  else if wrap (cursor iter + 1) =? count target
  then (false, {| cursor := cursor iter; start := start iter; end_ := true |})
  else if (steps =? 0) || (wrap (cursor iter + steps) >=? count target)
  then (false, iter)
  else (true, {| cursor := wrap (cursor iter + steps);
                 start := empty target;
                 end_ := end_ iter |}).

(** Returns true only if the iterator moved. *)
Definition iter_rewind (target : sortedlist) (iter : sortedlist_iter)
    (steps : Z) : bool * sortedlist_iter :=
  if start iter then (false, iter)
  else if cursor iter =? 0
  then (false, {| cursor := cursor iter; start := true; end_ := end_ iter |})
  else if (steps =? 0) || (cursor iter <? steps)
  then (false, iter)
  else (true, {| cursor := wrap (cursor iter - steps);
                 start := start iter;
                 end_ := empty target |}).

Definition iter_go_to (target : sortedlist) (iter : sortedlist_iter)
    (index : Z) : bool * sortedlist_iter :=
  if index >=? count target then (false, iter)
  else if cursor iter >? index
  then iter_rewind target iter (wrap (cursor iter - index))
  else if cursor iter <? index
  then iter_advance target iter (wrap (index - cursor iter))
  else (true, iter).

Definition iter_value (target : sortedlist) (iter : sortedlist_iter)
    : result V :=
  if empty target then Ok zero
  else read (buffer target) (cursor iter).

Definition iter_index (iter : sortedlist_iter) : Z := cursor iter.

(** ** A caller *)

(** [insert] called on each element of [elements] in turn, as long as it
    returns true; the boolean tells whether every call did. *)
Fixpoint insert_all (l : sortedlist) (elements : list V)
    : result (bool * sortedlist) :=
  match elements with
  | [] => Ok (true, l)
  | x :: elements' =>
    let* (inserted, l1) := insert l x in
    if inserted then insert_all l1 elements' else Ok (false, l1)
  end.
End SortedList.

Arguments cmc_alloc_node : clear implicits.
Arguments ftab_val : clear implicits.
Arguments sortedlist : clear implicits.

(** ** An instance: a list of integers under the usual order *)

Module IntList.
Definition int_cmp (a b : Z) : Z :=
  if a <? b then -1 else if a >? b then 1 else 0.

Definition int_ftab : ftab_val Z := {| cmp := Some int_cmp; cpy := None |}.

(** [sizeof(int)]. *)
#[global] Instance int_sizeof : SizeOf Z := {|
  sizeof := 4;
  sizeof_range := conj (proj1 (Z.leb_le 1 4) eq_refl)
                       (proj1 (Z.leb_le 4 SIZE_MAX) eq_refl)
|}.

(** An allocator that grants every request and leaves 0 in added slots. *)
Definition generous : cmc_alloc_node Z :=
  {| malloc := true; calloc := fun _ => true; realloc := fun _ => true;
     realloc_frees := true; fresh := fun _ => 0 |}.

(** A list in the state the source's functions leave it in, given its block,
    its count and its sorted flag. *)
Definition make (b : list Z) (n : Z) (sorted : bool) : sortedlist Z :=
  {| buffer := b; capacity := Z.of_nat (length b); count := n;
     is_sorted := sorted; flag := cmc_flags.OK; f_val := Some int_ftab;
     alloc := generous; callbacks := None |}.
End IntList.

(** ** Well-formed lists *)

(** The state every function of the header expects and leaves behind: the
    block has [capacity] slots, of which the first [count] are live. *)
Definition well_formed {V : Type} (l : sortedlist V) : Prop :=
  Z.of_nat (length (buffer l)) = capacity l /\
  0 <= count l <= capacity l /\
  1 <= capacity l <= SIZE_MAX.

(** [c] is the smallest of the values [C0 * 2^k] that is at least [N]. *)
Definition smallest_doubling (C0 N c : Z) : Prop :=
  (exists k : nat, c = C0 * 2 ^ Z.of_nat k) /\
  N <= c /\
  forall k : nat, N <= C0 * 2 ^ Z.of_nat k -> c <= C0 * 2 ^ Z.of_nat k.

(** What the inserts made so far have established: the capacity is the
    initial one doubled [k] times, and the last doubling was needed. *)
Definition grown {V : Type} (C0 : Z) (l : sortedlist V) : Prop :=
  1 <= C0 /\ 0 <= count l <= capacity l /\ capacity l <= SIZE_MAX /\
  exists k : nat, capacity l = C0 * 2 ^ Z.of_nat k /\
                  (k = 0%nat \/ C0 * 2 ^ (Z.of_nat k - 1) < count l).

(** [a'] holds the elements of [a] in some other order, and differs from [a]
    in slots [lo] to [hi] at most. *)
Definition rearranged {V : Type} (lo hi : Z) (a a' : list V) : Prop :=
  a' ≡ₚ a /\
  forall k : nat, Z.of_nat k < lo \/ hi < Z.of_nat k -> a' !! k = a !! k.

(** What sorting needs of a comparison function: of two elements one is not
    greater than the other, and "not greater" is transitive. *)
Record comparator {V : Type} (c : V -> V -> Z) : Prop := {
  comparator_total : forall x y, 0 < c x y -> c y x <= 0;
  comparator_trans : forall x y z, c x y <= 0 -> c y z <= 0 -> c x z <= 0
}.

(** The order the comparison function defines. *)
Definition not_greater {V : Type} (c : V -> V -> Z) (x y : V) : Prop :=
  c x y <= 0.

(** Slots [lo] to [hi] of [a] are in non-decreasing order. *)
Definition sorted_range {V : Type} (c : V -> V -> Z) (a : list V) (lo hi : Z)
    : Prop :=
  forall (i j : nat) x y,
    lo <= Z.of_nat i -> (i < j)%nat -> Z.of_nat j <= hi ->
    a !! i = Some x -> a !! j = Some y -> c x y <= 0.

(** Every element in slots [lo] to [hi] of [a] satisfies [P]. *)
Definition range_Forall {V : Type} (P : V -> Prop) (a : list V) (lo hi : Z)
    : Prop :=
  forall (k : nat) x, lo <= Z.of_nat k <= hi -> a !! k = Some x -> P x.

(** The state of the shifting loop of the insertion sort: slot [j] is a hole;
    the other slots from [low] to [i] are in order, and those after the hole
    hold elements greater than [tmp]. *)
Definition shifting {V : Type} (c : V -> V -> Z) (a : list V) (tmp : V)
    (low j i : Z) : Prop :=
  (forall (p q : nat) x y,
     low <= Z.of_nat p -> (p < q)%nat -> Z.of_nat q <= i ->
     Z.of_nat p <> j -> Z.of_nat q <> j ->
     a !! p = Some x -> a !! q = Some y -> c x y <= 0) /\
  range_Forall (fun y => 0 < c y tmp) a (j + 1) i.

(** The live elements, [buffer[0..count)]. *)
Definition elements {V : Type} (l : sortedlist V) : list V :=
  take (Z.to_nat (count l)) (buffer l).



(** ** The rest of the header *)

Section SortedListRest.
Context {V : Type}.

(** The value [(V){ 0 }]. *)
Variable zero : V.

(** The field [free] of the function table, which [ftab_val] leaves out:
    whether it is set.  A call [free(x)] releases what the element [x] owns;
    it is not given the list and changes nothing of it. *)
Variable f_val_free : ftab_val V -> bool.

Definition set_alloc (l : sortedlist V) (a : cmc_alloc_node V) : sortedlist V :=
  {| buffer := buffer l; capacity := capacity l; count := count l;
     is_sorted := is_sorted l; flag := flag l; f_val := f_val l;
     alloc := a; callbacks := callbacks l |}.

Definition set_callbacks (l : sortedlist V)
    (cb : option cmc_callbacks_sortedlist) : sortedlist V :=
  {| buffer := buffer l; capacity := capacity l; count := count l;
     is_sorted := is_sorted l; flag := flag l; f_val := f_val l;
     alloc := alloc l; callbacks := cb |}.

(** The loop [free(buffer[i])] of [clear], from its test. *)
Fixpoint clear_from (fuel : nat) (array : list V) (i n : Z) : result unit :=
  match fuel with
  | O => OutOfFuel
  | S fuel' =>
    if i <? n then
      let* x := read array i in
      clear_from fuel' array (wrap (i + 1)) n
    else Ok tt
  end.

(** [memset(array, 0, sizeof(V) * n)]. *)
Definition memset (array : list V) (n : Z) : result (list V) :=
  if Z.of_nat (length array) <? n then Undefined (OutOfBounds (n - 1))
  else Ok (replicate (Z.to_nat n) zero ++ drop (Z.to_nat n) array).

Definition clear (l : sortedlist V) : result (sortedlist V) :=
  match f_val l with
  | None => Undefined NullPointer
  | Some ft =>
    let* freed :=
      if f_val_free ft
      then clear_from (S (Z.to_nat (count l))) (buffer l) 0 (count l)
      else Ok tt in
    let* b := memset (buffer l) (capacity l) in
    Ok (set_count (set_buffer l b) 0)
  end.

Definition customize (l : sortedlist V) (alloc : option (cmc_alloc_node V))
    (callbacks : option cmc_callbacks_sortedlist) : sortedlist V :=
  let l1 := match alloc with
            | Some a => set_alloc l a
            | None => l
            end in
  match callbacks with
  | Some cb => set_callbacks l1 (Some cb)
  | None => l1
  end.

(** [impl_it_start] and [impl_it_end], the functions behind the fields
    [it_start] and [it_end] of the list. *)
Definition impl_it_start (l : sortedlist V)
    : result (sortedlist V * sortedlist_iter) :=
  let* (l1, iter) := iter_init l in
  Ok (l1, iter_to_start l1 iter).

Definition impl_it_end (l : sortedlist V)
    : result (sortedlist V * sortedlist_iter) :=
  let* (l1, iter) := iter_init l in
  Ok (l1, iter_to_end l1 iter).

(** ** Two callers of the iterator *)

(** The loop [for (; !iter_end(&it); iter_next(&it)) use(iter_value(&it))],
    from its test; the result lists the values used. *)
Fixpoint iter_forward (fuel : nat) (target : sortedlist V)
    (iter : sortedlist_iter) : result (list V) :=
  match fuel with
  | O => OutOfFuel
  | S fuel' =>
    if iter_end target iter then Ok []
    else
      let* x := iter_value zero target iter in
      let* xs := iter_forward fuel' target (snd (iter_next target iter)) in
      Ok (x :: xs)
  end.

(** The loop [for (; !iter_start(&it); iter_prev(&it)) use(iter_value(&it))]. *)
Fixpoint iter_backward (fuel : nat) (target : sortedlist V)
    (iter : sortedlist_iter) : result (list V) :=
  match fuel with
  | O => OutOfFuel
  | S fuel' =>
    if iter_start target iter then Ok []
    else
      let* x := iter_value zero target iter in
      let* xs := iter_backward fuel' target (snd (iter_prev target iter)) in
      Ok (x :: xs)
  end.
End SortedListRest.

(** ** The iterator of [ext/code.h] *)

(** The functions of the part ITER that differ from those of [sortedlist.h]:
    the two constructors, and the two moves to an end, which return whether
    they moved.  The other functions of the part have the same bodies as
    [iter_next], [iter_prev], [iter_advance], [iter_rewind], [iter_go_to],
    [iter_value] and [iter_index] above. *)
Module ext.
Section Iter.
Context {V : Type}.

Definition iter_start (target : sortedlist V)
    : result (sortedlist V * sortedlist_iter) :=
  let* target1 := sort target in
  Ok (target1, {| cursor := 0; start := true; end_ := empty target1 |}).

Definition iter_end (target : sortedlist V)
    : result (sortedlist V * sortedlist_iter) :=
  let* target1 := sort target in
  let iter := {| cursor := 0; start := empty target1; end_ := true |} in
  Ok (target1,
      if negb (empty target1)
      then {| cursor := wrap (count target1 - 1); start := start iter;
              end_ := end_ iter |}
      else iter).

Definition iter_at_start (target : sortedlist V) (iter : sortedlist_iter)
    : bool :=
  empty target || start iter.

Definition iter_at_end (target : sortedlist V) (iter : sortedlist_iter)
    : bool :=
  empty target || end_ iter.

Definition iter_to_start (target : sortedlist V) (iter : sortedlist_iter)
    : bool * sortedlist_iter :=
  if negb (empty target)
  then (true, {| cursor := 0; start := true; end_ := empty target |})
  else (false, iter).

Definition iter_to_end (target : sortedlist V) (iter : sortedlist_iter)
    : bool * sortedlist_iter :=
  if negb (empty target)
  then (true, {| cursor := wrap (count target - 1); start := empty target;
                 end_ := true |})
  else (false, iter).
End Iter.
End ext.

(** ** More about comparison functions and lists *)

(** A three-way comparison: exchanging the arguments exchanges the sign, and
    "not greater" is transitive. *)
Record three_way {V : Type} (c : V -> V -> Z) : Prop := {
  three_way_sym : forall x y, Z.sgn (c y x) = - Z.sgn (c x y);
  three_way_trans : forall x y z, c x y <= 0 -> c y z <= 0 -> c x z <= 0
}.

(** The invariant behind the sorted flag: when it is set, the live elements
    are in non-decreasing order. *)
Definition ordered {V : Type} (c : V -> V -> Z) (l : sortedlist V) : Prop :=
  is_sorted l = true -> StronglySorted (not_greater c) (elements l).

(** Slot [i] is live and holds an element comparator-equal to [value]. *)
Definition matches {V : Type} (c : V -> V -> Z) (l : sortedlist V)
    (value : V) (i : Z) : Prop :=
  0 <= i < count l /\
  exists x, buffer l !! Z.to_nat i = Some x /\ c x value = 0.

(** [P] holds of what a function returns, when it returns. *)
Definition after {A : Type} (r : result A) (P : A -> Prop) : Prop :=
  match r with
  | Ok a => P a
  | _ => True
  end.

(** * Properties *)

(** ** Machine integers and blocks *)

Lemma wrap_small (x : Z) : 0 <= x <= SIZE_MAX -> wrap x = x.
Proof. unfold wrap, SIZE_MAX. intros H. apply Z.mod_small. lia. Qed.

Lemma wrap_range (x : Z) : 0 <= wrap x <= SIZE_MAX.
Proof. unfold wrap, SIZE_MAX. pose proof (Z.mod_pos_bound x 18446744073709551616). lia. Qed.

(** Doubling a capacity that wraps around gives less than the capacity. *)
Lemma wrap_double_no_overflow (c : Z) :
  1 <= c <= SIZE_MAX -> c <= wrap (c * 2) -> c * 2 <= SIZE_MAX.
Proof.
  unfold wrap, SIZE_MAX. intros Hc Hw.
  destruct (decide (c * 2 <= 18446744073709551615)) as [| Hn]; [done |].
  rewrite <- (Z.mod_unique (c * 2) 18446744073709551616 1
                (c * 2 - 18446744073709551616)) in Hw; lia.
Qed.

Lemma wrap_minus_one : wrap (0 - 1) = SIZE_MAX.
Proof. reflexivity. Qed.

Lemma bind_Ok {A B : Type} (m : result A) (k : A -> result B) (b : B) :
  bind m k = Ok b <-> exists a, m = Ok a /\ k a = Ok b.
Proof.
  destruct m as [a | |]; simpl; split; try done; eauto.
  - intros (a' & [= <-] & H). done.
  - intros (? & ? & _). done.
  - intros (? & ? & _). done.
Qed.

Section MemoryFacts.
Context {V : Type}.
Implicit Types (array : list V) (i : Z) (x : V).

Lemma read_Ok array i x :
  read array i = Ok x <-> 0 <= i /\ array !! Z.to_nat i = Some x.
Proof.
  unfold read. destruct (0 <=? i) eqn:H0; simpl.
  - destruct (i <? Z.of_nat (length array)) eqn:H1.
    + destruct (array !! Z.to_nat i) eqn:E; split.
      * intros [= ->]. split; [lia | done].
      * intros [_ [= ->]]. done.
      * done.
      * intros [_ ?]. done.
    + split; [done |]. intros [_ H]. apply lookup_lt_Some in H. lia.
  - split; [done | lia].
Qed.

Lemma read_in_range array i :
  0 <= i < Z.of_nat (length array) -> exists x, read array i = Ok x.
Proof.
  intros H. destruct (lookup_lt_is_Some_2 array (Z.to_nat i)) as [x Hx]; [lia |].
  exists x. apply read_Ok. split; [lia | done].
Qed.

Lemma read_out_of_range array i :
  Z.of_nat (length array) <= i -> read array i = Undefined (OutOfBounds i).
Proof.
  intros H. unfold read.
  destruct (0 <=? i); simpl; [| done].
  destruct (i <? Z.of_nat (length array)) eqn:E; [lia | done].
Qed.

Lemma read_not_OutOfFuel array i : read array i <> OutOfFuel.
Proof.
  unfold read. destruct (_ && _); [| done]. by destruct (array !! Z.to_nat i).
Qed.

Lemma write_Ok array i x array' :
  write array i x = Ok array' <->
  0 <= i < Z.of_nat (length array) /\ array' = <[Z.to_nat i := x]> array.
Proof.
  unfold write. destruct (0 <=? i) eqn:H0, (i <? Z.of_nat (length array)) eqn:H1;
    simpl; split; try done; try (intros [= <-]; split; [lia | done]);
    try (intros [? ->]; done); intros [? _]; lia.
Qed.

Lemma write_in_range array i x :
  0 <= i < Z.of_nat (length array) ->
  write array i x = Ok (<[Z.to_nat i := x]> array).
Proof. intros H. apply write_Ok. done. Qed.

Lemma write_not_OutOfFuel array i x : write array i x <> OutOfFuel.
Proof. unfold write. by destruct (_ && _). Qed.
End MemoryFacts.

(** ** Construction *)

Section ConstructionFacts.
Context {V : Type} (zero : V) (dflt : cmc_alloc_node V).

Lemma new_Some cap ft l :
  new zero dflt cap ft = Some l ->
  1 <= cap /\ ft <> None /\ malloc dflt = true /\
  calloc dflt cap = true /\
  buffer l = replicate (Z.to_nat cap) zero /\
  capacity l = cap /\ count l = 0 /\ is_sorted l = false /\
  flag l = cmc_flags.OK /\ f_val l = ft /\ alloc l = dflt.
Proof.
  unfold new. destruct (cap <? 1) eqn:Hc; [done |].
  destruct ft as [ft |]; [| done].
  destruct (malloc dflt); [| done]. destruct (calloc dflt cap); [| done].
  simpl. intros [= <-]. simpl. repeat split; try done. lia.
Qed.

Lemma new_custom_Some cap ft a cb l :
  new_custom zero dflt cap ft a cb = Some l ->
  1 <= cap /\ malloc (default dflt a) = true /\
  calloc (default dflt a) cap = true /\
  buffer l = replicate (Z.to_nat cap) zero /\
  capacity l = cap /\ count l = 0 /\ is_sorted l = false /\
  flag l = cmc_flags.OK /\ f_val l = ft /\ alloc l = default dflt a /\
  callbacks l = cb.
Proof.
  unfold new_custom. destruct (cap <? 1) eqn:Hc; [done |].
  destruct a as [a |]; simpl;
    (destruct (malloc _); [| done]); (destruct (calloc _ cap); [| done]);
    simpl; intros [= <-]; simpl; repeat split; try done; lia.
Qed.

(** Both constructors refuse a cap below 1. *)
Lemma new_capacity_below_1 cap ft a cb :
  cap < 1 ->
  new zero dflt cap ft = None /\
  new_custom zero dflt cap ft a cb = None.
Proof.
  intros H. unfold new, new_custom.
  destruct (cap <? 1) eqn:Hc; [done | lia].
Qed.

(** Both constructors fail when either allocation fails. *)
Lemma new_allocation_failure cap ft :
  malloc dflt = false \/ calloc dflt cap = false ->
  new zero dflt cap ft = None.
Proof.
  intros H. unfold new. destruct (cap <? 1); [done |].
  destruct ft; [| done].
  destruct (malloc dflt); simpl; [| done].
  destruct (calloc dflt cap); simpl; [| done]. by destruct H.
Qed.

Lemma new_custom_allocation_failure cap ft a cb :
  malloc (default dflt a) = false \/ calloc (default dflt a) cap = false ->
  new_custom zero dflt cap ft a cb = None.
Proof.
  intros H. unfold new_custom. destruct (cap <? 1); [done |].
  destruct a as [a |]; simpl in *;
    destruct (malloc _); simpl; try done;
    destruct (calloc _ cap); simpl; try done; by destruct H.
Qed.

(** Only [new] refuses a missing function table. *)
Lemma new_missing_table cap : new zero dflt cap None = None.
Proof. unfold new. by destruct (cap <? 1). Qed.

Lemma new_custom_missing_table cap a cb :
  1 <= cap -> malloc (default dflt a) = true ->
  calloc (default dflt a) cap = true ->
  exists l, new_custom zero dflt cap None a cb = Some l /\ f_val l = None.
Proof.
  intros Hc Hm Hb. unfold new_custom.
  destruct (cap <? 1) eqn:E; [lia |].
  destruct a as [a |]; simpl in *; rewrite Hm, Hb; simpl; eauto.
Qed.
End ConstructionFacts.

(** C5. The claim says that both constructors fail when the function table is
    missing.  [new_custom] does not test it: called with capacity 1, a null
    table and an allocator that grants the two requests, it returns a list
    (count 0, sorted flag false) whose table pointer is null. *)
Theorem new_custom_accepts_missing_table :
  new_custom 0 IntList.generous 1 None None None
  = Some {| buffer := [0]; capacity := 1; count := 0; is_sorted := false;
            flag := cmc_flags.OK; f_val := None; alloc := IntList.generous;
            callbacks := None |}
  /\ new 0 IntList.generous 1 None = None.
Proof. split; reflexivity. Qed.

(** ** Iterator *)

Section IteratorFacts.
Context {V : Type}.
Implicit Types (target : sortedlist V) (iter : sortedlist_iter).

(** When [iter_advance] reports a move and where the cursor is afterwards,
    with the sum [cursor + steps] representable. *)
Lemma iter_advance_spec target iter steps :
  0 <= cursor iter -> 0 <= steps -> cursor iter + steps <= SIZE_MAX ->
  count target <= SIZE_MAX ->
  (fst (iter_advance target iter steps) = true <->
   end_ iter = false /\ 0 < steps /\ cursor iter + steps <= count target - 1)
  /\ cursor (snd (iter_advance target iter steps))
     = (if fst (iter_advance target iter steps)
        then cursor iter + steps else cursor iter).
Proof.
  intros Hc Hs Hsum Hn. unfold iter_advance.
  destruct (end_ iter) eqn:He; simpl.
  { split; [|done]. split; [done | by intros [? _]]. }
  destruct (decide (steps = 0)) as [-> | Hne].
  { destruct (wrap (cursor iter + 1) =? count target); simpl;
      (split; [|done]); (split; [done | lia]). }
  rewrite (wrap_small (cursor iter + 1)) by lia.
  destruct (cursor iter + 1 =? count target) eqn:E1; simpl.
  { split; [|done]. split; [done | lia]. }
  rewrite (wrap_small (cursor iter + steps)) by lia.
  destruct (steps =? 0) eqn:E2; simpl.
  { split; [|done]. split; [done | lia]. }
  destruct (cursor iter + steps >=? count target) eqn:E3; simpl.
  { split; [|done]. split; [done | lia]. }
  split; [|done]. split; [intros _| done]. repeat split; lia.
Qed.

(** The same for [iter_rewind]. *)
Lemma iter_rewind_spec target iter steps :
  0 <= cursor iter <= SIZE_MAX -> 0 <= steps ->
  (fst (iter_rewind target iter steps) = true <->
   start iter = false /\ 0 < steps /\ 0 <= cursor iter - steps)
  /\ cursor (snd (iter_rewind target iter steps))
     = (if fst (iter_rewind target iter steps)
        then cursor iter - steps else cursor iter).
Proof.
  intros Hc Hs. unfold iter_rewind.
  destruct (start iter) eqn:He; simpl.
  { split; [|done]. split; [done | by intros [? _]]. }
  destruct (cursor iter =? 0) eqn:E1; simpl.
  { split; [|done]. split; [done | lia]. }
  destruct (steps =? 0) eqn:E2; simpl.
  { split; [|done]. split; [done | lia]. }
  destruct (cursor iter <? steps) eqn:E3; simpl.
  { split; [|done]. split; [done | lia]. }
  rewrite wrap_small by lia.
  split; [|done]. split; [intros _| done]. repeat split; lia.
Qed.

(** C8, as amended.  A bulk move fails, leaving the cursor where it is,
    exactly when the boundary flag of its direction is set, [steps] is 0, or
    the move would go past the last index (for [iter_advance]) or below
    index 0 (for [iter_rewind]); a move that lands exactly on the last index
    [count - 1], or exactly on index 0, succeeds. *)
Theorem iter_bulk_move_spec target iter steps :
  0 <= cursor iter -> 0 <= steps -> cursor iter + steps <= SIZE_MAX ->
  count target <= SIZE_MAX ->
  (fst (iter_advance target iter steps) = false <->
   end_ iter = true \/ steps = 0 \/ count target - 1 < cursor iter + steps)
  /\ cursor (snd (iter_advance target iter steps))
     = (if fst (iter_advance target iter steps)
        then cursor iter + steps else cursor iter)
  /\ (fst (iter_rewind target iter steps) = false <->
      start iter = true \/ steps = 0 \/ cursor iter - steps < 0)
  /\ cursor (snd (iter_rewind target iter steps))
     = (if fst (iter_rewind target iter steps)
        then cursor iter - steps else cursor iter).
Proof.
  intros Hc Hs Hsum Hn.
  destruct (iter_advance_spec target iter steps Hc Hs Hsum Hn) as [Ha Ha'].
  destruct (iter_rewind_spec target iter steps) as [Hr Hr']; [lia | done |].
  repeat split; try done.
  - intros Hf. destruct (end_ iter) eqn:He; [by left | right].
    destruct (decide (steps = 0)) as [| Hne]; [by left | right].
    destruct (decide (count target - 1 < cursor iter + steps)); [done |].
    rewrite (proj2 Ha) in Hf; [done |]. repeat split; lia.
  - intros Hf. destruct (fst (iter_advance target iter steps)); [| done].
    destruct (proj1 Ha eq_refl) as (He & H0 & Hle).
    destruct Hf as [Hf | [Hf | Hf]]; [congruence | lia | lia].
  - intros Hf. destruct (start iter) eqn:He; [by left | right].
    destruct (decide (steps = 0)) as [| Hne]; [by left | right].
    destruct (decide (cursor iter - steps < 0)); [done |].
    rewrite (proj2 Hr) in Hf; [done |]. repeat split; lia.
  - intros Hf. destruct (fst (iter_rewind target iter steps)); [| done].
    destruct (proj1 Hr eq_refl) as (He & H0 & Hle).
    destruct Hf as [Hf | [Hf | Hf]]; [congruence | lia | lia].
Qed.

(** C10.  With the cursor on the last index and the end flag unset,
    [iter_next] and [iter_advance] return false, leave the cursor where it
    is and set the end flag, so that [iter_end] is true afterwards; with the
    cursor on index 0 and the start flag unset, [iter_prev] returns false
    and sets the start flag. *)
Theorem iter_boundary_sets_flag target a b steps :
  0 <= cursor a -> count target <= SIZE_MAX ->
  cursor a + 1 = count target -> end_ a = false ->
  cursor b = 0 -> start b = false ->
  let a' := {| cursor := cursor a; start := start a; end_ := true |} in
  let b' := {| cursor := 0; start := true; end_ := end_ b |} in
  iter_next target a = (false, a') /\
  iter_advance target a steps = (false, a') /\
  iter_end target a' = true /\
  iter_prev target b = (false, b') /\
  iter_start target b' = true.
Proof.
  intros Hc Hn Hlast He Hb Hs a' b'.
  unfold iter_next, iter_advance, iter_prev, iter_end, iter_start.
  rewrite He, Hs, Hb, wrap_small by lia. simpl.
  replace (cursor a + 1 =? count target) with true by lia.
  repeat split; apply orb_true_r.
Qed.
End IteratorFacts.

(** Witness of C8 as amended. *)
Lemma iter_bulk_move_spec_witness :
  let target := IntList.make [1; 2; 3; 4; 5] 5 true in
  let iter := {| cursor := 1; start := false; end_ := false |} in
  (fst (iter_advance target iter 3) = false <->
   end_ iter = true \/ 3 = 0 \/ count target - 1 < cursor iter + 3)
  /\ cursor (snd (iter_advance target iter 3))
     = (if fst (iter_advance target iter 3) then cursor iter + 3 else cursor iter)
  /\ (fst (iter_rewind target iter 3) = false <->
      start iter = true \/ 3 = 0 \/ cursor iter - 3 < 0)
  /\ cursor (snd (iter_rewind target iter 3))
     = (if fst (iter_rewind target iter 3) then cursor iter - 3 else cursor iter).
Proof.
  apply (iter_bulk_move_spec (IntList.make [1; 2; 3; 4; 5] 5 true)
           {| cursor := 1; start := false; end_ := false |} 3);
    simpl; unfold SIZE_MAX; lia.
Defined.

(** C8 as stated fails: one [iter_advance] lands exactly on the last index,
    and one [iter_rewind] lands exactly on index 0. *)
Lemma iter_bulk_move_lands_on_boundary :
  let target := IntList.make [1; 2; 3; 4; 5] 5 true in
  iter_advance target {| cursor := 0; start := true; end_ := false |} 4
  = (true, {| cursor := count target - 1; start := false; end_ := false |})
  /\ iter_rewind target {| cursor := 3; start := false; end_ := false |} 3
     = (true, {| cursor := 0; start := false; end_ := false |}).
Proof. split; reflexivity. Qed.

(** Witness of C10. *)
Lemma iter_boundary_sets_flag_witness :
  let target := IntList.make [1; 2; 3] 3 true in
  iter_next target {| cursor := 2; start := false; end_ := false |}
  = (false, {| cursor := 2; start := false; end_ := true |}) /\
  iter_advance target {| cursor := 2; start := false; end_ := false |} 1
  = (false, {| cursor := 2; start := false; end_ := true |}) /\
  iter_end target {| cursor := 2; start := false; end_ := true |} = true /\
  iter_prev target {| cursor := 0; start := false; end_ := false |}
  = (false, {| cursor := 0; start := true; end_ := false |}) /\
  iter_start target {| cursor := 0; start := true; end_ := false |} = true.
Proof.
  apply (iter_boundary_sets_flag (IntList.make [1; 2; 3] 3 true)
           {| cursor := 2; start := false; end_ := false |}
           {| cursor := 0; start := false; end_ := false |} 1);
    simpl; unfold SIZE_MAX; (reflexivity || lia).
Defined.

(** ** Lazy sorting, access and the status field *)

Section AccessFacts.
Context {V : Type} `{!SizeOf V} (zero : V).
Implicit Types (l : sortedlist V) (index : Z).

(** What a completed [sort] did. *)
Lemma sort_Ok l l' :
  sort l = Ok l' ->
  (l' = l /\ (is_sorted l = true \/ count l <= 1)) \/
  (is_sorted l = false /\ 1 < count l /\
   exists c b, f_val_cmp l = Ok c /\
     impl_sort_quicksort (S (Z.to_nat (count l))) c (buffer l) 0
                         (wrap (count l - 1)) = Ok b /\
     l' = set_is_sorted (set_buffer l b) true).
Proof.
  unfold sort. destruct (is_sorted l) eqn:Hs; simpl negb; simpl andb.
  { intros [= <-]. left. eauto. }
  destruct (count l >? 1) eqn:Hc.
  - intros (c & Hcmp & (b & Hq & [= <-])%bind_Ok)%bind_Ok.
    right. repeat split; [lia |]. by exists c, b.
  - intros [= <-]. left. split; [done | right; lia].
Qed.

(** [sort] does nothing to a list whose sorted flag is set or that has at
    most one element. *)
Lemma sort_noop l :
  is_sorted l = true \/ count l <= 1 -> sort l = Ok l.
Proof.
  intros H. unfold sort.
  destruct (is_sorted l); simpl; [done |].
  destruct (count l >? 1) eqn:Hc; [| done]. destruct H; [done | lia].
Qed.

Lemma sort_fields l l' :
  sort l = Ok l' ->
  capacity l' = capacity l /\ count l' = count l /\ flag l' = flag l /\
  f_val l' = f_val l /\ alloc l' = alloc l /\ callbacks l' = callbacks l.
Proof.
  intros [[-> _] | (_ & _ & c & b & _ & _ & ->)]%sort_Ok; done.
Qed.

(** [get] at an index that is not below [count] returns the zero value and
    leaves the whole list as it was, the [flag] field included. *)
Lemma get_out_of_range l index :
  count l <= index -> get zero l index = Ok (zero, l).
Proof.
  intros H. unfold get. destruct (index >=? count l) eqn:E; [done | lia].
Qed.

(** No function that takes a list writes its [flag] field. *)
Lemma resize_flag l c : flag (snd (resize l c)) = flag l.
Proof.
  unfold resize. destruct (capacity l =? c); [done |].
  destruct (c <? count l); [done |].
  destruct (realloc (alloc l) _); simpl; [done |]. by destruct (_ && _).
Qed.

Lemma insert_flag l x r l' : insert l x = Ok (r, l') -> flag l' = flag l.
Proof.
  unfold insert. pose proof (resize_flag l (wrap (capacity l * 2))) as Hr.
  destruct (full l).
  - destruct (resize l _) as [[] l1]; simpl in *.
    + destruct (write _ _ _); simpl; [| done..]. by intros [= _ <-].
    + by intros [= _ <-].
  - simpl. destruct (write _ _ _); simpl; [| done..]. by intros [= _ <-].
Qed.

Lemma remove_flag l index r l' :
  remove zero l index = Ok (r, l') -> flag l' = flag l.
Proof.
  unfold remove. destruct (index >=? count l); [by intros [= _ <-] |].
  destruct (memmove _ _ _ _); simpl; [| done..].
  destruct (write _ _ _); simpl; [| done..]. by intros [= _ <-].
Qed.

Lemma get_flag l index x l' :
  get zero l index = Ok (x, l') -> flag l' = flag l.
Proof.
  unfold get. destruct (index >=? count l); [by intros [= _ <-] |].
  destruct (sort l) as [l1 | |] eqn:Hs; simpl; [| done..].
  destruct (read _ _); simpl; [| done..]. intros [= _ <-].
  by apply sort_fields in Hs as (_ & _ & ? & _).
Qed.

Lemma indexof_flag l x from_start i l' :
  indexof l x from_start = Ok (i, l') -> flag l' = flag l.
Proof.
  unfold indexof. destruct (sort l) as [l1 | |] eqn:Hs; simpl; [| done..].
  apply sort_fields in Hs as (_ & _ & ? & _).
  destruct from_start.
  - destruct (impl_binary_search_first l1 x); simpl; [| done..].
    by intros [= _ <-].
  - destruct (impl_binary_search_last l1 x); simpl; [| done..].
    by intros [= _ <-].
Qed.

Lemma equals_from_Some fuel l1 l2 i r :
  equals_from fuel l1 l2 i = Ok (Some r) -> r = false.
Proof.
  revert i. induction fuel as [| fuel IH]; intros i; [done |].
  cbn [equals_from]. destruct (i <? count l1); [| done].
  intros (c & _ & (x & _ & (y & _ & H)%bind_Ok)%bind_Ok)%bind_Ok.
  destruct (negb (c x y =? 0)); [by injection H | by apply IH in H].
Qed.

(** Whatever [equals] returns, it is not true: the statement that ends the
    function returns false, like the two before it. *)
Lemma equals_never_true l1 l2 r l1' l2' :
  equals l1 l2 = Ok (r, l1', l2') -> r = false.
Proof.
  unfold equals. destruct (negb (count l1 =? count l2)); [by intros [= <-] |].
  intros (s1 & _ & (s2 & _ & (r0 & E & H)%bind_Ok)%bind_Ok)%bind_Ok.
  destruct r0 as [b |]; injection H as <- _ _; [| done].
  by apply equals_from_Some in E.
Qed.
End AccessFacts.

(** An instance of [get_out_of_range]. *)
Lemma get_out_of_range_witness :
  get 0 (IntList.make [7] 1 true) 1 = Ok (0, IntList.make [7] 1 true).
Proof. apply (get_out_of_range 0 (IntList.make [7] 1 true) 1). simpl. lia. Defined.

(** C9.  The claim says that after [get] at an index that is not below
    [count] the [flag] field holds [OUT_OF_RANGE]; the header documents the
    field as [Flags indicating errors or success] and the code as
    [Index out of array range].  On the list that [new] and one [insert] of
    7 build, [get] at index 1 returns the zero value and leaves the list as
    it was: the [flag] field still holds [OK], the value the constructor
    gave it. *)
Theorem get_out_of_range_keeps_flag :
  exists l0 l,
    new 0 IntList.generous 1 (Some IntList.int_ftab) = Some l0 /\
    insert l0 7 = Ok (true, l) /\
    get 0 l 1 = Ok (0, l) /\
    flag l = cmc_flags.OK /\ flag l <> cmc_flags.OUT_OF_RANGE.
Proof.
  exists (IntList.make [0] 0 false), (IntList.make [7] 1 false).
  repeat split; try (vm_compute; reflexivity). discriminate.
Qed.

(** C1.  The claim says that [equals] returns true for a list and its copy.
    On the list 3, 1, 2 the copy is made, both lists are sorted into 1, 2, 3,
    every pair of elements compares equal, and [equals] returns false. *)
Theorem equals_copy_of_is_false :
  let l := IntList.make [3; 1; 2] 3 false in
  let sorted := IntList.make [1; 2; 3] 3 true in
  exists c, copy_of 0 IntList.generous l = Ok (Some c) /\
            equals l c = Ok (false, sorted, sorted).
Proof. eexists. split; reflexivity. Qed.

(** ** Binary searches *)

Section SearchFacts.
Context {V : Type}.
Implicit Types (l : sortedlist V) (array : list V) (c : V -> V -> Z).

Lemma f_val_cmp_Ok l c :
  f_val_cmp l = Ok c <-> exists ft, f_val l = Some ft /\ cmp ft = Some c.
Proof.
  unfold f_val_cmp. destruct (f_val l) as [ft |].
  - destruct (cmp ft) as [c' |] eqn:E; split.
    + intros [= <-]. eauto.
    + intros (? & [= <-] & H). congruence.
    + done.
    + intros (? & [= <-] & H). congruence.
  - split; [done | by intros (? & ? & _)].
Qed.

Lemma elements_lookup l (i : nat) :
  (Z.of_nat i < count l) -> elements l !! i = buffer l !! i.
Proof. intros H. unfold elements. apply lookup_take_lt. lia. Qed.



(** When every probed element is smaller than [value], it ends at [R]. *)
Lemma impl_binary_search_first_loop_all_less fuel c array value L R :
  0 <= L <= R -> R <= Z.of_nat (length array) -> R <= SIZE_MAX ->
  (Z.to_nat (R - L) < fuel)%nat ->
  (forall i x, L <= i < R -> array !! Z.to_nat i = Some x -> c x value < 0) ->
  impl_binary_search_first_loop fuel c array value L R = Ok R.
Proof.
  revert L. induction fuel as [| fuel IH]; intros L HL HR Hmax Hf Hless; [lia |].
  cbn [impl_binary_search_first_loop].
  destruct (L <? R) eqn:E; [| f_equal; lia].
  rewrite (wrap_small (R - L)) by lia.
  assert (L <= L + (R - L) / 2 < R) as HM.
  { pose proof (Z.div_lt_upper_bound (R - L) 2 (R - L)).
    pose proof (Z.div_pos (R - L) 2). lia. }
  rewrite (wrap_small (L + (R - L) / 2)) by lia.
  destruct (read_in_range array (L + (R - L) / 2)) as [x Hx]; [lia |].
  rewrite Hx. cbn [bind]. apply read_Ok in Hx as [_ Hx].
  apply Hless in Hx; [| lia].
  destruct (c x value <? 0) eqn:Ec; [| lia].
  rewrite wrap_small by lia. apply IH; try lia.
  intros i y Hi. apply Hless. lia.
Qed.

(** The same for the loop of the last search. *)
Lemma impl_binary_search_last_loop_range fuel c array value L R :
  0 <= L <= R -> R <= Z.of_nat (length array) -> R <= SIZE_MAX ->
  (Z.to_nat (R - L) < fuel)%nat ->
  exists L', impl_binary_search_last_loop fuel c array value L R = Ok L'
             /\ L <= L' <= R.
Proof.
  revert L R. induction fuel as [| fuel IH]; intros L R HL HR Hmax Hf; [lia |].
  cbn [impl_binary_search_last_loop].
  destruct (L <? R) eqn:E; [| exists L; split; [done | lia]].
  rewrite (wrap_small (R - L)) by lia.
  assert (L <= L + (R - L) / 2 < R) as HM.
  { pose proof (Z.div_lt_upper_bound (R - L) 2 (R - L)).
    pose proof (Z.div_pos (R - L) 2). lia. }
  rewrite (wrap_small (L + (R - L) / 2)) by lia.
  destruct (read_in_range array (L + (R - L) / 2)) as [x ->]; [lia |].
  cbn [bind]. destruct (c x value >? 0).
  - destruct (IH L (L + (R - L) / 2)) as (L' & -> & ?); [lia.. |].
    exists L'. split; [done | lia].
  - rewrite wrap_small by lia.
    destruct (IH (L + (R - L) / 2 + 1) R) as (L' & -> & ?); [lia.. |].
    exists L'. split; [done | lia].
Qed.

(** When every probed element is greater than [value], it ends at [L]. *)
Lemma impl_binary_search_last_loop_all_greater fuel c array value L R :
  0 <= L <= R -> R <= Z.of_nat (length array) -> R <= SIZE_MAX ->
  (Z.to_nat (R - L) < fuel)%nat ->
  (forall i x, L <= i < R -> array !! Z.to_nat i = Some x -> 0 < c x value) ->
  impl_binary_search_last_loop fuel c array value L R = Ok L.
Proof.
  revert R. induction fuel as [| fuel IH]; intros R HL HR Hmax Hf Hgt; [lia |].
  cbn [impl_binary_search_last_loop].
  destruct (L <? R) eqn:E; [| done].
  rewrite (wrap_small (R - L)) by lia.
  assert (L <= L + (R - L) / 2 < R) as HM.
  { pose proof (Z.div_lt_upper_bound (R - L) 2 (R - L)).
    pose proof (Z.div_pos (R - L) 2). lia. }
  rewrite (wrap_small (L + (R - L) / 2)) by lia.
  destruct (read_in_range array (L + (R - L) / 2)) as [x Hx]; [lia |].
  rewrite Hx. cbn [bind]. apply read_Ok in Hx as [_ Hx].
  apply Hgt in Hx; [| lia].
  destruct (c x value >? 0) eqn:Ec; [| lia].
  apply IH; try lia. intros i y Hi. apply Hgt. lia.
Qed.





(** In a full list whose elements are all smaller than [value], the first
    search reads the slot after the block. *)
Lemma impl_binary_search_first_out_of_bounds l c value :
  well_formed l -> f_val_cmp l = Ok c ->
  0 < count l -> count l = capacity l ->
  (forall x, x ∈ elements l -> c x value < 0) ->
  impl_binary_search_first l value = Undefined (OutOfBounds (count l)).
Proof.
  intros (Hlen & Hcnt & Hcap) Hc Hn Hfull Hless.
  unfold impl_binary_search_first, empty.
  destruct (count l =? 0) eqn:E; [lia |]. rewrite Hc. cbn [bind].
  rewrite impl_binary_search_first_loop_all_less; [| lia.. |].
  - cbn [bind]. rewrite read_out_of_range by lia. done.
  - intros i x Hi Hx. apply Hless. apply list_elem_of_lookup.
    exists (Z.to_nat i). rewrite elements_lookup by lia. done.
Qed.

(** In a list whose elements are all greater than [value], the last search
    reads slot [SIZE_MAX], the result of [0 - 1]. *)
Lemma impl_binary_search_last_out_of_bounds l c value :
  well_formed l -> f_val_cmp l = Ok c -> 0 < count l ->
  (forall x, x ∈ elements l -> 0 < c x value) ->
  impl_binary_search_last l value = Undefined (OutOfBounds SIZE_MAX).
Proof.
  intros (Hlen & Hcnt & Hcap) Hc Hn Hgt.
  unfold impl_binary_search_last, empty.
  destruct (count l =? 0) eqn:E; [lia |]. rewrite Hc. cbn [bind].
  rewrite impl_binary_search_last_loop_all_greater; [| lia.. |].
  - cbn [bind]. rewrite wrap_minus_one, read_out_of_range by lia. done.
  - intros i x Hi Hx. apply Hgt. apply list_elem_of_lookup.
    exists (Z.to_nat i). rewrite elements_lookup by lia. done.
Qed.
End SearchFacts.

(** ** Removal *)

Section RemoveFacts.
Context {V : Type} (zero : V).
Implicit Types (l : sortedlist V) (index : Z).

(** An index that is not below [count]: [remove] returns false and the list
    is as it was. *)
Lemma remove_out_of_range l index :
  count l <= index -> remove zero l index = Ok (false, l).
Proof.
  intros H. unfold remove. destruct (index >=? count l) eqn:E; [done | lia].
Qed.

(** A full list: the [memmove] of [count - index] elements from slot
    [index + 1] reads the slot after the block. *)
Lemma remove_full_out_of_bounds l index :
  well_formed l -> count l = capacity l -> 0 <= index < count l ->
  remove zero l index = Undefined (OutOfBounds (count l)).
Proof.
  intros (Hlen & Hcnt & Hcap) Hfull Hi. unfold remove.
  destruct (index >=? count l) eqn:E; [lia |].
  rewrite !wrap_small by lia. unfold memmove.
  destruct (Z.of_nat (length (buffer l)) <? index + 1 + (count l - index))
    eqn:E'; [| lia].
  cbn [bind]. do 2 f_equal. lia.
Qed.

(** A list that is not full: [remove] returns true, the live elements are
    the old ones without the one at [index], the vacated slot holds the zero
    value, and only [buffer] and [count] change. *)
Lemma remove_in_range l index :
  well_formed l -> count l < capacity l -> 0 <= index < count l ->
  exists l', remove zero l index = Ok (true, l') /\
    elements l' = delete (Z.to_nat index) (elements l) /\
    buffer l' !! Z.to_nat (count l - 1) = Some zero /\
    count l' = count l - 1 /\
    length (buffer l') = length (buffer l) /\
    capacity l' = capacity l /\ is_sorted l' = is_sorted l /\
    flag l' = flag l /\ f_val l' = f_val l /\ alloc l' = alloc l /\
    callbacks l' = callbacks l.
Proof.
  intros (Hlen & Hcnt & Hcap) Hfull Hi. unfold remove.
  destruct (index >=? count l) eqn:E; [lia |].
  rewrite !wrap_small by lia. unfold memmove.
  destruct (Z.of_nat (length (buffer l)) <? index + 1 + (count l - index))
    eqn:E1; [lia |].
  destruct (Z.of_nat (length (buffer l)) <? index + (count l - index))
    eqn:E2; [lia |].
  cbn [bind].
  set (i := Z.to_nat index). set (n := Z.to_nat (count l)).
  replace (Z.to_nat (index + 1)) with (S i) by lia.
  replace (Z.to_nat (count l - index)) with (n - i)%nat by lia.
  replace (Z.to_nat (index + (count l - index))) with n by lia.
  set (b1 := take i (buffer l) ++ take (n - i) (drop (S i) (buffer l))
             ++ drop n (buffer l)).
  assert (length b1 = length (buffer l)) as Hb1.
  { unfold b1. rewrite !length_app, !length_take, !length_drop. lia. }
  rewrite write_in_range by lia. cbn [bind].
  eexists. split; [done |]. unfold elements. simpl.
  replace (Z.to_nat (count l - 1)) with (n - 1)%nat by lia. fold n.
  repeat split; try done.
  - rewrite take_insert_ge by lia. unfold b1.
    rewrite delete_take_drop, take_take.
    replace (i `min` n)%nat with i by lia.
    rewrite take_app, length_take.
    replace (i `min` length (buffer l))%nat with i by lia.
    rewrite (take_ge (take i (buffer l))) by (rewrite length_take; lia).
    f_equal.
    rewrite take_app_le by (rewrite length_take, length_drop; lia).
    rewrite take_take.
    replace ((n - 1 - i) `min` (n - i))%nat with (n - S i)%nat by lia.
    rewrite take_drop_commute. do 2 f_equal. lia.
  - apply list_lookup_insert_eq. lia.
  - rewrite length_insert. done.
Qed.
End RemoveFacts.

(** ** Growth *)

Section GrowthFacts.
Context {V : Type} `{!SizeOf V} (zero : V) (dflt : cmc_alloc_node V).
Implicit Types (l : sortedlist V).

Lemma sizeof_positive : 1 <= sizeof V.
Proof. apply sizeof_range. Qed.

(** A byte count that does not wrap around buys the requested slots. *)
Lemma slots_exact c :
  0 <= c -> sizeof V * c <= SIZE_MAX ->
  wrap (sizeof V * c) = sizeof V * c /\ wrap (sizeof V * c) / sizeof V = c.
Proof.
  intros Hc Hfit. pose proof sizeof_positive as Hs.
  rewrite wrap_small by nia. split; [done |].
  rewrite Z.mul_comm. apply Z.div_mul. lia.
Qed.

(** A byte count for twice [c] elements that wraps around buys no more than
    [c] slots. *)
Lemma slots_wrapped c :
  0 <= c -> SIZE_MAX < sizeof V * (c * 2) ->
  wrap (sizeof V * (c * 2)) / sizeof V <= c.
Proof.
  intros Hc Hw. pose proof sizeof_positive as Hs.
  assert (wrap (sizeof V * (c * 2)) < sizeof V * Z.succ c) as Hlt.
  { pose proof (wrap_range (sizeof V * (c * 2))) as Hr.
    destruct (decide (sizeof V * c <= SIZE_MAX)) as [Hsmall | Hbig];
      [| unfold SIZE_MAX in *; lia].
    unfold wrap, SIZE_MAX in *.
    rewrite <- (Z.mod_unique (sizeof V * (c * 2)) 18446744073709551616 1
                  (sizeof V * (c * 2) - 18446744073709551616)); lia. }
  apply Z.lt_succ_r. apply Z.div_lt_upper_bound; lia.
Qed.

Lemma resize_true l c l' :
  resize l c = (true, l') ->
  capacity l' = c /\ count l' = count l /\ (capacity l = c \/ count l <= c).
Proof.
  unfold resize. destruct (capacity l =? c) eqn:E.
  { intros [= <-]. repeat split; lia. }
  destruct (c <? count l) eqn:E'; [done |].
  destruct (realloc (alloc l) _); simpl; [| done].
  intros [= <-]. simpl. repeat split; lia.
Qed.

Lemma resize_alloc l c : alloc (snd (resize l c)) = alloc l.
Proof.
  unfold resize. destruct (capacity l =? c); [done |].
  destruct (c <? count l); [done |].
  destruct (realloc (alloc l) _); simpl; [done |]. by destruct (_ && _).
Qed.

Lemma insert_grown C0 l x l' :
  grown C0 l -> insert l x = Ok (true, l') ->
  grown C0 l' /\ count l' = count l + 1.
Proof.
  intros (HC & Hcnt & Hcap & k & Hk & Hlast). unfold insert, full.
  destruct (count l >=? capacity l) eqn:Hfull.
  - destruct (resize l (wrap (capacity l * 2))) as [[] l1] eqn:Hr;
      simpl; [| done].
    apply resize_true in Hr as (Hc1 & Hn1 & Hge).
    intros (b & _ & [= <-])%bind_Ok. simpl.
    assert (capacity l * 2 <= SIZE_MAX) as Hno.
    { apply wrap_double_no_overflow; lia. }
    rewrite wrap_small in Hc1 by lia.
    rewrite Hn1, wrap_small by lia.
    split; [| done]. unfold grown. simpl. rewrite Hc1.
    repeat split; try lia.
    exists (S k). split.
    + rewrite Nat2Z.inj_succ, Z.pow_succ_r by lia. lia.
    + right. replace (Z.of_nat (S k) - 1) with (Z.of_nat k) by lia. lia.
  - simpl. intros (b & _ & [= <-])%bind_Ok. simpl.
    rewrite wrap_small by lia.
    split; [| done]. unfold grown. simpl. repeat split; try lia.
    exists k. split; [done |]. destruct Hlast; [by left | right; lia].
Qed.

Lemma insert_all_grown C0 l xs l' :
  grown C0 l -> insert_all l xs = Ok (true, l') ->
  grown C0 l' /\ count l' = count l + Z.of_nat (length xs).
Proof.
  revert l. induction xs as [| x xs IH]; intros l Hg; simpl.
  { intros [= <-]. split; [done | lia]. }
  intros ([[] l1] & Hi & Hrest)%bind_Ok; [| done].
  destruct (insert_grown C0 l x l1 Hg Hi) as [Hg1 Hn1].
  destruct (IH l1 Hg1 Hrest) as [Hg' Hn']. split; [done | lia].
Qed.

Lemma grown_smallest_doubling C0 l :
  grown C0 l -> smallest_doubling C0 (count l) (capacity l).
Proof.
  intros (HC & Hcnt & Hcap & k & Hk & Hlast). repeat split.
  - by exists k.
  - lia.
  - intros j Hj. rewrite Hk.
    apply Z.mul_le_mono_nonneg_l; [lia |].
    apply Z.pow_le_mono_r; [lia |].
    destruct Hlast as [-> | Hlast]; [lia |].
    destruct (decide (Z.of_nat k <= Z.of_nat j)) as [| Hn]; [done |].
    assert (2 ^ Z.of_nat j <= 2 ^ (Z.of_nat k - 1))
      by (apply Z.pow_le_mono_r; lia).
    nia.
Qed.

Lemma realloc_block_length (al : cmc_alloc_node V) (b : list V) n :
  length (realloc_block al b n) = Z.to_nat n.
Proof.
  unfold realloc_block.
  rewrite length_app, length_take, length_fmap, length_seq. lia.
Qed.

Lemma realloc_block_take (al : cmc_alloc_node V) (b : list V) n (k : nat) :
  (k <= length b)%nat -> (k <= Z.to_nat n)%nat ->
  take k (realloc_block al b n) = take k b.
Proof.
  intros Hb Hn. unfold realloc_block.
  rewrite take_app_le by (rewrite length_take; lia).
  rewrite take_take. f_equal. lia.
Qed.

(** A successful [insert] into a well-formed list appends its element to the
    live elements, clears the sorted flag and leaves the list well-formed.
    When the list was full the byte count of the doubled block has not
    wrapped around: a wrapped count buys too few slots for the write. *)
Lemma insert_appends l x l' :
  well_formed l -> insert l x = Ok (true, l') ->
  well_formed l' /\ elements l' = elements l ++ [x] /\ is_sorted l' = false.
Proof.
  intros (Hlen & Hcnt & Hcap). unfold insert, full.
  assert (forall l1, count l1 = count l ->
            Z.of_nat (length (buffer l1)) = capacity l1 ->
            count l1 < capacity l1 <= SIZE_MAX ->
            take (Z.to_nat (count l)) (buffer l1) = elements l ->
            (let* b := write (buffer l1) (count l1) x in
             Ok (true, set_is_sorted
                         (set_count (set_buffer l1 b) (wrap (count l1 + 1)))
                         false)) = Ok (true, l') ->
            well_formed l' /\ elements l' = elements l ++ [x]
            /\ is_sorted l' = false) as Hwrite.
  { intros l1 Hn1 Hlen1 Hcap1 Hel (b & [_ ->]%write_Ok & [= <-])%bind_Ok.
    rewrite wrap_small by lia. unfold well_formed, elements. simpl.
    rewrite length_insert. repeat split; try lia.
    rewrite Hn1. replace (Z.to_nat (count l + 1)) with (S (Z.to_nat (count l)))
      by lia.
    rewrite (take_S_r _ _ x) by (apply list_lookup_insert_eq; lia).
    rewrite take_insert_ge by lia. by rewrite Hel. }
  destruct (count l >=? capacity l) eqn:Hfull.
  - destruct (resize l (wrap (capacity l * 2))) as [[] l1] eqn:Hr;
      simpl; [| done].
    pose proof Hr as (Hc1 & Hn1 & Hge)%resize_true.
    assert (capacity l * 2 <= SIZE_MAX) as Hno.
    { apply wrap_double_no_overflow; lia. }
    rewrite wrap_small in Hr, Hc1 by lia.
    unfold resize in Hr. destruct (capacity l =? capacity l * 2) eqn:E; [lia |].
    destruct (capacity l * 2 <? count l) eqn:E'; [lia |].
    destruct (realloc (alloc l) (wrap (sizeof V * (capacity l * 2))));
      simpl in Hr; [| done].
    injection Hr as <-. intros Hw.
    assert (sizeof V * (capacity l * 2) <= SIZE_MAX) as Hfit.
    { destruct (decide (sizeof V * (capacity l * 2) <= SIZE_MAX)) as [| Hn];
        [done |].
      exfalso. apply bind_Ok in Hw as (b & [Hb _]%write_Ok & _).
      simpl in Hb. rewrite realloc_block_length in Hb.
      pose proof (slots_wrapped (capacity l)). lia. }
    destruct (slots_exact (capacity l * 2)) as [Hsz Hq]; [lia | done |].
    revert Hw. apply Hwrite; simpl.
    + done.
    + rewrite realloc_block_length, Hq. lia.
    + lia.
    + apply realloc_block_take; [lia | rewrite Hq; lia].
  - simpl. apply Hwrite; (done || lia).
Qed.

Lemma insert_all_appends l xs l' :
  well_formed l -> insert_all l xs = Ok (true, l') ->
  well_formed l' /\ elements l' = elements l ++ xs /\
  (xs <> [] -> is_sorted l' = false).
Proof.
  revert l. induction xs as [| x xs IH]; intros l Hwf; simpl.
  { intros [= <-]. rewrite app_nil_r. done. }
  intros ([[] l1] & Hi & Hrest)%bind_Ok; [| done].
  destruct (insert_appends l x l1 Hwf Hi) as (Hwf1 & Hel1 & Hs1).
  destruct (IH l1 Hwf1 Hrest) as (Hwf' & Hel' & Hs').
  split; [done |]. split; [by rewrite Hel', Hel1, <- app_assoc |].
  intros _. destruct xs as [| y xs]; [| by apply Hs'].
  simpl in Hrest. by injection Hrest as <-.
Qed.

(** What a successful [insert] does to the capacity, the count and the
    allocator. *)
Lemma insert_step l x l' :
  well_formed l -> insert l x = Ok (true, l') ->
  capacity l' = (if full l then capacity l * 2 else capacity l) /\
  count l' = count l + 1 /\ alloc l' = alloc l.
Proof.
  intros (Hlen & Hcnt & Hcap). unfold insert, full.
  destruct (count l >=? capacity l) eqn:Hfull.
  - pose proof (resize_alloc l (wrap (capacity l * 2))) as Ha.
    destruct (resize l (wrap (capacity l * 2))) as [[] l1] eqn:Hr;
      simpl; [| done].
    apply resize_true in Hr as (Hc1 & Hn1 & Hge).
    assert (capacity l * 2 <= SIZE_MAX) as Hno.
    { apply wrap_double_no_overflow; lia. }
    rewrite wrap_small in Hc1 by lia.
    intros (b & _ & [= <-])%bind_Ok. simpl in *.
    rewrite Hn1, wrap_small by lia. done.
  - simpl. intros (b & _ & [= <-])%bind_Ok. simpl.
    rewrite wrap_small by lia. done.
Qed.

(** [insert] succeeds when the list has room, and when it is full, the byte
    count of the doubled block does not wrap around and the allocator grants
    it. *)
Lemma insert_granted l x :
  well_formed l ->
  count l < capacity l \/
  (sizeof V * (capacity l * 2) <= SIZE_MAX /\
   realloc (alloc l) (sizeof V * (capacity l * 2)) = true) ->
  exists l', insert l x = Ok (true, l').
Proof.
  intros (Hlen & Hcnt & Hcap) Hroom. pose proof sizeof_positive as Hs.
  unfold insert, full.
  destruct (count l >=? capacity l) eqn:Hfull.
  - destruct Hroom as [| [Hfit Hgrant]]; [lia |].
    assert (capacity l * 2 <= SIZE_MAX) as Hno by nia.
    destruct (slots_exact (capacity l * 2)) as [Hsz Hq]; [lia | done |].
    unfold resize. rewrite wrap_small by lia.
    destruct (capacity l =? capacity l * 2) eqn:E; [lia |].
    destruct (capacity l * 2 <? count l) eqn:E'; [lia |].
    cbv zeta. rewrite Hsz, Hgrant. cbn [negb]. rewrite <- Hsz, Hq.
    cbn [negb count buffer set_capacity set_buffer].
    rewrite write_in_range by (rewrite realloc_block_length; lia).
    cbn [bind]. by eexists.
  - cbn [negb]. rewrite write_in_range by lia. cbn [bind]. by eexists.
Qed.

(** With an allocator that grants every request, and byte counts that do not
    wrap around, every insert of a sequence succeeds. *)
Lemma insert_all_granted l xs :
  well_formed l -> (forall n, realloc (alloc l) n = true) ->
  sizeof V * ((count l + Z.of_nat (length xs)) * 2) <= SIZE_MAX ->
  exists l', insert_all l xs = Ok (true, l').
Proof.
  pose proof sizeof_positive as Hs.
  revert l. induction xs as [| x xs IH]; intros l Hwf Hgrant Hfit.
  { by eexists. }
  pose proof Hwf as (Hlen & Hcnt & Hcap).
  destruct (insert_granted l x Hwf) as [l1 Hi].
  { destruct (decide (count l < capacity l)) as [| Hfull]; [by left |].
    right. split; [| apply Hgrant]. simpl in Hfit. nia. }
  destruct (insert_appends l x l1 Hwf Hi) as (Hwf1 & _ & _).
  destruct (insert_step l x l1 Hwf Hi) as (_ & Hn1 & Ha1).
  cbn [insert_all]. rewrite Hi. cbn [bind]. apply IH.
  - done.
  - by rewrite Ha1.
  - rewrite Hn1. simpl in Hfit.
    replace (count l + 1 + Z.of_nat (length xs))
      with (count l + Z.of_nat (S (length xs))) by lia. done.
Qed.

(** C6.  Every successful [insert] into a well-formed list doubles the
    capacity first when the list is full and leaves it alone otherwise, adds
    its element after the live elements, at index [count], and clears the
    sorted flag.  After [N] successful inserts into a freshly constructed list
    of capacity [C0], [count] is [N] and [capacity] is the smallest value
    [C0 * 2^k] that is at least [N]; the live elements are the inserted ones,
    in the order of insertion, and the sorted flag is false.  The [N] inserts
    do succeed when the allocator grants every request and the byte count of
    [2 * N] elements fits in a [size_t]. *)
Theorem insert_all_count_capacity C0 ft a cb l0 xs :
  C0 <= SIZE_MAX ->
  new zero dflt C0 ft = Some l0 \/ new_custom zero dflt C0 ft a cb = Some l0 ->
  (forall l x l', well_formed l -> insert l x = Ok (true, l') ->
     capacity l' = (if full l then capacity l * 2 else capacity l) /\
     count l' = count l + 1 /\
     elements l' = elements l ++ [x] /\
     is_sorted l' = false) /\
  (forall l, insert_all l0 xs = Ok (true, l) ->
     count l = Z.of_nat (length xs) /\
     smallest_doubling C0 (Z.of_nat (length xs)) (capacity l) /\
     elements l = xs /\ is_sorted l = false) /\
  ((forall n, realloc (alloc l0) n = true) ->
   sizeof V * (Z.of_nat (length xs) * 2) <= SIZE_MAX ->
   exists l, insert_all l0 xs = Ok (true, l)).
Proof.
  intros Hmax Hnew.
  assert (grown C0 l0 /\ well_formed l0 /\ count l0 = 0 /\ is_sorted l0 = false)
    as (Hg & Hwf & H0 & Hs0).
  { destruct Hnew as [H | H].
    - apply new_Some in H as (? & _ & _ & _ & Hb & Hc & Hn & Hs & _).
      unfold grown, well_formed. rewrite Hb, Hc, Hn, length_replicate.
      repeat split; try (done || lia).
      exists 0%nat. split; [| by left]. simpl. lia.
    - apply new_custom_Some in H as (? & _ & _ & Hb & Hc & Hn & Hs & _).
      unfold grown, well_formed. rewrite Hb, Hc, Hn, length_replicate.
      repeat split; try (done || lia).
      exists 0%nat. split; [| by left]. simpl. lia. }
  split; [| split].
  - intros l x l' Hwfl Hi.
    destruct (insert_step l x l' Hwfl Hi) as (Hc & Hn & _).
    destruct (insert_appends l x l' Hwfl Hi) as (_ & Hel & Hs).
    done.
  - intros l Hins.
    destruct (insert_all_grown C0 l0 xs l Hg Hins) as [Hg' Hn].
    destruct (insert_all_appends l0 xs l Hwf Hins) as (_ & Hel & Hs).
    assert (count l = Z.of_nat (length xs)) as Hcount by lia.
    split; [done |].
    split; [rewrite <- Hcount; by apply grown_smallest_doubling |].
    split.
    + rewrite Hel. unfold elements. rewrite H0. done.
    + destruct xs as [| x xs]; [| by apply Hs].
      simpl in Hins. by injection Hins as <-.
  - intros Hgrant Hfit. apply insert_all_granted; [done.. |].
    by rewrite H0.
Qed.
End GrowthFacts.

(** Witness of C6: five inserts into a list constructed with capacity 2
    succeed and leave five elements in a block of eight slots. *)
Lemma insert_all_count_capacity_witness :
  exists l0 l,
    new 0 IntList.generous 2 (Some IntList.int_ftab) = Some l0 /\
    insert_all l0 [5; 1; 4; 2; 3] = Ok (true, l) /\
    count l = 5 /\ capacity l = 8 /\
    smallest_doubling 2 5 (capacity l) /\
    elements l = [5; 1; 4; 2; 3] /\ is_sorted l = false.
Proof.
  exists (IntList.make [0; 0] 0 false),
         (IntList.make [5; 1; 4; 2; 3; 0; 0; 0] 5 false).
  destruct (insert_all_count_capacity 0 IntList.generous 2
              (Some IntList.int_ftab) None None
              (IntList.make [0; 0] 0 false) [5; 1; 4; 2; 3])
    as (_ & Hafter & _).
  - unfold SIZE_MAX. lia.
  - left. vm_compute. reflexivity.
  - destruct (Hafter (IntList.make [5; 1; 4; 2; 3; 0; 0; 0] 5 false))
      as (Hn & Hc & Hel & Hs).
    { vm_compute. reflexivity. }
    split; [vm_compute; reflexivity |].
    split; [vm_compute; reflexivity |].
    split; [exact Hn |]. split; [reflexivity |].
    split; [exact Hc |]. split; [exact Hel | exact Hs].
Defined.

(** ** Accesses outside the block, on concrete lists *)

(** C7.  The claim says that [remove] at an index below [count] returns true
    and deletes that position.  On a full list the call is undefined instead:
    three inserts fill a list constructed with capacity 3, and [remove] at
    index 1 then moves [count - index] = 2 elements from slot 2 on, reading
    slot 3 of a block of three slots. *)
Theorem remove_full_list_reads_past_block :
  let l0 := IntList.make [0; 0; 0] 0 false in
  let l := IntList.make [1; 2; 3] 3 false in
  new 0 IntList.generous 3 (Some IntList.int_ftab) = Some l0 /\
  insert_all l0 [1; 2; 3] = Ok (true, l) /\
  remove 0 l 1 = Undefined (OutOfBounds 3).
Proof. repeat split; vm_compute; reflexivity. Qed.

(** C4.  The claim says that every access stays inside the buffer.  On the
    full, sorted, well-formed list 1, 2, 3: looking up 9, greater than every
    element, reads slot 3 = [count] (through [indexof] and through
    [contains]); looking up 0 from the end, smaller than every element, reads
    slot [0 - 1] = [SIZE_MAX]; and [remove] at index 0 reads slot 3. *)
Theorem accesses_outside_block :
  let l := IntList.make [1; 2; 3] 3 true in
  well_formed l /\
  indexof l 9 true = Undefined (OutOfBounds 3) /\
  contains l 9 = Undefined (OutOfBounds 3) /\
  indexof l 0 false = Undefined (OutOfBounds SIZE_MAX) /\
  remove 0 l 0 = Undefined (OutOfBounds 3).
Proof.
  repeat split; try (vm_compute; reflexivity); vm_compute; discriminate.
Qed.

(** ** Sorting rearranges *)

Section RearrangeFacts.
Context {V : Type}.
Implicit Types (a : list V) (c : V -> V -> Z).

Lemma rearranged_refl lo hi a : rearranged lo hi a a.
Proof. by split. Qed.

Lemma rearranged_trans lo hi a1 a2 a3 :
  rearranged lo hi a1 a2 -> rearranged lo hi a2 a3 -> rearranged lo hi a1 a3.
Proof.
  intros [Hp1 Ho1] [Hp2 Ho2]. split; [by etrans |].
  intros k Hk. rewrite Ho2, Ho1; done.
Qed.

Lemma rearranged_weaken lo hi lo' hi' a a' :
  lo' <= lo -> hi <= hi' -> rearranged lo hi a a' -> rearranged lo' hi' a a'.
Proof. intros Hlo Hhi [Hp Ho]. split; [done |]. intros k Hk. apply Ho. lia. Qed.

Lemma rearranged_empty lo hi a a' : hi < lo -> rearranged lo hi a a' -> a' = a.
Proof. intros Hlt [_ Ho]. apply list_eq. intros k. apply Ho. lia. Qed.

Lemma rearranged_length lo hi a a' : rearranged lo hi a a' -> length a' = length a.
Proof. intros [Hp _]. by apply Permutation_length. Qed.

Lemma rearranged_swap lo hi a (i j : nat) x y :
  a !! i = Some x -> a !! j = Some y ->
  lo <= Z.of_nat i <= hi -> lo <= Z.of_nat j <= hi ->
  rearranged lo hi a (<[j := x]> (<[i := y]> a)).
Proof.
  intros Hi Hj Hir Hjr. split; [by apply Permutation_insert_swap |].
  intros k Hk. rewrite !list_lookup_insert_ne by lia. done.
Qed.

(** The part of the array below slot [n] is rearranged too, when the
    rearranged slots all lie below [n]. *)
Lemma rearranged_take lo hi a a' (n : nat) :
  rearranged lo hi a a' -> hi < Z.of_nat n -> take n a' ≡ₚ take n a.
Proof.
  intros [Hp Ho] Hn.
  assert (drop n a' = drop n a) as Hd.
  { apply list_eq. intros k. rewrite !lookup_drop. apply Ho. lia. }
  apply (Permutation_app_inv_r (drop n a)).
  rewrite <- Hd at 1. by rewrite !take_drop.
Qed.

(** The shifting loop, put back together with the element it holds out. *)
Lemma impl_sort_insertion_shift_rearranged fuel c a tmp j low a' j' hi :
  impl_sort_insertion_shift fuel c a tmp j low = Ok (a', j') ->
  0 <= low <= j -> j < Z.of_nat (length a) -> j <= hi -> j <= SIZE_MAX ->
  rearranged low hi (<[Z.to_nat j := tmp]> a) (<[Z.to_nat j' := tmp]> a')
  /\ low <= j' <= j /\ length a' = length a.
Proof.
  revert a j. induction fuel as [| fuel IH]; intros a j; [done |].
  cbn [impl_sort_insertion_shift]. intros H Hlow Hlen Hhi Hmax.
  destruct (j >? low) eqn:Hj;
    [| injection H as <- <-; split; [apply rearranged_refl | lia]].
  rewrite wrap_small in H by lia.
  apply bind_Ok in H as (x & [_ Hx]%read_Ok & H).
  destruct (c x tmp >? 0);
    [| injection H as <- <-; split; [apply rearranged_refl | lia]].
  apply bind_Ok in H as (a1 & [_ ->]%write_Ok & H).
  apply IH in H as (Hr & Hj' & Hl); [| lia | rewrite length_insert; lia | lia..].
  rewrite length_insert in Hl. split; [| lia].
  eapply rearranged_trans; [| exact Hr].
  rewrite <- (list_insert_insert_eq a (Z.to_nat j) x tmp).
  apply rearranged_swap; [| | lia..].
  - apply list_lookup_insert_eq. lia.
  - rewrite list_lookup_insert_ne by lia. done.
Qed.

Lemma impl_sort_insertion_from_rearranged fuel c a i low high a' :
  impl_sort_insertion_from fuel c a i low high = Ok a' ->
  0 <= low <= i -> Z.of_nat (length a) <= SIZE_MAX ->
  rearranged low high a a'.
Proof.
  revert a i. induction fuel as [| fuel IH]; intros a i; [done |].
  cbn [impl_sort_insertion_from]. intros H Hlow Hmax.
  destruct (i <=? high) eqn:Hi; [| injection H as <-; apply rearranged_refl].
  apply bind_Ok in H as (tmp & [_ Htmp]%read_Ok & H).
  assert (i < Z.of_nat (length a)) by (apply lookup_lt_Some in Htmp; lia).
  apply bind_Ok in H as ([a1 j] & Hs & H).
  apply bind_Ok in H as (a2 & [_ ->]%write_Ok & H).
  apply (impl_sort_insertion_shift_rearranged _ _ _ _ _ _ _ _ high) in Hs
    as (Hr & Hj & Hl); [| lia..].
  rewrite (list_insert_id a) in Hr by done.
  rewrite wrap_small in H by lia.
  apply IH in H; [| lia | rewrite length_insert; lia].
  by eapply rearranged_trans.
Qed.

Lemma impl_sort_partition_from_rearranged fuel c a pivot i pindex high low a' p' :
  impl_sort_partition_from fuel c a pivot i pindex high = Ok (a', p') ->
  0 <= low <= pindex -> pindex <= i -> i <= high -> high <= SIZE_MAX ->
  rearranged low (high - 1) a a' /\ pindex <= p' <= high - (i - pindex)
  /\ p' - pindex <= high - i.
Proof.
  revert a i pindex. induction fuel as [| fuel IH]; intros a i pindex; [done |].
  cbn [impl_sort_partition_from]. intros H Hlow Hpi Hih Hmax.
  destruct (i <? high) eqn:Hi;
    [| injection H as <- <-; split; [apply rearranged_refl | lia]].
  apply bind_Ok in H as (ai & [_ Hai]%read_Ok & H).
  rewrite (wrap_small (i + 1)) in H by lia.
  destruct (c ai pivot <=? 0).
  - apply bind_Ok in H as (ap & [_ Hap]%read_Ok & H).
    apply bind_Ok in H as (a1 & [_ ->]%write_Ok & H).
    apply bind_Ok in H as (a2 & [_ ->]%write_Ok & H).
    rewrite wrap_small in H by lia.
    apply IH in H as (Hr & Hp'); [| lia..]. split; [| lia].
    eapply rearranged_trans; [| exact Hr].
    apply rearranged_swap; try done; lia.
  - apply IH in H as (Hr & Hp'); [| lia..]. split; [done | lia].
Qed.

(** An insertion sort that completes has read slot [high]. *)
Lemma impl_sort_insertion_from_in_block fuel c a i low high a' :
  impl_sort_insertion_from fuel c a i low high = Ok a' ->
  0 <= low <= i -> i <= high -> Z.of_nat (length a) <= SIZE_MAX ->
  high < Z.of_nat (length a).
Proof.
  revert a i. induction fuel as [| fuel IH]; intros a i; [done |].
  cbn [impl_sort_insertion_from]. intros H Hlow Hi Hmax.
  destruct (i <=? high) eqn:Hih; [| lia].
  apply bind_Ok in H as (tmp & [_ Htmp]%read_Ok & H).
  assert (i < Z.of_nat (length a)) by (apply lookup_lt_Some in Htmp; lia).
  apply bind_Ok in H as ([a1 j] & Hs & H).
  apply bind_Ok in H as (a2 & [_ ->]%write_Ok & H).
  apply (impl_sort_insertion_shift_rearranged _ _ _ _ _ _ _ _ high) in Hs
    as (_ & _ & Hl); [| lia..].
  rewrite wrap_small in H by lia.
  destruct (decide (i = high)) as [-> | Hne]; [done |].
  apply IH in H; [| lia | lia | rewrite length_insert; lia].
  rewrite length_insert in H. lia.
Qed.

(** A quicksort that completes on a range of two slots or more has read
    slot [high]. *)
Lemma impl_sort_quicksort_in_block fuel c a low high a' :
  impl_sort_quicksort fuel c a low high = Ok a' ->
  0 <= low < high -> high <= SIZE_MAX -> Z.of_nat (length a) <= SIZE_MAX ->
  high < Z.of_nat (length a).
Proof.
  destruct fuel as [| fuel]; [done |].
  cbn [impl_sort_quicksort]. intros H Hlow Hhi Hmax.
  destruct (low <? high) eqn:Hlt; [| lia].
  destruct (wrap (high - low) <? 10).
  - unfold impl_sort_insertion in H. rewrite wrap_small in H by lia.
    apply impl_sort_insertion_from_in_block in H; lia.
  - apply bind_Ok in H as (pivot & [_ Hp]%read_Ok & _).
    apply lookup_lt_Some in Hp. lia.
Qed.

(** A quicksort that completes has rearranged the slots [low] to [high]. *)
Lemma impl_sort_quicksort_rearranged fuel c a low high a' :
  impl_sort_quicksort fuel c a low high = Ok a' ->
  0 <= low -> 0 <= high <= SIZE_MAX -> Z.of_nat (length a) <= SIZE_MAX ->
  rearranged low high a a'.
Proof.
  revert a low high a'. induction fuel as [| fuel IH]; intros a low high a'; [done |].
  cbn [impl_sort_quicksort]. intros H Hlow Hhi Hmax.
  destruct (low <? high) eqn:Hlt; [| injection H as <-; apply rearranged_refl].
  destruct (wrap (high - low) <? 10) eqn:Hsmall.
  { unfold impl_sort_insertion in H. rewrite wrap_small in H by lia.
    apply impl_sort_insertion_from_rearranged in H; [done | lia | done]. }
  apply bind_Ok in H as (pivot & [_ Hpivot]%read_Ok & H).
  assert (high < Z.of_nat (length a)) by (apply lookup_lt_Some in Hpivot; lia).
  apply bind_Ok in H as ([a1 pindex] & Hpart & H).
  apply (impl_sort_partition_from_rearranged _ _ _ _ _ _ _ low) in Hpart
    as (Hr1 & Hp & _); [| lia..].
  pose proof (rearranged_length _ _ _ _ Hr1) as Hl1.
  apply bind_Ok in H as (tmp & [_ Htmp]%read_Ok & H).
  apply bind_Ok in H as (ah & [_ Hah]%read_Ok & H).
  apply bind_Ok in H as (a2 & [_ ->]%write_Ok & H).
  apply bind_Ok in H as (a3 & [_ ->]%write_Ok & H).
  assert (rearranged low high a
            (<[Z.to_nat high := tmp]> (<[Z.to_nat pindex := ah]> a1))) as Hr3.
  { eapply rearranged_trans.
    - eapply rearranged_weaken; [| | exact Hr1]; lia.
    - apply rearranged_swap; try done; lia. }
  pose proof (rearranged_length _ _ _ _ Hr3) as Hl3.
  rewrite (wrap_small (pindex - low)), (wrap_small (high - pindex)),
    (wrap_small (pindex + 1)) in H by lia.
  destruct (pindex - low <? high - pindex) eqn:Hside.
  - apply bind_Ok in H as (a4 & H4 & H).
    assert (0 < pindex \/ pindex = 0) as [Hpos | ->] by lia.
    + rewrite wrap_small in H4 by lia.
      apply IH in H4; [| lia..]. pose proof (rearranged_length _ _ _ _ H4).
      apply IH in H; [| lia..].
      eapply rearranged_trans; [exact Hr3 |].
      eapply rearranged_trans; eapply rearranged_weaken; try eassumption; lia.
    + rewrite wrap_minus_one in H4.
      apply impl_sort_quicksort_in_block in H4; unfold SIZE_MAX in *; lia.
  - apply bind_Ok in H as (a4 & H4 & H).
    apply IH in H4; [| lia..]. pose proof (rearranged_length _ _ _ _ H4).
    rewrite wrap_small in H by lia.
    apply IH in H; [| lia..].
    eapply rearranged_trans; [exact Hr3 |].
    eapply rearranged_trans; eapply rearranged_weaken; try eassumption; lia.
Qed.

(** A [sort] that completes leaves the well-formed list well-formed, with
    the same live elements in some order. *)
Lemma sort_rearranges (l l' : sortedlist V) :
  sort l = Ok l' -> well_formed l ->
  well_formed l' /\ elements l' ≡ₚ elements l /\
  count l' = count l /\ capacity l' = capacity l /\ f_val l' = f_val l.
Proof.
  intros Hs (Hlen & Hcnt & Hcap).
  apply sort_Ok in Hs as [[-> _] | (_ & Hn & c & b & _ & Hq & ->)]; [done |].
  rewrite wrap_small in Hq by lia.
  apply impl_sort_quicksort_rearranged in Hq; [| lia..].
  pose proof (rearranged_length _ _ _ _ Hq) as Hl.
  unfold well_formed, elements. simpl. repeat split; try lia.
  eapply rearranged_take; [exact Hq | lia].
Qed.
End RearrangeFacts.

(** ** Fuel *)

Section FuelFacts.
Context {V : Type}.
Implicit Types (l : sortedlist V) (a : list V) (c : V -> V -> Z).

Lemma bind_not_OutOfFuel {A B : Type} (m : result A) (k : A -> result B) :
  m <> OutOfFuel -> (forall x, m = Ok x -> k x <> OutOfFuel) ->
  bind m k <> OutOfFuel.
Proof. destruct m; simpl; [eauto | done..]. Qed.

Lemma impl_sort_insertion_shift_fuel fuel c a tmp j low :
  (Z.to_nat (j - low) < fuel)%nat -> 0 <= low ->
  impl_sort_insertion_shift fuel c a tmp j low <> OutOfFuel.
Proof.
  revert a j. induction fuel as [| fuel IH]; intros a j Hf Hlow; [lia |].
  cbn [impl_sort_insertion_shift]. destruct (j >? low) eqn:Hj; [| done].
  apply bind_not_OutOfFuel; [apply read_not_OutOfFuel |]. intros x _.
  destruct (c x tmp >? 0); [| done].
  apply bind_not_OutOfFuel; [apply write_not_OutOfFuel |]. intros a1 _.
  pose proof (Z.mod_le (j - 1) 18446744073709551616).
  apply IH; unfold wrap; lia.
Qed.

Lemma impl_sort_insertion_from_fuel fuel c a i low high :
  (Z.to_nat (high + 1 - i) < fuel)%nat -> 0 <= low <= i ->
  Z.of_nat (length a) <= SIZE_MAX ->
  impl_sort_insertion_from fuel c a i low high <> OutOfFuel.
Proof.
  revert a i. induction fuel as [| fuel IH]; intros a i Hf Hlow Hmax; [lia |].
  cbn [impl_sort_insertion_from]. destruct (i <=? high) eqn:Hi; [| done].
  apply bind_not_OutOfFuel; [apply read_not_OutOfFuel |].
  intros tmp [_ Htmp]%read_Ok.
  assert (i < Z.of_nat (length a)) by (apply lookup_lt_Some in Htmp; lia).
  apply bind_not_OutOfFuel; [apply impl_sort_insertion_shift_fuel; lia |].
  intros [a1 j] Hs.
  apply (impl_sort_insertion_shift_rearranged _ _ _ _ _ _ _ _ high) in Hs
    as (_ & _ & Hl); [| lia..].
  apply bind_not_OutOfFuel; [apply write_not_OutOfFuel |].
  intros a2 [_ ->]%write_Ok.
  rewrite wrap_small by lia. apply IH; [lia.. |]. rewrite length_insert. lia.
Qed.

Lemma impl_sort_partition_from_fuel fuel c a pivot i pindex high :
  (Z.to_nat (high - i) < fuel)%nat -> 0 <= i -> high <= SIZE_MAX ->
  impl_sort_partition_from fuel c a pivot i pindex high <> OutOfFuel.
Proof.
  revert a i pindex. induction fuel as [| fuel IH];
    intros a i pindex Hf Hi Hmax; [lia |].
  cbn [impl_sort_partition_from]. destruct (i <? high) eqn:Hih; [| done].
  apply bind_not_OutOfFuel; [apply read_not_OutOfFuel |]. intros ai _.
  rewrite (wrap_small (i + 1)) by lia.
  destruct (c ai pivot <=? 0); [| apply IH; lia].
  apply bind_not_OutOfFuel; [apply read_not_OutOfFuel |]. intros ap _.
  apply bind_not_OutOfFuel; [apply write_not_OutOfFuel |]. intros a1 _.
  apply bind_not_OutOfFuel; [apply write_not_OutOfFuel |]. intros a2 _.
  apply IH; lia.
Qed.

(** The fuel a quicksort needs is the number of slots of its range, when the
    range lies inside the block; when it does not, one unit is enough for the
    call to end in an access outside the block. *)
Lemma impl_sort_quicksort_fuel fuel c a low high :
  (1 <= fuel)%nat ->
  (low < high -> high < Z.of_nat (length a) ->
   (Z.to_nat (high - low) < fuel)%nat) ->
  0 <= low -> 0 <= high <= SIZE_MAX -> Z.of_nat (length a) <= SIZE_MAX ->
  impl_sort_quicksort fuel c a low high <> OutOfFuel.
Proof.
  revert a low high. induction fuel as [| fuel IH];
    intros a low high H1 Hf Hlow Hhi Hmax; [lia |].
  cbn [impl_sort_quicksort]. destruct (low <? high) eqn:Hlt; [| done].
  destruct (wrap (high - low) <? 10) eqn:Hsmall.
  { unfold impl_sort_insertion. rewrite wrap_small by lia.
    apply impl_sort_insertion_from_fuel; lia. }
  rewrite wrap_small in Hsmall by lia.
  apply bind_not_OutOfFuel; [apply read_not_OutOfFuel |].
  intros pivot [_ Hpivot]%read_Ok.
  assert (high < Z.of_nat (length a)) by (apply lookup_lt_Some in Hpivot; lia).
  apply bind_not_OutOfFuel; [apply impl_sort_partition_from_fuel; lia |].
  intros [a1 pindex] Hpart.
  apply (impl_sort_partition_from_rearranged _ _ _ _ _ _ _ low) in Hpart
    as (Hr1 & Hp & _); [| lia..].
  pose proof (rearranged_length _ _ _ _ Hr1) as Hl1.
  apply bind_not_OutOfFuel; [apply read_not_OutOfFuel |]. intros tmp _.
  apply bind_not_OutOfFuel; [apply read_not_OutOfFuel |]. intros ah _.
  apply bind_not_OutOfFuel; [apply write_not_OutOfFuel |].
  intros a2 [_ ->]%write_Ok.
  apply bind_not_OutOfFuel; [apply write_not_OutOfFuel |].
  intros a3 [_ ->]%write_Ok.
  assert (Z.of_nat (length (<[Z.to_nat high:=tmp]>
                              (<[Z.to_nat pindex:=ah]> a1))) <= SIZE_MAX)
    as Hl3 by (rewrite !length_insert; lia).
  rewrite (wrap_small (pindex - low)), (wrap_small (high - pindex)),
    (wrap_small (pindex + 1)) by lia.
  pose proof (wrap_range (pindex - 1)) as Hw.
  destruct (pindex - low <? high - pindex) eqn:Hside.
  - apply bind_not_OutOfFuel.
    + apply IH; try lia. intros Hlt' Hin.
      rewrite !length_insert in Hin.
      assert (0 < pindex) as Hpos.
      { destruct (decide (pindex = 0)) as [-> |]; [| lia].
        rewrite wrap_minus_one in Hin. lia. }
      rewrite wrap_small by lia. lia.
    + intros a4 H4. apply IH; try lia.
      apply impl_sort_quicksort_rearranged in H4; [| lia..].
      apply rearranged_length in H4. lia.
  - apply bind_not_OutOfFuel.
    + apply IH; lia.
    + intros a4 H4.
      apply impl_sort_quicksort_rearranged in H4; [| lia..].
      apply rearranged_length in H4.
      apply IH; try lia. intros _ _. rewrite wrap_small by lia. lia.
Qed.

(** [sort] supplies enough fuel: on a well-formed list it either completes or
    runs into an undefined access. *)
Lemma sort_fuel l : well_formed l -> sort l <> OutOfFuel.
Proof.
  intros (Hlen & Hcnt & Hcap). unfold sort.
  destruct (negb (is_sorted l) && (count l >? 1)) eqn:E; [| done].
  apply bind_not_OutOfFuel; [unfold f_val_cmp; by repeat case_match |].
  intros c _. apply bind_not_OutOfFuel; [| done].
  rewrite wrap_small by lia. apply impl_sort_quicksort_fuel; lia.
Qed.
End FuelFacts.

(** ** Sorting puts in order *)

Section OrderFacts.
Context {V : Type}.
Implicit Types (l : sortedlist V) (a : list V) (c : V -> V -> Z)
               (P : V -> Prop).

Lemma range_Forall_outside P lo hi lo' hi' a a' :
  rearranged lo' hi' a a' -> hi < lo' \/ hi' < lo ->
  range_Forall P a lo hi -> range_Forall P a' lo hi.
Proof.
  intros [_ Ho] Hout HP k x Hk Hx. apply (HP k); [done |].
  rewrite <- Ho; [done | lia].
Qed.

Lemma sorted_range_outside c lo hi lo' hi' a a' :
  rearranged lo' hi' a a' -> hi < lo' \/ hi' < lo ->
  sorted_range c a lo hi -> sorted_range c a' lo hi.
Proof.
  intros [_ Ho] Hout Hs i j x y Hi Hij Hj Hx Hy.
  apply (Hs i j); try done; rewrite <- Ho; (done || lia).
Qed.

Lemma sorted_range_weaken c a lo hi lo' hi' :
  lo <= lo' -> hi' <= hi -> sorted_range c a lo hi -> sorted_range c a lo' hi'.
Proof. intros Hlo Hhi Hs i j x y Hi Hij Hj. apply Hs; lia. Qed.

(** Rearranging slots [lo] to [hi] keeps what holds of all their elements. *)
Lemma rearranged_range_Forall P lo hi a a' :
  rearranged lo hi a a' -> 0 <= lo ->
  range_Forall P a lo hi -> range_Forall P a' lo hi.
Proof.
  intros Hr Hlo HP k x Hk Hx.
  set (n := S (Z.to_nat hi)). set (m := Z.to_nat lo).
  pose proof (rearranged_take lo hi a a' n Hr ltac:(lia)) as Hn.
  destruct Hr as [_ Ho].
  assert (take m (take n a') = take m (take n a)) as Hm.
  { rewrite !take_take. apply list_eq. intros i.
    destruct (decide (i < m `min` n)%nat) as [Hi | Hi].
    - rewrite !lookup_take_lt by done. apply Ho. lia.
    - rewrite !lookup_take_ge by lia. done. }
  rewrite <- (take_drop m (take n a')), <- (take_drop m (take n a)), Hm in Hn.
  apply Permutation_app_inv_l in Hn.
  assert (x ∈ drop m (take n a')) as Hin.
  { apply list_elem_of_lookup. exists (k - m)%nat.
    rewrite lookup_drop, lookup_take_lt by lia.
    replace (m + (k - m))%nat with k by lia. done. }
  rewrite Hn in Hin. apply list_elem_of_lookup in Hin as [i Hi].
  rewrite lookup_drop in Hi.
  assert (m + i < n)%nat.
  { destruct (decide (m + i < n)%nat); [done |].
    rewrite lookup_take_ge in Hi by lia. done. }
  rewrite lookup_take_lt in Hi by done.
  apply (HP (m + i)%nat); [lia | done].
Qed.

(** Two ranges in order, around a pivot that is not smaller than the
    elements before it and smaller than those after it, make one range in
    order. *)
Lemma sorted_range_join c a low high p pivot :
  comparator c -> 0 <= p ->
  a !! Z.to_nat p = Some pivot ->
  sorted_range c a low (p - 1) ->
  sorted_range c a (p + 1) high ->
  range_Forall (fun x => c x pivot <= 0) a low (p - 1) ->
  range_Forall (fun x => 0 < c x pivot) a (p + 1) high ->
  sorted_range c a low high.
Proof.
  intros [Htot Htrans] H0 Hp Hl Hr Hle Hgt i j x y Hi Hij Hj Hx Hy.
  assert (c pivot pivot <= 0) as Hrefl.
  { destruct (Z_lt_le_dec 0 (c pivot pivot)) as [Hpos | Hle']; [| done].
    by apply Htot. }
  destruct (decide (Z.of_nat j < p)); [apply (Hl i j); (done || lia) |].
  destruct (decide (p < Z.of_nat i)); [apply (Hr i j); (done || lia) |].
  assert (c x pivot <= 0) as Hxp.
  { destruct (decide (i = Z.to_nat p)) as [-> |].
    - rewrite Hp in Hx. by injection Hx as <-.
    - apply (Hle i); [lia | done]. }
  assert (c pivot y <= 0) as Hpy.
  { destruct (decide (j = Z.to_nat p)) as [-> |].
    - rewrite Hp in Hy. by injection Hy as <-.
    - apply Htot. apply (Hgt j); [lia | done]. }
  by apply (Htrans x pivot y).
Qed.

(** A range in order, read as a list. *)
Lemma sorted_range_StronglySorted c a (n : nat) :
  sorted_range c a 0 (Z.of_nat n - 1) ->
  StronglySorted (not_greater c) (take n a).
Proof.
  revert a. induction n as [| n IH]; intros a Hs.
  { rewrite take_0. constructor. }
  destruct a as [| x a]; [constructor |].
  rewrite firstn_cons. constructor.
  - apply IH. intros i j y z Hi Hij Hj Hy Hz.
    apply (Hs (S i) (S j)); (done || lia).
  - apply Forall_forall. intros y [i Hi]%list_elem_of_lookup.
    assert (i < n)%nat.
    { destruct (decide (i < n)%nat); [done |].
      rewrite lookup_take_ge in Hi by lia. done. }
    rewrite lookup_take_lt in Hi by done.
    apply (Hs 0%nat (S i)); (done || lia).
Qed.

(** Filling the hole when the shifting loop stops. *)
Lemma shifting_fill c a tmp low (j : nat) i :
  comparator c -> shifting c a tmp low (Z.of_nat j) i ->
  (j < length a)%nat ->
  Z.of_nat j = low \/
    (exists x, a !! (j - 1)%nat = Some x /\ c x tmp <= 0 /\ low < Z.of_nat j) ->
  sorted_range c (<[j := tmp]> a) low i.
Proof.
  intros [Htot Htrans] [Hord Hgt] Hlen Hstop p q x y Hp Hpq Hq Hx Hy.
  destruct (decide (p = j)) as [-> | Hpj].
  - rewrite list_lookup_insert_eq in Hx by done. injection Hx as <-.
    rewrite list_lookup_insert_ne in Hy by lia.
    apply Htot. apply (Hgt q); [lia | done].
  - rewrite list_lookup_insert_ne in Hx by done.
    destruct (decide (q = j)) as [-> | Hqj].
    + rewrite list_lookup_insert_eq in Hy by done. injection Hy as <-.
      destruct Hstop as [? | (x' & Hx' & Hc & _)]; [lia |].
      destruct (decide (p = j - 1)%nat) as [-> |].
      * rewrite Hx' in Hx. by injection Hx as <-.
      * apply (Htrans x x' tmp); [| done].
        apply (Hord p (j - 1)%nat); (done || lia).
    + rewrite list_lookup_insert_ne in Hy by done.
      apply (Hord p q); (done || lia).
Qed.

(** One more shift keeps the state of the loop. *)
Lemma shifting_step c a tmp low (j : nat) i x :
  shifting c a tmp low (Z.of_nat j) i -> 0 <= low < Z.of_nat j ->
  a !! (j - 1)%nat = Some x -> 0 < c x tmp ->
  shifting c (<[j := x]> a) tmp low (Z.of_nat j - 1) i.
Proof.
  intros [Hord Hgt] Hj Hx Hc. split.
  - intros p q y z Hp Hpq Hq Hpj Hqj Hy Hz.
    destruct (decide (q = j)) as [-> | Hq'].
    + rewrite list_lookup_insert_ne in Hy by lia.
      apply lookup_lt_Some in Hz as Hlen. rewrite length_insert in Hlen.
      rewrite list_lookup_insert_eq in Hz by done. injection Hz as <-.
      apply (Hord p (j - 1)%nat); (done || lia).
    + rewrite list_lookup_insert_ne in Hz by done.
      destruct (decide (p = j)) as [-> | Hp'].
      * apply lookup_lt_Some in Hy as Hlen. rewrite length_insert in Hlen.
        rewrite list_lookup_insert_eq in Hy by done. injection Hy as <-.
        apply (Hord (j - 1)%nat q); (done || lia).
      * rewrite list_lookup_insert_ne in Hy by done.
        apply (Hord p q); (done || lia).
  - intros q y Hq Hy. destruct (decide (q = j)) as [-> | Hq'].
    + apply lookup_lt_Some in Hy as Hlen. rewrite length_insert in Hlen.
      rewrite list_lookup_insert_eq in Hy by done. by injection Hy as <-.
    + rewrite list_lookup_insert_ne in Hy by done. apply (Hgt q); [lia | done].
Qed.

Lemma impl_sort_insertion_shift_sorted fuel c a tmp j low i a' j' :
  comparator c ->
  impl_sort_insertion_shift fuel c a tmp j low = Ok (a', j') ->
  0 <= low <= j -> j <= i -> j < Z.of_nat (length a) -> j <= SIZE_MAX ->
  shifting c a tmp low j i ->
  sorted_range c (<[Z.to_nat j' := tmp]> a') low i.
Proof.
  intros Hcmp. revert a j. induction fuel as [| fuel IH]; intros a j; [done |].
  cbn [impl_sort_insertion_shift]. intros H Hlow Hi Hlen Hmax Hinv.
  rewrite <- (Z2Nat.id j) in Hinv by lia.
  destruct (j >? low) eqn:Hj.
  - rewrite wrap_small in H by lia.
    apply bind_Ok in H as (x & [_ Hx]%read_Ok & H).
    replace (Z.to_nat (j - 1)) with (Z.to_nat j - 1)%nat in Hx by lia.
    destruct (c x tmp >? 0) eqn:Hc.
    + apply bind_Ok in H as (a1 & [_ ->]%write_Ok & H).
      apply IH in H; [done | lia | lia | rewrite length_insert; lia | lia |].
      replace (j - 1) with (Z.of_nat (Z.to_nat j) - 1) by lia.
      apply shifting_step; (done || lia).
    + injection H as <- <-. apply shifting_fill; try done; [lia |].
      right. exists x. repeat split; (done || lia).
  - injection H as <- <-. apply shifting_fill; try done; [lia |]. left. lia.
Qed.

Lemma impl_sort_insertion_from_sorted fuel c a i low high a' :
  comparator c ->
  impl_sort_insertion_from fuel c a i low high = Ok a' ->
  0 <= low < i -> Z.of_nat (length a) <= SIZE_MAX ->
  sorted_range c a low (i - 1) ->
  sorted_range c a' low high.
Proof.
  intros Hcmp. revert a i. induction fuel as [| fuel IH]; intros a i; [done |].
  cbn [impl_sort_insertion_from]. intros H Hlow Hmax Hs.
  destruct (i <=? high) eqn:Hi.
  2: { injection H as <-. eapply sorted_range_weaken; [| | exact Hs]; lia. }
  apply bind_Ok in H as (tmp & [_ Htmp]%read_Ok & H).
  assert (i < Z.of_nat (length a)) by (apply lookup_lt_Some in Htmp; lia).
  apply bind_Ok in H as ([a1 j] & Hsh & H).
  apply bind_Ok in H as (a2 & [_ ->]%write_Ok & H).
  pose proof Hsh as Hsh'.
  apply (impl_sort_insertion_shift_rearranged _ _ _ _ _ _ _ _ high) in Hsh'
    as (_ & _ & Hl); [| lia..].
  apply (impl_sort_insertion_shift_sorted _ _ _ _ _ _ i) in Hsh;
    [| done | lia.. |].
  - rewrite wrap_small in H by lia.
    apply IH in H; [done | lia | rewrite length_insert; lia |].
    by replace (i + 1 - 1) with i by lia.
  - split.
    + intros p q x y Hp Hpq Hq Hpi Hqi. apply Hs; lia.
    + intros q y Hq. lia.
Qed.

(** The state of the partition loop: the slots before [pindex] hold elements
    not greater than the pivot, those from [pindex] to [i - 1] elements
    greater than it. *)
Lemma impl_sort_partition_from_split fuel c a pivot i pindex high low a' p' :
  impl_sort_partition_from fuel c a pivot i pindex high = Ok (a', p') ->
  0 <= low <= pindex -> pindex <= i -> i <= high -> high <= SIZE_MAX ->
  range_Forall (fun x => c x pivot <= 0) a low (pindex - 1) ->
  range_Forall (fun x => 0 < c x pivot) a pindex (i - 1) ->
  range_Forall (fun x => c x pivot <= 0) a' low (p' - 1) /\
  range_Forall (fun x => 0 < c x pivot) a' p' (high - 1).
Proof.
  revert a i pindex. induction fuel as [| fuel IH]; intros a i pindex; [done |].
  cbn [impl_sort_partition_from]. intros H Hlow Hpi Hih Hmax Hle Hgt.
  destruct (i <? high) eqn:Hi.
  2: { injection H as <- <-. split; [done |].
       intros k x Hk. apply Hgt. lia. }
  apply bind_Ok in H as (ai & [_ Hai]%read_Ok & H).
  rewrite (wrap_small (i + 1)) in H by lia.
  destruct (c ai pivot <=? 0) eqn:Hc.
  - apply bind_Ok in H as (ap & [_ Hap]%read_Ok & H).
    apply bind_Ok in H as (a1 & [_ ->]%write_Ok & H).
    apply bind_Ok in H as (a2 & [_ ->]%write_Ok & H).
    rewrite wrap_small in H by lia.
    apply lookup_lt_Some in Hai as Hleni. apply lookup_lt_Some in Hap as Hlenp.
    apply IH in H; [done | lia.. | |].
    + intros k x Hk Hx. destruct (decide (k = Z.to_nat pindex)) as [-> |].
      * rewrite list_lookup_insert_eq in Hx by (rewrite length_insert; lia).
        injection Hx as <-. lia.
      * rewrite !list_lookup_insert_ne in Hx by lia.
        apply (Hle k); [lia | done].
    + intros k x Hk Hx.
      rewrite list_lookup_insert_ne in Hx by lia.
      destruct (decide (k = Z.to_nat i)) as [-> |].
      * rewrite list_lookup_insert_eq in Hx by lia. injection Hx as <-.
        apply (Hgt (Z.to_nat pindex)); [lia | done].
      * rewrite list_lookup_insert_ne in Hx by lia.
        apply (Hgt k); [lia | done].
  - apply IH in H; [done | lia.. | done |].
    intros k x Hk Hx. destruct (decide (k = Z.to_nat i)) as [-> |].
    + rewrite Hai in Hx. injection Hx as <-. lia.
    + apply (Hgt k); [lia | done].
Qed.

(** A quicksort that completes leaves the slots [low] to [high] in order. *)
Lemma impl_sort_quicksort_sorted fuel c a low high a' :
  comparator c ->
  impl_sort_quicksort fuel c a low high = Ok a' ->
  0 <= low -> 0 <= high <= SIZE_MAX -> Z.of_nat (length a) <= SIZE_MAX ->
  sorted_range c a' low high.
Proof.
  intros Hcmp. revert a low high a'.
  induction fuel as [| fuel IH]; intros a low high a'; [done |].
  cbn [impl_sort_quicksort]. intros H Hlow Hhi Hmax.
  destruct (low <? high) eqn:Hlt.
  2: { injection H as <-. intros i j x y Hi Hij Hj. lia. }
  destruct (wrap (high - low) <? 10) eqn:Hsmall.
  { unfold impl_sort_insertion in H. rewrite wrap_small in H by lia.
    apply impl_sort_insertion_from_sorted in H; [done | done | lia | done |].
    intros i j x y Hi Hij Hj. lia. }
  apply bind_Ok in H as (pivot & [_ Hpivot]%read_Ok & H).
  assert (high < Z.of_nat (length a)) by (apply lookup_lt_Some in Hpivot; lia).
  apply bind_Ok in H as ([a1 pindex] & Hpart & H).
  pose proof Hpart as Hsplit.
  apply (impl_sort_partition_from_rearranged _ _ _ _ _ _ _ low) in Hpart
    as (Hr1 & Hp & _); [| lia..].
  apply (impl_sort_partition_from_split _ _ _ _ _ _ _ low) in Hsplit
    as (Hle1 & Hgt1); [| lia.. | intros k x Hk; lia | intros k x Hk; lia].
  pose proof (rearranged_length _ _ _ _ Hr1) as Hl1.
  assert (a1 !! Z.to_nat high = Some pivot) as Hpivot1.
  { destruct Hr1 as [_ Ho]. rewrite Ho; [done | lia]. }
  apply bind_Ok in H as (tmp & [_ Htmp]%read_Ok & H).
  apply bind_Ok in H as (ah & [_ Hah]%read_Ok & H).
  rewrite Hpivot1 in Hah. injection Hah as <-.
  apply bind_Ok in H as (a2 & [_ ->]%write_Ok & H).
  apply bind_Ok in H as (a3 & [_ ->]%write_Ok & H).
  set (a3 := <[Z.to_nat high := tmp]> (<[Z.to_nat pindex := pivot]> a1)) in *.
  assert (rearranged low high a a3) as Hr3.
  { eapply rearranged_trans.
    - eapply rearranged_weaken; [| | exact Hr1]; lia.
    - apply rearranged_swap; try done; lia. }
  pose proof (rearranged_length _ _ _ _ Hr3) as Hl3.
  assert (a3 !! Z.to_nat pindex = Some pivot) as Hp3.
  { unfold a3. destruct (decide (pindex = high)) as [-> |].
    - rewrite list_lookup_insert_eq by (rewrite length_insert; lia).
      congruence.
    - rewrite list_lookup_insert_ne by lia.
      apply list_lookup_insert_eq. lia. }
  assert (range_Forall (fun x => c x pivot <= 0) a3 low (pindex - 1)) as Hle3.
  { intros k x Hk Hx. unfold a3 in Hx.
    rewrite !list_lookup_insert_ne in Hx by lia. apply (Hle1 k); [lia | done]. }
  assert (range_Forall (fun x => 0 < c x pivot) a3 (pindex + 1) high) as Hgt3.
  { intros k x Hk Hx. unfold a3 in Hx.
    destruct (decide (k = Z.to_nat high)) as [-> |].
    - rewrite list_lookup_insert_eq in Hx by (rewrite length_insert; lia).
      injection Hx as <-. apply (Hgt1 (Z.to_nat pindex)); [lia | done].
    - rewrite !list_lookup_insert_ne in Hx by lia.
      apply (Hgt1 k); [lia | done]. }
  clearbody a3.
  rewrite (wrap_small (pindex - low)), (wrap_small (high - pindex)),
    (wrap_small (pindex + 1)) in H by lia.
  destruct (pindex - low <? high - pindex) eqn:Hside.
  - apply bind_Ok in H as (a4 & H4 & H).
    assert (0 < pindex) as Hpos.
    { destruct (decide (pindex = 0)) as [-> |]; [| lia].
      rewrite wrap_minus_one in H4.
      apply impl_sort_quicksort_in_block in H4; unfold SIZE_MAX in *; lia. }
    rewrite wrap_small in H4 by lia.
    pose proof (impl_sort_quicksort_rearranged _ _ _ _ _ _ H4
                  ltac:(lia) ltac:(lia) ltac:(lia)) as R4.
    apply IH in H4 as S4; [| lia..].
    pose proof (rearranged_length _ _ _ _ R4) as Hl4.
    pose proof (impl_sort_quicksort_rearranged _ _ _ _ _ _ H
                  ltac:(lia) ltac:(lia) ltac:(lia)) as R'.
    apply IH in H as S'; [| lia..].
    apply (sorted_range_join c a' low high pindex pivot); try done; [lia | | | |].
    + destruct R' as [_ Ho']. destruct R4 as [_ Ho4].
      rewrite Ho', Ho4; (done || lia).
    + eapply sorted_range_outside; [exact R' | lia | done].
    + eapply range_Forall_outside; [exact R' | lia |].
      eapply rearranged_range_Forall; [exact R4 | lia | done].
    + eapply rearranged_range_Forall; [exact R' | lia |].
      eapply range_Forall_outside; [exact R4 | lia | done].
  - apply bind_Ok in H as (a4 & H4 & H).
    pose proof (impl_sort_quicksort_rearranged _ _ _ _ _ _ H4
                  ltac:(lia) ltac:(lia) ltac:(lia)) as R4.
    apply IH in H4 as S4; [| lia..].
    pose proof (rearranged_length _ _ _ _ R4) as Hl4.
    rewrite wrap_small in H by lia.
    pose proof (impl_sort_quicksort_rearranged _ _ _ _ _ _ H
                  ltac:(lia) ltac:(lia) ltac:(lia)) as R'.
    apply IH in H as S'; [| lia..].
    apply (sorted_range_join c a' low high pindex pivot); try done; [lia | | | |].
    + destruct R' as [_ Ho']. destruct R4 as [_ Ho4].
      rewrite Ho', Ho4; (done || lia).
    + eapply sorted_range_outside; [exact R' | lia | done].
    + eapply rearranged_range_Forall; [exact R' | lia |].
      eapply range_Forall_outside; [exact R4 | lia | done].
    + eapply range_Forall_outside; [exact R' | lia |].
      eapply rearranged_range_Forall; [exact R4 | lia | done].
Qed.

(** A [sort] that has work to do and completes leaves the live elements in
    non-decreasing order, the same elements as before, and sets the sorted
    flag. *)
Lemma sort_sorts l l' c :
  comparator c -> well_formed l -> f_val_cmp l = Ok c ->
  is_sorted l = false -> 1 < count l -> sort l = Ok l' ->
  StronglySorted (not_greater c) (elements l') /\
  elements l' ≡ₚ elements l /\
  is_sorted l' = true /\ count l' = count l /\ capacity l' = capacity l.
Proof.
  intros Hcmp Hwf Hc Hs Hn Hsort.
  destruct (sort_rearranges l l' Hsort Hwf) as (_ & Hperm & Hcnt & Hcap & _).
  destruct Hwf as (Hlen & Hcount & Hcapr).
  apply sort_Ok in Hsort as [[_ [? | ?]] | (_ & _ & c' & b & Hc' & Hq & ->)];
    [congruence | lia |].
  rewrite Hc in Hc'. injection Hc' as <-.
  rewrite wrap_small in Hq by lia.
  apply impl_sort_quicksort_sorted in Hq; [| done | lia..].
  repeat split; try done. unfold elements. simpl.
  apply sorted_range_StronglySorted.
  eapply sorted_range_weaken; [| | exact Hq]; lia.
Qed.

(** The comparison of integers is a comparator. *)
Lemma int_cmp_comparator : comparator IntList.int_cmp.
Proof.
  split; unfold IntList.int_cmp.
  - intros x y. destruct (x <? y) eqn:E1, (x >? y) eqn:E2,
      (y <? x) eqn:E3, (y >? x) eqn:E4; lia.
  - intros x y z. destruct (x <? y) eqn:E1, (x >? y) eqn:E2,
      (y <? z) eqn:E3, (y >? z) eqn:E4, (x <? z) eqn:E5, (x >? z) eqn:E6; lia.
Qed.

(** Inside the block, the insertion sort makes no undefined access. *)
Lemma impl_sort_insertion_shift_defined fuel c a tmp j low :
  (Z.to_nat (j - low) < fuel)%nat -> 0 <= low <= j ->
  j < Z.of_nat (length a) -> j <= SIZE_MAX ->
  exists a' j', impl_sort_insertion_shift fuel c a tmp j low = Ok (a', j').
Proof.
  revert a j. induction fuel as [| fuel IH]; intros a j Hf Hlow Hlen Hmax; [lia |].
  cbn [impl_sort_insertion_shift]. destruct (j >? low) eqn:Hj; [| eauto].
  rewrite wrap_small by lia.
  destruct (read_in_range a (j - 1)) as [x ->]; [lia |]. cbn [bind].
  destruct (c x tmp >? 0); [| eauto].
  rewrite write_in_range by lia. cbn [bind].
  apply IH; [lia | lia | rewrite length_insert; lia | lia].
Qed.

Lemma impl_sort_insertion_from_defined fuel c a i low high :
  (Z.to_nat (high + 1 - i) < fuel)%nat -> 0 <= low <= i ->
  high < Z.of_nat (length a) -> Z.of_nat (length a) <= SIZE_MAX ->
  exists a', impl_sort_insertion_from fuel c a i low high = Ok a'.
Proof.
  revert a i. induction fuel as [| fuel IH]; intros a i Hf Hlow Hlen Hmax; [lia |].
  cbn [impl_sort_insertion_from]. destruct (i <=? high) eqn:Hi; [| eauto].
  destruct (read_in_range a i) as [tmp ->]; [lia |]. cbn [bind].
  destruct (impl_sort_insertion_shift_defined (S (Z.to_nat (i - low))) c a tmp
              i low) as (a1 & j & Hs); [lia.. |].
  rewrite Hs. cbn [bind].
  apply (impl_sort_insertion_shift_rearranged _ _ _ _ _ _ _ _ high) in Hs
    as (_ & Hj & Hl); [| lia..].
  rewrite write_in_range by lia. cbn [bind].
  rewrite wrap_small by lia.
  apply IH; [lia | lia | rewrite length_insert; lia..].
Qed.

(** X24.  Up to ten elements the quicksort hands the whole range to the
    insertion sort, and [sort] is defined and correct. *)
Lemma sort_up_to_ten_elements l c :
  comparator c -> well_formed l -> f_val_cmp l = Ok c ->
  is_sorted l = false -> 1 < count l <= 10 ->
  exists l', sort l = Ok l' /\
    StronglySorted (not_greater c) (elements l') /\
    elements l' ≡ₚ elements l /\
    is_sorted l' = true /\ count l' = count l /\ capacity l' = capacity l.
Proof.
  intros Hcmp Hwf Hc Hs Hn.
  assert (exists l', sort l = Ok l') as [l' Hsort].
  { destruct Hwf as (Hlen & Hcnt & Hcap). unfold sort. rewrite Hs, Hc.
    destruct (count l >? 1) eqn:E; [| lia]. cbn [negb andb bind].
    rewrite wrap_small by lia. cbn [impl_sort_quicksort].
    destruct (0 <? count l - 1) eqn:E0; [| lia].
    rewrite wrap_small by lia.
    destruct (count l - 1 - 0 <? 10) eqn:E10; [| lia].
    unfold impl_sort_insertion.
    destruct (impl_sort_insertion_from_defined
                (S (Z.to_nat (count l - 1 - 0))) c (buffer l) (wrap (0 + 1)) 0
                (count l - 1)) as [b ->]; [| | lia.. | by eauto].
    - change (wrap (0 + 1)) with 1. lia.
    - change (wrap (0 + 1)) with 1. lia. }
  exists l'. split; [done |]. apply (sort_sorts l l' c); (done || lia).
Qed.
End OrderFacts.

(** ** The sort on a list whose last element is its minimum *)

Section SortUnderflow.
Context {V : Type}.
Implicit Types (l : sortedlist V) (a : list V) (c : V -> V -> Z).

(** When every element from [i] on is greater than the pivot, the partition
    loop swaps nothing and leaves [pindex] where it was. *)
Lemma impl_sort_partition_from_all_greater fuel c a pivot i pindex high :
  (Z.to_nat (high - i) < fuel)%nat -> 0 <= i ->
  high <= Z.of_nat (length a) -> high <= SIZE_MAX ->
  (forall (k : nat) x, i <= Z.of_nat k < high -> a !! k = Some x ->
                       0 < c x pivot) ->
  impl_sort_partition_from fuel c a pivot i pindex high = Ok (a, pindex).
Proof.
  revert i. induction fuel as [| fuel IH]; intros i Hf Hi Hlen Hmax Hgt; [lia |].
  cbn [impl_sort_partition_from]. destruct (i <? high) eqn:E; [| done].
  destruct (read_in_range a i) as [x Hx]; [lia |]. rewrite Hx. cbn [bind].
  apply read_Ok in Hx as [_ Hx]. apply Hgt in Hx; [| lia].
  destruct (c x pivot <=? 0) eqn:Ec; [lia |].
  rewrite wrap_small by lia. apply IH; try lia.
  intros k y Hk. apply Hgt. lia.
Qed.

(** X25.  With more than ten elements, of which the last is smaller than
    all the others, the partition ends with [pindex = low = 0], and the
    recursive call on the range 0 to [pindex - 1] gets [SIZE_MAX] as its
    upper bound. *)
Lemma sort_minimum_last_out_of_bounds l c pivot :
  well_formed l -> is_sorted l = false -> 11 <= count l ->
  f_val_cmp l = Ok c ->
  buffer l !! Z.to_nat (count l - 1) = Some pivot ->
  (forall (k : nat) x, Z.of_nat k < count l - 1 -> buffer l !! k = Some x ->
                       0 < c x pivot) ->
  sort l = Undefined (OutOfBounds SIZE_MAX).
Proof.
  intros (Hlen & Hcnt & Hcap) Hs Hn Hc Hpivot Hgt. unfold sort.
  rewrite Hs. destruct (count l >? 1) eqn:E; [| lia]. cbn [negb andb].
  rewrite Hc. cbn [bind]. rewrite wrap_small by lia.
  set (high := count l - 1).
  assert (impl_sort_quicksort (S (Z.to_nat (count l))) c (buffer l) 0 high
          = Undefined (OutOfBounds SIZE_MAX)) as ->; [| done].
  cbn [impl_sort_quicksort]. destruct (0 <? high) eqn:E0; [| lia].
  rewrite Z.sub_0_r, (wrap_small high) by lia.
  destruct (high <? 10) eqn:E10; [lia |].
  assert (read (buffer l) high = Ok pivot) as ->.
  { apply read_Ok. split; [lia | done]. }
  cbn [bind].
  rewrite impl_sort_partition_from_all_greater; try lia.
  2: { intros k x Hk. apply Hgt. lia. }
  cbn [bind].
  destruct (read_in_range (buffer l) 0) as [x0 Hx0]; [lia |].
  rewrite Hx0. cbn [bind].
  assert (read (buffer l) high = Ok pivot) as ->.
  { apply read_Ok. split; [lia | done]. }
  cbn [bind]. rewrite write_in_range by lia. cbn [bind].
  rewrite write_in_range by (rewrite length_insert; lia). cbn [bind].
  rewrite (Z.sub_0_r high), (wrap_small high) by lia.
  change (wrap (0 - 0)) with 0. rewrite E0, wrap_minus_one.
  destruct (Z.to_nat (count l)) as [| fuel] eqn:Ef; [lia |].
  cbn [impl_sort_quicksort]. change (0 <? SIZE_MAX) with true.
  change (wrap (SIZE_MAX - 0) <? 10) with false. cbn match.
  rewrite read_out_of_range; [done |].
  rewrite !length_insert. lia.
Qed.
End SortUnderflow.

(** C2.  The claim says that [sort] leaves the elements in non-decreasing
    order.  Eleven inserts fill a list constructed with capacity 11 with
    10, 9, ..., 1, 0; the pivot, 0, is smaller than every other element, the
    partition ends with [pindex = 0], and the quicksort calls itself on the
    range 0 to [pindex - 1], which is [SIZE_MAX] in [size_t]: the call reads
    slot [SIZE_MAX] of the buffer. *)
Theorem sort_minimum_last_is_undefined :
  let l0 := IntList.make (replicate 11 0) 0 false in
  let l := IntList.make [10; 9; 8; 7; 6; 5; 4; 3; 2; 1; 0] 11 false in
  new 0 IntList.generous 11 (Some IntList.int_ftab) = Some l0 /\
  insert_all l0 [10; 9; 8; 7; 6; 5; 4; 3; 2; 1; 0] = Ok (true, l) /\
  well_formed l /\
  sort l = Undefined (OutOfBounds SIZE_MAX).
Proof.
  repeat split; try (vm_compute; reflexivity); vm_compute; discriminate.
Qed.

(** ** Looking up an absent value *)

Section IndexofFacts.
Context {V : Type}.
Implicit Types (l : sortedlist V) (c : V -> V -> Z).

End IndexofFacts.



(** ** The functions on concrete lists *)

(** Twenty-four elements: the partition path of the quicksort. *)
Example sort_24 :
  sort (IntList.make [3; 1; 2; 9; 4; 8; 1; 7; 0; 12; 5; 6; 1; 30; 2; 4; 6; 5;
                      7; 8; 9; 20; 11; 15] 24 false)
  = Ok (IntList.make [0; 1; 1; 1; 2; 2; 3; 4; 4; 5; 5; 6; 6; 7; 7; 8; 8; 9; 9;
                      11; 12; 15; 20; 30] 24 true).
Proof. vm_compute. reflexivity. Qed.

(** An element present twice: the first and the last of its indices. *)
Example indexof_present :
  let l := IntList.make [1; 3; 3; 5; 0] 4 true in
  indexof l 3 true = Ok (1, l) /\ indexof l 3 false = Ok (2, l).
Proof. split; vm_compute; reflexivity. Qed.

Example min_max_5 :
  let l := IntList.make [5; 1; 4; 2; 3] 5 false in
  let sorted := IntList.make [1; 2; 3; 4; 5] 5 true in
  min l = Ok (Some 1, sorted) /\ max l = Ok (Some 5, sorted).
Proof. split; vm_compute; reflexivity. Qed.

(** [remove] in a list that is not full. *)
Example remove_middle :
  remove 0 (IntList.make [5; 6; 7; 0] 3 true) 1
  = Ok (true, IntList.make [5; 7; 0; 0] 2 true).
Proof. vm_compute. reflexivity. Qed.

(** A walk from the first element to the last: the step after the last
    element returns false and leaves the cursor on it. *)
Example iter_walk :
  let target := IntList.make [1; 2; 3] 3 true in
  let i0 := {| cursor := 0; start := true; end_ := false |} in
  let i1 := {| cursor := 1; start := false; end_ := false |} in
  let i2 := {| cursor := 2; start := false; end_ := false |} in
  iter_init target = Ok (target, i0) /\
  iter_next target i0 = (true, i1) /\
  iter_next target i1 = (true, i2) /\
  iter_next target i2 = (false, {| cursor := 2; start := false; end_ := true |}).
Proof. repeat split; vm_compute; reflexivity. Qed.

(** * Further properties *)

(** ** Order *)

Section OrderedFacts.
Context {V : Type}.
Implicit Types (l : sortedlist V) (a : list V) (c : V -> V -> Z).

Lemma three_way_comparator c : three_way c -> comparator c.
Proof.
  intros [Hsym Htrans]. split; [| done].
  intros x y Hxy. specialize (Hsym x y). lia.
Qed.

Lemma three_way_refl c x : three_way c -> c x x = 0.
Proof. intros [Hsym _]. specialize (Hsym x x). lia. Qed.

(** An element not greater than one that is smaller than [v] is smaller than
    [v]. *)
Lemma three_way_le_lt c x y v :
  three_way c -> c x y <= 0 -> c y v < 0 -> c x v < 0.
Proof.
  intros [Hsym Htrans] Hxy Hyv.
  destruct (Z_lt_le_dec (c x v) 0) as [| Hxv]; [done | exfalso].
  assert (c v x <= 0) as Hvx by (specialize (Hsym x v); lia).
  pose proof (Htrans v x y Hvx Hxy) as Hvy.
  specialize (Hsym y v). lia.
Qed.

Lemma StronglySorted_lookup (R : V -> V -> Prop) a (i j : nat) x y :
  StronglySorted R a -> (i < j)%nat -> a !! i = Some x -> a !! j = Some y ->
  R x y.
Proof.
  intros Hs. revert i j. induction Hs as [| z a Hs IH Hall]; intros i j Hij Hi Hj.
  { by rewrite lookup_nil in Hi. }
  destruct j as [| j]; [lia |]. destruct i as [| i].
  - injection Hi as <-. rewrite Forall_forall in Hall. apply Hall.
    apply list_elem_of_lookup. by exists j.
  - apply (IH i j); (done || lia).
Qed.

Lemma StronglySorted_sublist (R : V -> V -> Prop) a a' :
  a' `sublist_of` a -> StronglySorted R a -> StronglySorted R a'.
Proof.
  induction 1 as [| x a1 a2 Hsub IH | x a1 a2 Hsub IH]; intros Hs.
  - constructor.
  - apply StronglySorted_inv in Hs as [Hs Hall]. constructor; [by apply IH |].
    rewrite Forall_forall in *. intros y Hy. apply Hall.
    by eapply elem_of_sublist.
  - apply StronglySorted_inv in Hs as [Hs _]. by apply IH.
Qed.

Lemma StronglySorted_sorted_range c a (n : nat) :
  StronglySorted (not_greater c) (take n a) ->
  sorted_range c a 0 (Z.of_nat n - 1).
Proof.
  intros Hs i j x y Hi Hij Hj Hx Hy.
  apply (StronglySorted_lookup _ _ i j x y Hs); [done | |];
    rewrite lookup_take_lt by lia; done.
Qed.

(** A [sort] that completes establishes the order of the live elements,
    whatever the sorted flag was, when the flag told the truth. *)
Lemma sort_ordered l l' c :
  comparator c -> well_formed l -> f_val_cmp l = Ok c -> ordered c l ->
  sort l = Ok l' ->
  StronglySorted (not_greater c) (elements l') /\
  elements l' ≡ₚ elements l /\ well_formed l' /\
  count l' = count l /\ capacity l' = capacity l /\ f_val l' = f_val l /\
  (is_sorted l' = true \/ l' = l).
Proof.
  intros Hcmp Hwf Hc Hord Hsort.
  destruct (sort_rearranges l l' Hsort Hwf) as (Hwf' & Hperm & Hcnt & Hcap & Hf).
  split; [| do 5 (split; [done |])].
  - destruct (is_sorted l) eqn:Hs.
    + rewrite sort_noop in Hsort by auto. injection Hsort as <-. by apply Hord.
    + destruct (decide (1 < count l)) as [Hn | Hn].
      * by apply (sort_sorts l l' c).
      * rewrite sort_noop in Hsort by (right; lia). injection Hsort as <-.
        unfold elements.
        destruct (take (Z.to_nat (count l)) (buffer l)) as [| x [| y k]] eqn:E.
        -- constructor.
        -- repeat constructor.
        -- apply (f_equal length) in E. rewrite length_take in E.
           simpl in E. lia.
  - apply sort_Ok in Hsort as [[-> _] | (_ & _ & ? & ? & _ & _ & ->)];
      [by right | by left].
Qed.

(** X1.  A [sort] that completes leaves the live elements in non-decreasing
    order, the same elements as before, in a well-formed list on which the
    sorted flag tells the truth; the count and the capacity are unchanged. *)
Theorem sort_establishes_order l l' c :
  comparator c -> well_formed l -> f_val_cmp l = Ok c -> ordered c l ->
  sort l = Ok l' ->
  StronglySorted (not_greater c) (elements l') /\
  elements l' ≡ₚ elements l /\
  well_formed l' /\ ordered c l' /\
  count l' = count l /\ capacity l' = capacity l.
Proof.
  intros Hcmp Hwf Hc Hord Hsort.
  destruct (sort_ordered l l' c Hcmp Hwf Hc Hord Hsort)
    as (Hs & Hp & Hwf' & Hn & Hcap & _).
  split; [done |]. split; [done |]. split; [done |].
  split; [by intros _ | done].
Qed.

(** X2.  Sorting twice is sorting once: on the result of a [sort] that
    completes, [sort] changes nothing. *)
Theorem sort_idempotent l l' : sort l = Ok l' -> sort l' = Ok l'.
Proof.
  intros [[-> [Hs | Hn]] | (_ & _ & c & b & _ & _ & ->)]%sort_Ok;
    apply sort_noop; auto.
Qed.
End OrderedFacts.

(** Witness of X1. *)
Lemma sort_establishes_order_witness :
  let l := IntList.make [3; 1; 2; 0] 3 false in
  let l' := IntList.make [1; 2; 3; 0] 3 true in
  StronglySorted (not_greater IntList.int_cmp) (elements l') /\
  elements l' ≡ₚ elements l /\
  well_formed l' /\ ordered IntList.int_cmp l' /\
  count l' = count l /\ capacity l' = capacity l.
Proof.
  apply (sort_establishes_order (IntList.make [3; 1; 2; 0] 3 false)
           (IntList.make [1; 2; 3; 0] 3 true) IntList.int_cmp).
  - apply int_cmp_comparator.
  - vm_compute. repeat split; discriminate.
  - reflexivity.
  - intros H. vm_compute in H. discriminate.
  - vm_compute. reflexivity.
Defined.

(** Witness of X2. *)
Lemma sort_idempotent_witness :
  sort (IntList.make [1; 2; 3; 0] 3 true)
  = Ok (IntList.make [1; 2; 3; 0] 3 true).
Proof.
  apply (sort_idempotent (IntList.make [3; 1; 2; 0] 3 false)).
  vm_compute. reflexivity.
Defined.

(** Witness of X24. *)
Lemma sort_up_to_ten_elements_witness :
  let l := IntList.make [3; 1; 2; 0] 3 false in
  exists l', sort l = Ok l' /\
    StronglySorted (not_greater IntList.int_cmp) (elements l') /\
    elements l' ≡ₚ elements l /\
    is_sorted l' = true /\ count l' = count l /\ capacity l' = capacity l.
Proof.
  apply (sort_up_to_ten_elements (IntList.make [3; 1; 2; 0] 3 false)
           IntList.int_cmp).
  - apply int_cmp_comparator.
  - vm_compute. repeat split; discriminate.
  - reflexivity.
  - reflexivity.
  - simpl. lia.
Defined.

(** Witness of X25. *)
Lemma sort_minimum_last_out_of_bounds_witness :
  sort (IntList.make [10; 9; 8; 7; 6; 5; 4; 3; 2; 1; 0] 11 false)
  = Undefined (OutOfBounds SIZE_MAX).
Proof.
  apply (sort_minimum_last_out_of_bounds
           (IntList.make [10; 9; 8; 7; 6; 5; 4; 3; 2; 1; 0] 11 false)
           IntList.int_cmp 0).
  - vm_compute. repeat split; discriminate.
  - reflexivity.
  - simpl. lia.
  - reflexivity.
  - reflexivity.
  - intros k x Hk Hx. simpl in Hk.
    do 10 (destruct k as [| k]; [injection Hx as <-; vm_compute; reflexivity |]).
    lia.
Defined.

(** ** Capacity *)

Section CapacityFacts.
Context {V : Type} `{!SizeOf V}.
Implicit Types (l : sortedlist V).

Lemma wrap_double_overflow (c : Z) :
  0 <= c <= SIZE_MAX -> SIZE_MAX < c * 2 ->
  wrap (c * 2) = c * 2 - 18446744073709551616.
Proof.
  unfold wrap, SIZE_MAX. intros Hc Ho. symmetry.
  apply (Z.mod_unique (c * 2) 18446744073709551616 1); lia.
Qed.

Lemma elements_length l : well_formed l -> Z.of_nat (length (elements l)) = count l.
Proof. intros (Hlen & Hcnt & _). unfold elements. rewrite length_take. lia. Qed.

(** X3.  For a requested capacity whose byte count does not wrap around:
    [resize] to the capacity the list has returns true and changes nothing;
    to a capacity below [count] it returns false and changes nothing; when
    the allocator grants the request it returns true, gives the block
    exactly the requested number of slots, and keeps the count, the live
    elements and the sorted flag; when the allocator refuses it returns
    false and the fields are as they were, but a refused request for no byte
    may have freed the block. *)
Theorem resize_spec l c :
  well_formed l -> 0 <= c -> sizeof V * c <= SIZE_MAX ->
  if capacity l =? c then resize l c = (true, l)
  else if c <? count l then resize l c = (false, l)
  else if realloc (alloc l) (sizeof V * c)
  then exists l', resize l c = (true, l') /\
         capacity l' = c /\ Z.of_nat (length (buffer l')) = c /\
         count l' = count l /\ elements l' = elements l /\
         is_sorted l' = is_sorted l
  else resize l c
       = (false, if (c =? 0) && realloc_frees (alloc l)
                 then set_buffer l [] else l).
Proof.
  intros (Hlen & Hcnt & Hcap) Hc Hfit. unfold resize.
  pose proof (sizeof_positive (V := V)) as Hs.
  destruct (slots_exact c Hc Hfit) as [Hsz Hq].
  destruct (capacity l =? c) eqn:Hsame; [done |].
  destruct (c <? count l) eqn:Hlt; [done |]. cbv zeta.
  rewrite Hq, Hsz.
  destruct (realloc (alloc l) (sizeof V * c)); cbn [negb].
  - eexists. split; [done |]. unfold elements. simpl.
    rewrite realloc_block_length, realloc_block_take by lia.
    repeat split; lia.
  - destruct (sizeof V * c =? 0) eqn:E0, (c =? 0) eqn:E1; (done || nia).
Qed.

(** X4.  On a well-formed list [insert] succeeds exactly when there is
    room, or the byte count of the doubled block fits in [size_t] and the
    allocator grants it; it then appends the element, clears the sorted flag
    and leaves the list well-formed.  When the doubled capacity does not fit
    in [size_t], or the allocator refuses a byte count that fits, it returns
    false and the list is as it was.  When the capacity fits and the byte
    count wraps around, the allocator is asked for the wrapped count: if it
    grants it, the block has no slot at index [count] and the write falls
    outside it; if it refuses, [insert] returns false. *)
Theorem insert_outcome l x :
  well_formed l ->
  if (count l <? capacity l)
     || ((sizeof V * (capacity l * 2) <=? SIZE_MAX)
         && realloc (alloc l) (sizeof V * (capacity l * 2)))
  then exists l', insert l x = Ok (true, l') /\ well_formed l' /\
         elements l' = elements l ++ [x] /\ is_sorted l' = false /\
         count l' = count l + 1
  else if (SIZE_MAX <? capacity l * 2)
          || (sizeof V * (capacity l * 2) <=? SIZE_MAX)
  then insert l x = Ok (false, l)
  else if realloc (alloc l) (wrap (sizeof V * (capacity l * 2)))
  then insert l x = Undefined (OutOfBounds (count l))
  else insert l x
       = Ok (false,
             if (wrap (sizeof V * (capacity l * 2)) =? 0)
                && realloc_frees (alloc l)
             then set_buffer l [] else l).
Proof.
  intros Hwf. pose proof Hwf as (Hlen & Hcnt & Hcap).
  pose proof (sizeof_positive (V := V)) as Hs.
  assert (forall l', insert l x = Ok (true, l') ->
            exists l', insert l x = Ok (true, l') /\ well_formed l' /\
              elements l' = elements l ++ [x] /\ is_sorted l' = false /\
              count l' = count l + 1) as Hok.
  { intros l' Hi. exists l'. split; [done |].
    destruct (insert_appends l x l' Hwf Hi) as (Hwf' & Hel & Hs').
    repeat split; try done; try apply Hwf'.
    rewrite <- (elements_length l'), <- (elements_length l), Hel by done.
    rewrite length_app. simpl. lia. }
  destruct (count l <? capacity l) eqn:Hroom; cbn [orb].
  { destruct (insert_granted l x Hwf) as [l' Hi]; [left; lia |].
    by apply (Hok l'). }
  assert ((count l >=? capacity l) = true) as Hfull by lia.
  destruct (sizeof V * (capacity l * 2) <=? SIZE_MAX) eqn:Hfit; cbn [andb].
  - assert (capacity l * 2 <= SIZE_MAX) as Hno by nia.
    destruct (slots_exact (capacity l * 2)) as [Hsz Hq]; [lia.. |].
    destruct (realloc (alloc l) (sizeof V * (capacity l * 2))) eqn:Hgrant.
    + destruct (insert_granted l x Hwf) as [l' Hi]; [right; split; [lia | done] |].
      by apply (Hok l').
    + rewrite orb_true_r. clear Hok. unfold insert, full, resize.
      rewrite Hfull, wrap_small by lia.
      destruct (capacity l =? capacity l * 2) eqn:E; [lia |].
      destruct (capacity l * 2 <? count l) eqn:E'; [lia |].
      cbv zeta. rewrite Hsz, Hgrant. cbn [negb].
      destruct (sizeof V * (capacity l * 2) =? 0) eqn:E0; [nia | done].
  - clear Hok. cbn [orb].
    destruct (SIZE_MAX <? capacity l * 2) eqn:Hov; cbn [orb].
    + unfold insert, full, resize.
      rewrite Hfull, wrap_double_overflow by lia. unfold SIZE_MAX in *.
      destruct (capacity l =? _) eqn:E; [lia |].
      destruct (_ <? count l) eqn:E'; [done | lia].
    + unfold insert, full, resize.
      rewrite Hfull, (wrap_small (capacity l * 2)) by lia.
      destruct (capacity l =? capacity l * 2) eqn:E; [lia |].
      destruct (capacity l * 2 <? count l) eqn:E'; [lia |].
      cbv zeta.
      destruct (realloc (alloc l) (wrap (sizeof V * (capacity l * 2))));
        cbn [negb]; [| done].
      cbn [count buffer set_capacity set_buffer]. unfold write.
      rewrite realloc_block_length.
      pose proof (slots_wrapped (capacity l)).
      destruct (_ && _) eqn:Ew; [lia | done].
Qed.

(** X5.  [resize] accepts the capacity 0 for an empty list when the
    allocator grants it.  The list then has a block of no slots, which
    doubling does not grow, and every [insert] writes outside it. *)
Theorem resize_to_zero_then_insert l x :
  well_formed l -> count l = 0 -> realloc (alloc l) 0 = true ->
  exists l0, resize l 0 = (true, l0) /\ capacity l0 = 0 /\ buffer l0 = [] /\
             insert l0 x = Undefined (OutOfBounds 0).
Proof.
  intros (Hlen & Hcnt & Hcap) Hn Hgrant. unfold resize.
  destruct (capacity l =? 0) eqn:E; [lia |].
  rewrite Hn, Z.mul_0_r. change (wrap 0) with 0. cbv zeta.
  rewrite Hgrant. change (0 / sizeof V) with 0. simpl.
  eexists. split; [done |]. split; [done |]. split; [done |].
  unfold insert, full, resize. cbn [count capacity set_capacity set_buffer].
  rewrite Hn. change (wrap (0 * 2)) with 0.
  cbn [Z.geb Z.compare Z.eqb negb buffer count set_capacity set_buffer].
  unfold write. rewrite Hn. reflexivity.
Qed.

(** X26.  The byte count [sizeof(V) * capacity] that [resize] passes to
    [realloc] is not checked for wrapping around.  When it wraps and the
    allocator grants the wrapped count, [resize] returns true and records
    the requested capacity, over a block that has fewer slots: the list is
    no longer well-formed. *)
Theorem resize_byte_count_wraps l c :
  well_formed l -> count l <= c <= SIZE_MAX -> capacity l <> c ->
  SIZE_MAX < sizeof V * c ->
  realloc (alloc l) (wrap (sizeof V * c)) = true ->
  exists l', resize l c = (true, l') /\ capacity l' = c /\
    Z.of_nat (length (buffer l')) = wrap (sizeof V * c) / sizeof V /\
    Z.of_nat (length (buffer l')) < c /\ ~ well_formed l'.
Proof.
  intros (Hlen & Hcnt & Hcap) Hc Hne Hw Hgrant.
  pose proof (sizeof_positive (V := V)) as Hs.
  pose proof (wrap_range (sizeof V * c)) as Hr.
  assert (0 <= wrap (sizeof V * c) / sizeof V < c) as Hq.
  { split; [apply Z.div_pos; lia |].
    apply Z.div_lt_upper_bound; lia. }
  unfold resize.
  destruct (capacity l =? c) eqn:E; [lia |].
  destruct (c <? count l) eqn:E'; [lia |]. cbv zeta.
  rewrite Hgrant. cbn [negb]. eexists. split; [done |].
  cbn [capacity buffer set_capacity set_buffer].
  rewrite realloc_block_length.
  split; [done |]. split; [lia |]. split; [lia |].
  intros (Hlen' & _). simpl in Hlen'.
  rewrite realloc_block_length in Hlen'. lia.
Qed.
End CapacityFacts.

(** Witness of X3: a block of eight slots with five live elements, cut down
    to five slots. *)
Lemma resize_spec_witness :
  exists l', resize (IntList.make [5; 1; 4; 2; 3; 0; 0; 0] 5 false) 5 = (true, l')
    /\ capacity l' = 5 /\ Z.of_nat (length (buffer l')) = 5
    /\ count l' = 5 /\ elements l' = [5; 1; 4; 2; 3]
    /\ is_sorted l' = false.
Proof.
  apply (resize_spec (IntList.make [5; 1; 4; 2; 3; 0; 0; 0] 5 false) 5).
  - vm_compute. repeat split; discriminate.
  - lia.
  - vm_compute. discriminate.
Defined.

(** Witness of X4: an insert into a full list of two elements. *)
Lemma insert_outcome_witness :
  let l := IntList.make [5; 1] 2 false in
  exists l', insert l 4 = Ok (true, l') /\ well_formed l' /\
    elements l' = elements l ++ [4] /\ is_sorted l' = false /\
    count l' = count l + 1.
Proof.
  intros l.
  assert (well_formed l) as Hwf by (vm_compute; repeat split; discriminate).
  exact (insert_outcome l 4 Hwf).
Defined.

(** Witness of X5. *)
Lemma resize_to_zero_then_insert_witness :
  exists l0, resize (IntList.make [0; 0] 0 false) 0 = (true, l0)
    /\ capacity l0 = 0 /\ buffer l0 = []
    /\ insert l0 7 = Undefined (OutOfBounds 0).
Proof.
  apply (resize_to_zero_then_insert (IntList.make [0; 0] 0 false) 7).
  - vm_compute. repeat split; discriminate.
  - reflexivity.
  - reflexivity.
Defined.

(** Witness of X26: with elements of four bytes, the byte count of
    [2^62 + 1] elements wraps around to 4, the size of one element. *)
Lemma resize_byte_count_wraps_witness :
  let l := IntList.make [0] 0 false in
  let c := 4611686018427387905 in
  exists l', resize l c = (true, l') /\ capacity l' = c /\
    Z.of_nat (length (buffer l')) = wrap (sizeof Z * c) / sizeof Z /\
    Z.of_nat (length (buffer l')) < c /\ ~ well_formed l'.
Proof.
  apply (resize_byte_count_wraps (IntList.make [0] 0 false)
           4611686018427387905).
  - vm_compute. repeat split; discriminate.
  - simpl. unfold SIZE_MAX. lia.
  - simpl. lia.
  - vm_compute. reflexivity.
  - reflexivity.
Defined.

(** ** Looking up a value in an ordered list *)

Section LookupFacts.
Context {V : Type} `{!SizeOf V} (zero : V).
Implicit Types (l : sortedlist V) (a : list V) (c : V -> V -> Z).

(** The loop of the first search ends at the border between the elements
    smaller than [v] and the others. *)
Lemma impl_binary_search_first_loop_border fuel c a v n L R :
  three_way c -> sorted_range c a 0 (n - 1) ->
  0 <= L <= R -> R <= n -> n <= Z.of_nat (length a) -> n <= SIZE_MAX ->
  (Z.to_nat (R - L) < fuel)%nat ->
  (forall (i : nat) x, Z.of_nat i < L -> a !! i = Some x -> c x v < 0) ->
  (forall (i : nat) x, R <= Z.of_nat i < n -> a !! i = Some x -> 0 <= c x v) ->
  exists L', impl_binary_search_first_loop fuel c a v L R = Ok L' /\
    0 <= L' <= n /\
    (forall (i : nat) x, Z.of_nat i < L' -> a !! i = Some x -> c x v < 0) /\
    (forall (i : nat) x, L' <= Z.of_nat i < n -> a !! i = Some x -> 0 <= c x v).
Proof.
  intros Hc Hs. revert L R.
  induction fuel as [| fuel IH]; intros L R HL HR Hn Hmax Hf Hlt Hge; [lia |].
  cbn [impl_binary_search_first_loop].
  destruct (L <? R) eqn:E.
  2: { exists L. split; [done |]. split; [lia |]. split; [done |].
       intros i x Hi. apply Hge. lia. }
  rewrite (wrap_small (R - L)) by lia.
  assert (L <= L + (R - L) / 2 < R) as HM.
  { pose proof (Z.div_lt_upper_bound (R - L) 2 (R - L)).
    pose proof (Z.div_pos (R - L) 2). lia. }
  set (M := L + (R - L) / 2) in *.
  rewrite (wrap_small M) by lia.
  destruct (read_in_range a M) as [x Hx]; [lia |]. rewrite Hx. cbn [bind].
  apply read_Ok in Hx as [_ Hx].
  destruct (c x v <? 0) eqn:Ec.
  - rewrite wrap_small by lia. apply IH; try lia; [| done].
    intros i y Hi Hy. destruct (decide (i = Z.to_nat M)) as [-> |].
    + rewrite Hx in Hy. injection Hy as <-. lia.
    + apply (three_way_le_lt c y x v Hc); [| lia].
      apply (Hs i (Z.to_nat M)); (done || lia).
  - apply IH; try lia; [done |].
    intros i y Hi Hy. destruct (decide (i = Z.to_nat M)) as [-> |].
    + rewrite Hx in Hy. injection Hy as <-. lia.
    + destruct (Z_lt_le_dec (c y v) 0) as [Hneg |]; [exfalso | done].
      assert (c x v < 0); [| lia].
      apply (three_way_le_lt c x y v Hc); [| done].
      apply (Hs (Z.to_nat M) i); (done || lia).
Qed.

(** The loop of the last search ends at the border between the elements not
    greater than [v] and the others. *)
Lemma impl_binary_search_last_loop_border fuel c a v n L R :
  three_way c -> sorted_range c a 0 (n - 1) ->
  0 <= L <= R -> R <= n -> n <= Z.of_nat (length a) -> n <= SIZE_MAX ->
  (Z.to_nat (R - L) < fuel)%nat ->
  (forall (i : nat) x, Z.of_nat i < L -> a !! i = Some x -> c x v <= 0) ->
  (forall (i : nat) x, R <= Z.of_nat i < n -> a !! i = Some x -> 0 < c x v) ->
  exists L', impl_binary_search_last_loop fuel c a v L R = Ok L' /\
    0 <= L' <= n /\
    (forall (i : nat) x, Z.of_nat i < L' -> a !! i = Some x -> c x v <= 0) /\
    (forall (i : nat) x, L' <= Z.of_nat i < n -> a !! i = Some x -> 0 < c x v).
Proof.
  intros Hc Hs. revert L R.
  induction fuel as [| fuel IH]; intros L R HL HR Hn Hmax Hf Hle Hgt; [lia |].
  cbn [impl_binary_search_last_loop].
  destruct (L <? R) eqn:E.
  2: { exists L. split; [done |]. split; [lia |]. split; [done |].
       intros i x Hi. apply Hgt. lia. }
  rewrite (wrap_small (R - L)) by lia.
  assert (L <= L + (R - L) / 2 < R) as HM.
  { pose proof (Z.div_lt_upper_bound (R - L) 2 (R - L)).
    pose proof (Z.div_pos (R - L) 2). lia. }
  set (M := L + (R - L) / 2) in *.
  rewrite (wrap_small M) by lia.
  destruct (read_in_range a M) as [x Hx]; [lia |]. rewrite Hx. cbn [bind].
  apply read_Ok in Hx as [_ Hx].
  destruct Hc as [Hsym Htrans].
  destruct (c x v >? 0) eqn:Ec.
  - apply IH; try lia; [done |].
    intros i y Hi Hy. destruct (decide (i = Z.to_nat M)) as [-> |].
    + rewrite Hx in Hy. injection Hy as <-. lia.
    + destruct (Z_lt_le_dec 0 (c y v)) as [| Hyv]; [done | exfalso].
      assert (c x v <= 0); [| lia].
      apply (Htrans x y v); [| done].
      apply (Hs (Z.to_nat M) i); (done || lia).
  - rewrite wrap_small by lia. apply IH; try lia; [| done].
    intros i y Hi Hy. destruct (decide (i = Z.to_nat M)) as [-> |].
    + rewrite Hx in Hy. injection Hy as <-. lia.
    + apply (Htrans y x v); [| lia].
      apply (Hs i (Z.to_nat M)); (done || lia).
Qed.

(** In an ordered list that holds a match, the first search returns the
    smallest index of a match. *)
Lemma impl_binary_search_first_present l c v m :
  three_way c -> well_formed l -> f_val_cmp l = Ok c ->
  StronglySorted (not_greater c) (elements l) -> matches c l v m ->
  exists i, impl_binary_search_first l v = Ok i /\ matches c l v i /\
            forall j, matches c l v j -> i <= j.
Proof.
  intros Hc (Hlen & Hcnt & Hcap) Hf Hs (Hm & xm & Hxm & Hcm).
  apply StronglySorted_sorted_range in Hs.
  rewrite Z2Nat.id in Hs by lia.
  unfold impl_binary_search_first, empty.
  destruct (count l =? 0) eqn:E; [lia |]. rewrite Hf. cbn [bind].
  destruct (impl_binary_search_first_loop_border (S (Z.to_nat (count l))) c
              (buffer l) v (count l) 0 (count l))
    as (L & -> & HL & Hlt & Hge);
    [done | done | lia.. | intros i x Hi; lia | intros i x Hi; lia |].
  cbn [bind].
  assert (L <= m) as HLm.
  { destruct (Z_le_gt_dec L m); [done | exfalso].
    specialize (Hlt (Z.to_nat m) xm ltac:(lia) Hxm). lia. }
  destruct (read_in_range (buffer l) L) as [y Hy]; [lia |].
  rewrite Hy. cbn [bind]. apply read_Ok in Hy as [_ Hy].
  assert (c y v = 0) as Hyv.
  { specialize (Hge (Z.to_nat L) y ltac:(lia) Hy).
    destruct (decide (L = m)) as [-> |]; [congruence |].
    assert (c y v <= 0); [| lia].
    apply (three_way_trans c Hc y xm v); [| lia].
    apply (Hs (Z.to_nat L) (Z.to_nat m)); (done || lia). }
  rewrite Hyv. change (0 =? 0) with true. cbn match.
  exists L. split; [done |]. split; [split; [lia | by exists y] |].
  intros j (Hj & xj & Hxj & Hcj).
  destruct (Z_le_gt_dec L j); [done | exfalso].
  specialize (Hlt (Z.to_nat j) xj ltac:(lia) Hxj). lia.
Qed.

(** In an ordered list that holds a match, the last search returns the
    greatest index of a match. *)
Lemma impl_binary_search_last_present l c v m :
  three_way c -> well_formed l -> f_val_cmp l = Ok c ->
  StronglySorted (not_greater c) (elements l) -> matches c l v m ->
  exists i, impl_binary_search_last l v = Ok i /\ matches c l v i /\
            forall j, matches c l v j -> j <= i.
Proof.
  intros Hc (Hlen & Hcnt & Hcap) Hf Hs (Hm & xm & Hxm & Hcm).
  apply StronglySorted_sorted_range in Hs.
  rewrite Z2Nat.id in Hs by lia.
  unfold impl_binary_search_last, empty.
  destruct (count l =? 0) eqn:E; [lia |]. rewrite Hf. cbn [bind].
  destruct (impl_binary_search_last_loop_border (S (Z.to_nat (count l))) c
              (buffer l) v (count l) 0 (count l))
    as (L & -> & HL & Hle & Hgt);
    [done | done | lia.. | intros i x Hi; lia | intros i x Hi; lia |].
  cbn [bind].
  assert (m < L) as HmL.
  { destruct (Z_lt_ge_dec m L); [done | exfalso].
    specialize (Hgt (Z.to_nat m) xm ltac:(lia) Hxm). lia. }
  rewrite wrap_small by lia.
  destruct (read_in_range (buffer l) (L - 1)) as [y Hy]; [lia |].
  rewrite Hy. cbn [bind]. apply read_Ok in Hy as [_ Hy].
  assert (c y v = 0) as Hyv.
  { specialize (Hle (Z.to_nat (L - 1)) y ltac:(lia) Hy).
    destruct (decide (L - 1 = m)) as [Heq |]; [rewrite Heq in Hy; congruence |].
    assert (0 <= c y v); [| lia].
    assert (c xm y <= 0) as Hmy
      by (apply (Hs (Z.to_nat m) (Z.to_nat (L - 1))); (done || lia)).
    assert (c v xm <= 0) as Hvm
      by (pose proof (three_way_sym c Hc xm v); lia).
    pose proof (three_way_trans c Hc v xm y Hvm Hmy).
    pose proof (three_way_sym c Hc y v). lia. }
  rewrite Hyv. change (0 =? 0) with true. cbn match.
  exists (L - 1). split; [done |]. split; [split; [lia | by exists y] |].
  intros j (Hj & xj & Hxj & Hcj).
  destruct (Z_le_gt_dec j (L - 1)); [done | exfalso].
  specialize (Hgt (Z.to_nat j) xj ltac:(lia) Hxj). lia.
Qed.

Lemma elem_of_elements_matches l c v x :
  well_formed l -> x ∈ elements l -> c x v = 0 -> exists m, matches c l v m.
Proof.
  intros (Hlen & Hcnt & Hcap) [k Hk]%list_elem_of_lookup Hx.
  unfold elements in Hk.
  assert (k < Z.to_nat (count l))%nat.
  { destruct (decide (k < Z.to_nat (count l))%nat); [done |].
    rewrite lookup_take_ge in Hk by lia. done. }
  rewrite lookup_take_lt in Hk by done.
  exists (Z.of_nat k). split; [lia |]. exists x. by rewrite Nat2Z.id.
Qed.

Lemma insert_f_val l x r l' : insert l x = Ok (r, l') -> f_val l' = f_val l.
Proof.
  unfold insert.
  assert (f_val (snd (resize l (wrap (capacity l * 2)))) = f_val l) as Hr.
  { unfold resize. destruct (capacity l =? _); [done |].
    destruct (_ <? count l); [done |].
    destruct (realloc _ _); simpl; [done |]. by destruct (_ && _). }
  destruct (full l).
  - destruct (resize l _) as [[] l1]; simpl in *.
    + destruct (write _ _ _); simpl; [| done..]. by intros [= _ <-].
    + by intros [= _ <-].
  - simpl. destruct (write _ _ _); simpl; [| done..]. by intros [= _ <-].
Qed.

(** [contains] on a list that holds a match. *)
Lemma contains_present_aux l l1 c v :
  three_way c -> well_formed l -> f_val_cmp l = Ok c -> ordered c l ->
  sort l = Ok l1 ->
  existsb (fun x => c x v =? 0) (elements l) = true ->
  contains l v = Ok (true, l1).
Proof.
  intros Hc Hwf Hf Hord Hsort Hex.
  destruct (sort_ordered l l1 c (three_way_comparator c Hc) Hwf Hf Hord Hsort)
    as (Hs & Hp & Hwf1 & Hn & Hcap & Hf1 & _).
  assert (f_val_cmp l1 = Ok c) as Hc1 by (unfold f_val_cmp in *; by rewrite Hf1).
  apply existsb_exists in Hex as (x & Hx & Hxv).
  apply list_elem_of_In in Hx.
  assert (0 < count l) as Hpos.
  { destruct Hwf as (_ & Hcnt & _). destruct (decide (0 < count l)); [done |].
    unfold elements in Hx. replace (count l) with 0 in Hx by lia.
    by apply elem_of_nil in Hx. }
  rewrite <- Hp in Hx.
  destruct (elem_of_elements_matches l1 c v x Hwf1 Hx ltac:(lia)) as [m Hm].
  destruct (impl_binary_search_first_present l1 c v m Hc Hwf1 Hc1 Hs Hm)
    as (i & Hi & [Hir _] & _).
  unfold contains, empty. destruct (count l =? 0) eqn:E; [lia |].
  rewrite Hsort. cbn [bind]. rewrite Hi. cbn [bind]. do 2 f_equal. lia.
Qed.

(** X6.  When the list holds an element comparator-equal to the value and
    the sort step completes, [indexof] returns, from the start, the smallest
    index of such an element in the sorted list and, from the end, the
    greatest. *)
Theorem indexof_first_last_match l l1 c v x :
  three_way c -> well_formed l -> f_val_cmp l = Ok c -> ordered c l ->
  sort l = Ok l1 -> x ∈ elements l -> c x v = 0 ->
  exists i j,
    indexof l v true = Ok (i, l1) /\ indexof l v false = Ok (j, l1) /\
    matches c l1 v i /\ matches c l1 v j /\
    forall k, matches c l1 v k -> i <= k <= j.
Proof.
  intros Hc Hwf Hf Hord Hsort Hx Hxv.
  destruct (sort_ordered l l1 c (three_way_comparator c Hc) Hwf Hf Hord Hsort)
    as (Hs & Hp & Hwf1 & Hn & Hcap & Hf1 & _).
  assert (f_val_cmp l1 = Ok c) as Hc1 by (unfold f_val_cmp in *; by rewrite Hf1).
  rewrite <- Hp in Hx.
  destruct (elem_of_elements_matches l1 c v x Hwf1 Hx Hxv) as [m Hm].
  destruct (impl_binary_search_first_present l1 c v m Hc Hwf1 Hc1 Hs Hm)
    as (i & Hi & Hmi & Hmin).
  destruct (impl_binary_search_last_present l1 c v m Hc Hwf1 Hc1 Hs Hm)
    as (j & Hj & Hmj & Hmax).
  exists i, j. unfold indexof. rewrite Hsort. cbn [bind]. rewrite Hi, Hj.
  cbn [bind]. do 4 (split; [done |]).
  intros k Hk. split; [by apply Hmin | by apply Hmax].
Qed.


(** X8.  An element that was inserted is found: after a successful [insert]
    of [x], [contains] returns true for [x], when the sort step completes. *)
Theorem insert_then_contains l l1 l2 c x :
  three_way c -> well_formed l -> f_val_cmp l = Ok c ->
  insert l x = Ok (true, l1) -> sort l1 = Ok l2 ->
  contains l1 x = Ok (true, l2).
Proof.
  intros Hc Hwf Hf Hi Hsort.
  destruct (insert_appends l x l1 Hwf Hi) as (Hwf1 & Hel & Hs1).
  pose proof (insert_f_val l x true l1 Hi) as Hf1.
  assert (f_val_cmp l1 = Ok c) as Hc1 by (unfold f_val_cmp in *; by rewrite Hf1).
  assert (existsb (fun y => c y x =? 0) (elements l1) = true) as Hex.
  { apply existsb_exists. exists x. split.
    - apply list_elem_of_In. rewrite Hel. apply elem_of_app. right.
      by apply list_elem_of_singleton.
    - rewrite (three_way_refl c x Hc). done. }
  apply (contains_present_aux l1 l2 c x); try done.
  intros Hs. congruence.
Qed.
(** X9.  On the empty list [min] and [max] return false and change nothing.
    On any other list, when the sort step completes, [min] returns an element
    of the list that is not greater than any of its elements, and [max] one
    that no element is greater than. *)
Theorem min_max_spec l l1 c :
  comparator c -> well_formed l -> f_val_cmp l = Ok c -> ordered c l ->
  sort l = Ok l1 ->
  if count l =? 0
  then min l = Ok (None, l) /\ max l = Ok (None, l)
  else exists lo hi,
         min l = Ok (Some lo, l1) /\ max l = Ok (Some hi, l1) /\
         lo ∈ elements l /\ hi ∈ elements l /\
         forall x, x ∈ elements l -> c lo x <= 0 /\ c x hi <= 0.
Proof.
  intros Hc Hwf Hf Hord Hsort. unfold min, max, empty.
  destruct (count l =? 0) eqn:E; [done |].
  destruct (sort_ordered l l1 c Hc Hwf Hf Hord Hsort)
    as (Hs & Hp & Hwf1 & Hn & Hcap & _).
  pose proof Hwf1 as (Hlen1 & Hcnt1 & Hcap1).
  rewrite Hsort. cbn [bind]. rewrite wrap_small by lia.
  destruct (read_in_range (buffer l1) 0) as [lo Hlo]; [lia |].
  destruct (read_in_range (buffer l1) (count l1 - 1)) as [hi Hhi]; [lia |].
  rewrite Hlo, Hhi. cbn [bind].
  apply read_Ok in Hlo as [_ Hlo]. apply read_Ok in Hhi as [_ Hhi].
  rewrite <- elements_lookup in Hlo, Hhi by lia.
  exists lo, hi. do 2 (split; [done |]).
  assert (forall x, c x x <= 0) as Hrefl.
  { intros x. destruct (Z_lt_le_dec 0 (c x x)); [| done].
    by apply (comparator_total c Hc). }
  split; [rewrite <- Hp; apply list_elem_of_lookup; eauto |].
  split; [rewrite <- Hp; apply list_elem_of_lookup; eauto |].
  intros x Hx. rewrite <- Hp in Hx. apply list_elem_of_lookup in Hx as [k Hk].
  assert (Z.of_nat k < count l1) as Hkn.
  { apply lookup_lt_Some in Hk. rewrite <- (elements_length l1) by done. lia. }
  split.
  - destruct (decide (k = Z.to_nat 0)) as [-> |].
    + rewrite Hlo in Hk. injection Hk as <-. apply Hrefl.
    + apply (StronglySorted_lookup _ _ (Z.to_nat 0) k lo x Hs); (done || lia).
  - destruct (decide (k = Z.to_nat (count l1 - 1))) as [-> |].
    + rewrite Hhi in Hk. injection Hk as <-. apply Hrefl.
    + apply (StronglySorted_lookup _ _ k (Z.to_nat (count l1 - 1)) x hi Hs);
        (done || lia).
Qed.

(** X10.  [get] at an index below [count] returns, when the sort step
    completes, the element at that index of the live elements put in
    non-decreasing order. *)
Theorem get_in_range l l1 c index :
  comparator c -> well_formed l -> f_val_cmp l = Ok c -> ordered c l ->
  sort l = Ok l1 -> 0 <= index < count l ->
  exists x, get zero l index = Ok (x, l1) /\
    elements l1 !! Z.to_nat index = Some x /\
    StronglySorted (not_greater c) (elements l1) /\
    elements l1 ≡ₚ elements l.
Proof.
  intros Hc Hwf Hf Hord Hsort Hi. unfold get.
  destruct (index >=? count l) eqn:E; [lia |].
  destruct (sort_ordered l l1 c Hc Hwf Hf Hord Hsort)
    as (Hs & Hp & Hwf1 & Hn & Hcap & _).
  pose proof Hwf1 as (Hlen1 & Hcnt1 & Hcap1).
  rewrite Hsort. cbn [bind].
  destruct (read_in_range (buffer l1) index) as [x Hx]; [lia |].
  rewrite Hx. cbn [bind]. apply read_Ok in Hx as [_ Hx].
  exists x. split; [done |]. split; [| done].
  rewrite elements_lookup by lia. done.
Qed.
End LookupFacts.

(** The comparison of integers is a three-way comparison. *)
Lemma int_cmp_three_way : three_way IntList.int_cmp.
Proof.
  split; unfold IntList.int_cmp.
  - intros x y. destruct (x <? y) eqn:E1, (x >? y) eqn:E2,
      (y <? x) eqn:E3, (y >? x) eqn:E4; lia.
  - intros x y z. destruct (x <? y) eqn:E1, (x >? y) eqn:E2,
      (y <? z) eqn:E3, (y >? z) eqn:E4, (x <? z) eqn:E5, (x >? z) eqn:E6; lia.
Qed.

(** Witness of X6: 3 looked up in the list 3, 1, 3, 2. *)
Lemma indexof_first_last_match_witness :
  let l := IntList.make [3; 1; 3; 2; 0] 4 false in
  let l1 := IntList.make [1; 2; 3; 3; 0] 4 true in
  exists i j,
    indexof l 3 true = Ok (i, l1) /\ indexof l 3 false = Ok (j, l1) /\
    matches IntList.int_cmp l1 3 i /\ matches IntList.int_cmp l1 3 j /\
    forall k, matches IntList.int_cmp l1 3 k -> i <= k <= j.
Proof.
  apply (indexof_first_last_match (IntList.make [3; 1; 3; 2; 0] 4 false)
           (IntList.make [1; 2; 3; 3; 0] 4 true) IntList.int_cmp 3 3).
  - apply int_cmp_three_way.
  - vm_compute. repeat split; discriminate.
  - reflexivity.
  - intros H. vm_compute in H. discriminate.
  - vm_compute. reflexivity.
  - apply list_elem_of_In. simpl. auto.
  - reflexivity.
Defined.


(** Witness of X8: 4 inserted into the full list 5, 1. *)
Lemma insert_then_contains_witness :
  contains (IntList.make [5; 1; 4; 0] 3 false) 4
  = Ok (true, IntList.make [1; 4; 5; 0] 3 true).
Proof.
  apply (insert_then_contains (IntList.make [5; 1] 2 false)
           (IntList.make [5; 1; 4; 0] 3 false)
           (IntList.make [1; 4; 5; 0] 3 true) IntList.int_cmp 4).
  - apply int_cmp_three_way.
  - vm_compute. repeat split; discriminate.
  - reflexivity.
  - vm_compute. reflexivity.
  - vm_compute. reflexivity.
Defined.

(** Witness of X9. *)
Lemma min_max_spec_witness :
  let l := IntList.make [5; 1; 4; 2; 3] 5 false in
  let l1 := IntList.make [1; 2; 3; 4; 5] 5 true in
  exists lo hi,
    min l = Ok (Some lo, l1) /\ max l = Ok (Some hi, l1) /\
    lo ∈ elements l /\ hi ∈ elements l /\
    forall x, x ∈ elements l ->
              IntList.int_cmp lo x <= 0 /\ IntList.int_cmp x hi <= 0.
Proof.
  apply (min_max_spec (IntList.make [5; 1; 4; 2; 3] 5 false)
           (IntList.make [1; 2; 3; 4; 5] 5 true) IntList.int_cmp).
  - apply int_cmp_comparator.
  - vm_compute. repeat split; discriminate.
  - reflexivity.
  - intros H. vm_compute in H. discriminate.
  - vm_compute. reflexivity.
Defined.

(** Witness of X10: index 2 of the list 3, 1, 2 holds 3 once sorted. *)
Lemma get_in_range_witness :
  let l := IntList.make [3; 1; 2] 3 false in
  let l1 := IntList.make [1; 2; 3] 3 true in
  exists x, get 0 l 2 = Ok (x, l1) /\
    elements l1 !! Z.to_nat 2 = Some x /\
    StronglySorted (not_greater IntList.int_cmp) (elements l1) /\
    elements l1 ≡ₚ elements l.
Proof.
  apply (get_in_range 0 (IntList.make [3; 1; 2] 3 false)
           (IntList.make [1; 2; 3] 3 true) IntList.int_cmp 2).
  - apply int_cmp_comparator.
  - vm_compute. repeat split; discriminate.
  - reflexivity.
  - intros H. vm_compute in H. discriminate.
  - vm_compute. reflexivity.
  - simpl. lia.
Defined.

(** ** Removal, copy and clearing *)

Section RemoveCopyClearFacts.
Context {V : Type} (zero : V) (dflt : cmc_alloc_node V)
        (f_val_free : ftab_val V -> bool).
Implicit Types (l : sortedlist V) (c : V -> V -> Z).

(** X11.  In a list that is not full, [remove] at an index below [count]
    deletes the element at that index and keeps the others in their order:
    the sorted flag is left as it is and still tells the truth, the vacated
    slot holds the zero value and the list is well-formed. *)
Theorem remove_keeps_order l c index :
  well_formed l -> ordered c l -> count l < capacity l ->
  0 <= index < count l ->
  exists l', remove zero l index = Ok (true, l') /\
    elements l' = delete (Z.to_nat index) (elements l) /\
    count l' = count l - 1 /\ is_sorted l' = is_sorted l /\
    buffer l' !! Z.to_nat (count l - 1) = Some zero /\
    well_formed l' /\ ordered c l'.
Proof.
  intros Hwf Hord Hroom Hi.
  destruct (remove_in_range zero l index Hwf Hroom Hi)
    as (l' & Hr & Hel & Hz & Hn & Hlen & Hcap & Hs & _).
  destruct Hwf as (Hlen0 & Hcnt & Hcapr).
  exists l'. do 5 (split; [done |]). split.
  - unfold well_formed. rewrite Hlen, Hn, Hcap. lia.
  - intros Hs'. rewrite Hel. rewrite Hs in Hs'.
    eapply StronglySorted_sublist; [apply sublist_delete | by apply Hord].
Qed.

Lemma new_custom_granted cap ft (a : cmc_alloc_node V) cb :
  1 <= cap -> malloc a = true -> calloc a cap = true ->
  new_custom zero dflt cap ft (Some a) cb
  = Some {| buffer := replicate (Z.to_nat cap) zero; capacity := cap;
            count := 0; is_sorted := false; flag := cmc_flags.OK;
            f_val := ft; alloc := a; callbacks := cb |}.
Proof.
  intros Hcap Hm Hc. unfold new_custom.
  destruct (cap <? 1) eqn:E; [lia |]. by rewrite Hm, Hc.
Qed.

(** The copying loop of [copy_of] fills the slots [i] to [n - 1]. *)
Lemma copy_of_from_spec fuel (f : V -> V) (src dst : list V) i n :
  0 <= i <= n -> n <= Z.of_nat (length src) -> n <= Z.of_nat (length dst) ->
  n <= SIZE_MAX -> (Z.to_nat (n - i) < fuel)%nat ->
  copy_of_from fuel f src dst i n
  = Ok (take (Z.to_nat i) dst
        ++ (f <$> take (Z.to_nat (n - i)) (drop (Z.to_nat i) src))
        ++ drop (Z.to_nat n) dst).
Proof.
  revert dst i. induction fuel as [| fuel IH]; intros dst i Hi Hs Hd Hmax Hf; [lia |].
  cbn [copy_of_from]. destruct (i <? n) eqn:E.
  2: { replace i with n by lia. rewrite Z.sub_diag. simpl.
       by rewrite take_drop. }
  destruct (read_in_range src i) as [x Hx]; [lia |]. rewrite Hx. cbn [bind].
  apply read_Ok in Hx as [_ Hx].
  rewrite write_in_range by lia. cbn [bind]. rewrite wrap_small by lia.
  rewrite IH by (rewrite ?length_insert; lia). f_equal.
  replace (Z.to_nat (i + 1)) with (S (Z.to_nat i)) by lia.
  replace (Z.to_nat (n - i)) with (S (Z.to_nat (n - (i + 1)))) by lia.
  rewrite (take_S_r _ _ (f x)) by (apply list_lookup_insert_eq; lia).
  rewrite take_insert_ge, drop_insert_lt by lia.
  rewrite (drop_S src x (Z.to_nat i)) by done.
  rewrite firstn_cons, fmap_cons, <- app_assoc. done.
Qed.

(** X12.  When the two allocations are granted, [copy_of] returns a
    well-formed list with the capacity, count, function table, allocator and
    callbacks of the original; its live elements are the copies of the
    original's, made by [cpy] when the table has one, and its sorted flag is
    false.  When an allocation is refused it returns no list. *)
Theorem copy_of_spec l ft :
  well_formed l -> f_val l = Some ft ->
  if malloc (alloc l) && calloc (alloc l) (capacity l)
  then exists r, copy_of zero dflt l = Ok (Some r) /\
         elements r = match cpy ft with
                      | Some f => f <$> elements l
                      | None => elements l
                      end /\
         count r = count l /\ capacity r = capacity l /\
         is_sorted r = false /\ flag r = cmc_flags.OK /\
         f_val r = f_val l /\ alloc r = alloc l /\
         callbacks r = callbacks l /\ well_formed r
  else copy_of zero dflt l = Ok None.
Proof.
  intros (Hlen & Hcnt & Hcap) Hft. unfold copy_of.
  destruct (malloc (alloc l)) eqn:Hm; cbn [andb].
  2: { rewrite new_custom_allocation_failure; [done | by left]. }
  destruct (calloc (alloc l) (capacity l)) eqn:Hc.
  2: { rewrite new_custom_allocation_failure; [done | by right]. }
  rewrite new_custom_granted by (done || lia).
  unfold f_val_cpy. rewrite Hft. cbn [bind buffer].
  assert (Z.of_nat (length (replicate (Z.to_nat (capacity l)) zero))
          = capacity l) as Hrep by (rewrite length_replicate; lia).
  destruct (cpy ft) as [f |].
  - rewrite copy_of_from_spec by lia. cbn [bind].
    eexists. split; [done |]. unfold elements, well_formed. simpl.
    rewrite Z.sub_0_r, drop_0.
    rewrite take_app_le by (rewrite length_fmap, length_take; lia).
    rewrite take_ge by (rewrite length_fmap, length_take; lia).
    rewrite !length_app, length_fmap, length_take, length_drop.
    repeat split; try (done || lia).
  - unfold memcpy.
    destruct (Z.of_nat (length (buffer l)) <? count l) eqn:E1; [lia |].
    destruct (Z.of_nat (length (replicate _ zero)) <? count l) eqn:E2; [lia |].
    cbn [bind]. eexists. split; [done |]. unfold elements, well_formed. simpl.
    rewrite take_app_le by (rewrite length_take; lia).
    rewrite take_take, Nat.min_id.
    rewrite !length_app, length_take, length_drop.
    repeat split; try (done || lia).
Qed.

Lemma clear_from_defined fuel (array : list V) i n :
  0 <= i -> n <= Z.of_nat (length array) -> n <= SIZE_MAX ->
  (Z.to_nat (n - i) < fuel)%nat ->
  clear_from fuel array i n = Ok tt.
Proof.
  revert i. induction fuel as [| fuel IH]; intros i Hi Hn Hmax Hf; [lia |].
  cbn [clear_from]. destruct (i <? n) eqn:E; [| done].
  destruct (read_in_range array i) as [x ->]; [lia |]. cbn [bind].
  rewrite wrap_small by lia. apply IH; lia.
Qed.

(** X13.  [clear] empties a well-formed list: the count is 0, every slot of
    the block holds the zero value, and the capacity is what it was.  The
    sorted flag is left as it is. *)
Theorem clear_spec l ft :
  well_formed l -> f_val l = Some ft ->
  exists l', clear zero f_val_free l = Ok l' /\
    count l' = 0 /\ elements l' = [] /\
    buffer l' = replicate (Z.to_nat (capacity l)) zero /\
    capacity l' = capacity l /\ is_sorted l' = is_sorted l /\
    flag l' = flag l /\ well_formed l'.
Proof.
  intros (Hlen & Hcnt & Hcap) Hft. unfold clear. rewrite Hft.
  assert ((if f_val_free ft
           then clear_from (S (Z.to_nat (count l))) (buffer l) 0 (count l)
           else Ok tt) = Ok tt) as ->.
  { destruct (f_val_free ft); [| done]. apply clear_from_defined; lia. }
  cbn [bind]. unfold memset.
  destruct (Z.of_nat (length (buffer l)) <? capacity l) eqn:E; [lia |].
  cbn [bind]. eexists. split; [done |]. unfold elements, well_formed. simpl.
  rewrite drop_ge, app_nil_r, length_replicate by lia.
  repeat split; try (done || lia).
Qed.
End RemoveCopyClearFacts.

(** Witness of X11. *)
Lemma remove_keeps_order_witness :
  let l := IntList.make [5; 6; 7; 0] 3 true in
  exists l', remove 0 l 1 = Ok (true, l') /\
    elements l' = delete (Z.to_nat 1) (elements l) /\
    count l' = count l - 1 /\ is_sorted l' = is_sorted l /\
    buffer l' !! Z.to_nat (count l - 1) = Some 0 /\
    well_formed l' /\ ordered IntList.int_cmp l'.
Proof.
  apply (remove_keeps_order 0 (IntList.make [5; 6; 7; 0] 3 true)
           IntList.int_cmp 1).
  - vm_compute. repeat split; discriminate.
  - intros _. vm_compute. repeat constructor; discriminate.
  - vm_compute. reflexivity.
  - simpl. lia.
Defined.

(** Witness of X12. *)
Lemma copy_of_spec_witness :
  let l := IntList.make [3; 1; 2; 0] 3 true in
  exists r, copy_of 0 IntList.generous l = Ok (Some r) /\
    elements r = elements l /\
    count r = count l /\ capacity r = capacity l /\
    is_sorted r = false /\ flag r = cmc_flags.OK /\
    f_val r = f_val l /\ alloc r = alloc l /\
    callbacks r = callbacks l /\ well_formed r.
Proof.
  apply (copy_of_spec 0 IntList.generous (IntList.make [3; 1; 2; 0] 3 true)
           IntList.int_ftab).
  - vm_compute. repeat split; discriminate.
  - reflexivity.
Defined.

(** Witness of X13. *)
Lemma clear_spec_witness :
  let l := IntList.make [1; 2; 3; 0] 3 true in
  exists l', clear 0 (fun _ => true) l = Ok l' /\
    count l' = 0 /\ elements l' = [] /\
    buffer l' = replicate (Z.to_nat (capacity l)) 0 /\
    capacity l' = capacity l /\ is_sorted l' = is_sorted l /\
    flag l' = flag l /\ well_formed l'.
Proof.
  apply (clear_spec 0 (fun _ => true) (IntList.make [1; 2; 3; 0] 3 true)
           IntList.int_ftab).
  - vm_compute. repeat split; discriminate.
  - reflexivity.
Defined.

(** ** More about the iterator *)

Section IteratorWalkFacts.
Context {V : Type} (zero : V).
Implicit Types (target : sortedlist V) (iter : sortedlist_iter).

(** X14.  [iter_go_to] succeeds exactly when the index is below [count] and
    the cursor is on it already, or above it with the start flag unset, or
    below it with the end flag unset; the cursor is then on the index.  When
    it fails the cursor has not moved. *)
Theorem iter_go_to_spec target iter index :
  0 <= cursor iter <= SIZE_MAX -> 0 <= index -> count target <= SIZE_MAX ->
  (fst (iter_go_to target iter index) = true <->
   index < count target /\
   (cursor iter = index \/
    (index < cursor iter /\ start iter = false) \/
    (cursor iter < index /\ end_ iter = false)))
  /\ cursor (snd (iter_go_to target iter index))
     = (if fst (iter_go_to target iter index) then index else cursor iter).
Proof.
  intros Hc Hi Hn. unfold iter_go_to.
  destruct (index >=? count target) eqn:E; simpl.
  { split; [| done]. split; [done | lia]. }
  destruct (cursor iter >? index) eqn:Egt.
  - rewrite wrap_small by lia.
    destruct (iter_rewind_spec target iter (cursor iter - index))
      as [Hr Hr']; [lia.. |].
    rewrite Hr'. split.
    + rewrite Hr. split.
      * intros (Hs & _ & _). split; [lia |]. right. left. split; [lia | done].
      * intros (_ & [? | [[_ Hs] | [? _]]]); lia.
    + destruct (fst (iter_rewind target iter (cursor iter - index))); lia.
  - destruct (cursor iter <? index) eqn:Elt; simpl.
    + rewrite wrap_small by lia.
      destruct (iter_advance_spec target iter (index - cursor iter))
        as [Ha Ha']; [lia.. |].
      rewrite Ha'. split.
      * rewrite Ha. split.
        -- intros (He & _ & _). split; [lia |]. right. right. split; [lia | done].
        -- intros (_ & [? | [[? _] | [_ He]]]); lia.
      * destruct (fst (iter_advance target iter (index - cursor iter))); lia.
    + split; [| lia]. split; [| done]. intros _. split; [lia |]. left. lia.
Qed.

(** X15.  A step forward that moves can be undone: the step backward that
    follows moves too and puts the cursor back.  Both boundary flags are
    unset afterwards, also when the walk started on index 0 with the start
    flag set. *)
Theorem iter_next_prev target iter iter1 :
  0 <= cursor iter < count target -> count target <= SIZE_MAX ->
  iter_next target iter = (true, iter1) ->
  iter_prev target iter1
  = (true, {| cursor := cursor iter; start := false; end_ := false |}).
Proof.
  intros Hc Hn. unfold iter_next, iter_prev, empty.
  destruct (end_ iter) eqn:He; [done |].
  rewrite wrap_small by lia.
  destruct (cursor iter + 1 =? count target) eqn:E; [done |].
  intros [= <-]. simpl.
  destruct (count target =? 0) eqn:E0; [lia |].
  destruct (cursor iter + 1 =? 0) eqn:E1; [lia |].
  rewrite wrap_small by lia. do 3 f_equal. lia.
Qed.

(** The forward loop, started on index [k] with the end flag unset, reads
    the live elements from [k] on. *)
Lemma iter_forward_from fuel target (k : nat) s :
  well_formed target -> Z.of_nat k < count target ->
  (Z.to_nat (count target) - k < fuel)%nat ->
  iter_forward zero fuel target
    {| cursor := Z.of_nat k; start := s; end_ := false |}
  = Ok (drop k (elements target)).
Proof.
  intros (Hlen & Hcnt & Hcap). revert k s.
  induction fuel as [| fuel IH]; intros k s Hk Hf; [lia |].
  cbn [iter_forward]. unfold iter_end, iter_value, iter_next, empty. simpl.
  destruct (count target =? 0) eqn:E0; [lia |]. simpl.
  destruct (read_in_range (buffer target) (Z.of_nat k)) as [x Hx]; [lia |].
  rewrite Hx. cbn [bind]. apply read_Ok in Hx as [_ Hx].
  rewrite Nat2Z.id in Hx. rewrite <- elements_lookup in Hx by lia.
  rewrite (drop_S _ x k) by done.
  rewrite wrap_small by lia.
  destruct (Z.of_nat k + 1 =? count target) eqn:E; simpl.
  - destruct fuel as [| fuel]; [lia |]. cbn [iter_forward].
    unfold iter_end. simpl. rewrite orb_true_r. cbn [bind].
    rewrite drop_ge; [done |].
    pose proof (elements_length target (conj Hlen (conj Hcnt Hcap))). lia.
  - replace (Z.of_nat k + 1) with (Z.of_nat (S k)) by lia.
    rewrite IH by lia. done.
Qed.

(** X16.  The loop that starts with [iter_to_start] and steps with
    [iter_next] until [iter_end] uses the live elements, each once, from
    index 0 to the last; on the empty list it uses nothing. *)
Theorem iter_forward_visits_elements fuel target iter :
  well_formed target -> (Z.to_nat (count target) < fuel)%nat ->
  iter_forward zero fuel target (iter_to_start target iter)
  = Ok (elements target).
Proof.
  intros Hwf Hf. pose proof Hwf as (Hlen & Hcnt & Hcap).
  unfold iter_to_start, empty.
  destruct (count target =? 0) eqn:E0; simpl.
  - destruct fuel as [| fuel]; [lia |]. cbn [iter_forward].
    unfold iter_end, empty. rewrite E0. simpl.
    unfold elements. replace (count target) with 0 by lia. done.
  - change 0 with (Z.of_nat 0). rewrite iter_forward_from by (done || lia).
    done.
Qed.

(** The backward loop, started on index [k] with the start flag unset, reads
    the live elements from [k] down to index 0. *)
Lemma iter_backward_from fuel target (k : nat) e :
  well_formed target -> Z.of_nat k < count target -> (k + 1 < fuel)%nat ->
  iter_backward zero fuel target
    {| cursor := Z.of_nat k; start := false; end_ := e |}
  = Ok (reverse (take (S k) (elements target))).
Proof.
  intros (Hlen & Hcnt & Hcap). revert k e.
  induction fuel as [| fuel IH]; intros k e Hk Hf; [lia |].
  cbn [iter_backward]. unfold iter_start, iter_value, iter_prev, empty. simpl.
  destruct (count target =? 0) eqn:E0; [lia |]. simpl.
  destruct (read_in_range (buffer target) (Z.of_nat k)) as [x Hx]; [lia |].
  rewrite Hx. cbn [bind]. apply read_Ok in Hx as [_ Hx].
  rewrite Nat2Z.id in Hx. rewrite <- elements_lookup in Hx by lia.
  rewrite (take_S_r _ k x) by done. rewrite reverse_snoc.
  destruct (Z.of_nat k =? 0) eqn:E; simpl.
  - destruct fuel as [| fuel]; [lia |]. cbn [iter_backward].
    unfold iter_start. simpl. rewrite orb_true_r. cbn [bind].
    replace k with 0%nat by lia. done.
  - rewrite wrap_small by lia.
    replace (Z.of_nat k - 1) with (Z.of_nat (k - 1)) by lia.
    rewrite IH by lia. cbn [bind].
    replace (S (k - 1)) with k by lia. done.
Qed.

(** X17.  The loop that starts with [iter_to_end] and steps with [iter_prev]
    until [iter_start] uses the live elements, each once, from the last index
    down to 0. *)
Theorem iter_backward_visits_elements fuel target iter :
  well_formed target -> (Z.to_nat (count target) < fuel)%nat ->
  iter_backward zero fuel target (iter_to_end target iter)
  = Ok (reverse (elements target)).
Proof.
  intros Hwf Hf. pose proof Hwf as (Hlen & Hcnt & Hcap).
  unfold iter_to_end, empty.
  destruct (count target =? 0) eqn:E0; simpl.
  - destruct fuel as [| fuel]; [lia |]. cbn [iter_backward].
    unfold iter_start, empty. rewrite E0. simpl.
    unfold elements. replace (count target) with 0 by lia. done.
  - rewrite wrap_small by lia.
    replace (count target - 1)
      with (Z.of_nat (Z.to_nat (count target) - 1)) by lia.
    rewrite iter_backward_from by (done || lia).
    replace (S (Z.to_nat (count target) - 1)) with (Z.to_nat (count target))
      by lia.
    rewrite take_ge; [done |].
    pose proof (elements_length target Hwf). lia.
Qed.

(** X18.  The two iterator constructors of [sortedlist.h], [impl_it_start]
    and [impl_it_end], return what the constructors [iter_start] and
    [iter_end] of [ext/code.h] return, on every list. *)
Theorem impl_it_agrees_with_ext (l : sortedlist V) :
  impl_it_start l = ext.iter_start l /\ impl_it_end l = ext.iter_end l.
Proof.
  unfold impl_it_start, impl_it_end, ext.iter_start, ext.iter_end, iter_init,
    iter_to_start, iter_to_end.
  destruct (sort l) as [l1 | |]; cbn [bind]; [| done..].
  destruct (empty l1) eqn:E; simpl; rewrite ?E; done.
Qed.
End IteratorWalkFacts.

(** Witness of X14: from index 3 to index 1. *)
Lemma iter_go_to_spec_witness :
  let target := IntList.make [1; 2; 3; 4; 5] 5 true in
  let iter := {| cursor := 3; start := false; end_ := false |} in
  (fst (iter_go_to target iter 1) = true <->
   1 < count target /\
   (cursor iter = 1 \/ (1 < cursor iter /\ start iter = false) \/
    (cursor iter < 1 /\ end_ iter = false)))
  /\ cursor (snd (iter_go_to target iter 1))
     = (if fst (iter_go_to target iter 1) then 1 else cursor iter).
Proof.
  apply (iter_go_to_spec (IntList.make [1; 2; 3; 4; 5] 5 true)
           {| cursor := 3; start := false; end_ := false |} 1);
    simpl; unfold SIZE_MAX; lia.
Defined.

(** Witness of X15: from index 0, with the start flag set, to index 1 and
    back. *)
Lemma iter_next_prev_witness :
  iter_prev (IntList.make [1; 2; 3] 3 true)
    {| cursor := 1; start := false; end_ := false |}
  = (true, {| cursor := 0; start := false; end_ := false |}).
Proof.
  apply (iter_next_prev (IntList.make [1; 2; 3] 3 true)
           {| cursor := 0; start := true; end_ := false |}
           {| cursor := 1; start := false; end_ := false |}).
  - simpl. lia.
  - simpl. unfold SIZE_MAX. lia.
  - reflexivity.
Defined.

(** Witness of X16. *)
Lemma iter_forward_visits_elements_witness :
  iter_forward 0 4 (IntList.make [1; 2; 3; 0] 3 true)
    {| cursor := 0; start := true; end_ := false |}
  = Ok [1; 2; 3].
Proof.
  apply (iter_forward_visits_elements 0 4 (IntList.make [1; 2; 3; 0] 3 true)
           {| cursor := 2; start := false; end_ := true |}).
  - vm_compute. repeat split; discriminate.
  - simpl. lia.
Defined.

(** Witness of X17. *)
Lemma iter_backward_visits_elements_witness :
  iter_backward 0 4 (IntList.make [1; 2; 3; 0] 3 true)
    {| cursor := 2; start := false; end_ := true |}
  = Ok [3; 2; 1].
Proof.
  apply (iter_backward_visits_elements 0 4
           (IntList.make [1; 2; 3; 0] 3 true)
           {| cursor := 0; start := true; end_ := false |}).
  - vm_compute. repeat split; discriminate.
  - simpl. lia.
Defined.

(** ** What every operation keeps *)

Section InvariantFacts.
Context {V : Type} `{!SizeOf V} (zero : V)
        (f_val_free : ftab_val V -> bool).
Implicit Types (l : sortedlist V).

(** A request for a positive number of bytes that the allocator refuses
    leaves the list as it was. *)
Lemma resize_false l c l' :
  1 <= c -> sizeof V * c <= SIZE_MAX -> resize l c = (false, l') -> l' = l.
Proof.
  intros Hc Hfit. pose proof (sizeof_positive (V := V)) as Hs.
  destruct (slots_exact c) as [Hsz _]; [lia | done |].
  unfold resize.
  destruct (capacity l =? c); [by intros [= <-] |].
  destruct (c <? count l); [by intros [= <-] |].
  cbv zeta. rewrite Hsz.
  destruct (realloc _ _); simpl; [done |].
  destruct (sizeof V * c =? 0) eqn:E; [nia |]. by intros [= <-].
Qed.

Lemma insert_false l x l' :
  well_formed l -> sizeof V * (capacity l * 2) <= SIZE_MAX ->
  insert l x = Ok (false, l') -> l' = l.
Proof.
  intros (Hlen & Hcnt & Hcap) Hfit.
  pose proof (sizeof_positive (V := V)) as Hs.
  unfold insert. destruct (full l).
  - rewrite wrap_small by nia.
    destruct (resize l _) as [[] l1] eqn:Hr; simpl.
    + by intros (b & _ & [=])%bind_Ok.
    + intros [= <-]. apply resize_false in Hr; (done || lia).
  - simpl. by intros (b & _ & [=])%bind_Ok.
Qed.

Lemma min_sorts l o l' : min l = Ok (o, l') -> l' = l \/ sort l = Ok l'.
Proof.
  unfold min. destruct (empty l); [intros [= _ <-]; by left |].
  intros (l1 & Hs & (x & _ & [= _ <-])%bind_Ok)%bind_Ok. by right.
Qed.

Lemma max_sorts l o l' : max l = Ok (o, l') -> l' = l \/ sort l = Ok l'.
Proof.
  unfold max. destruct (empty l); [intros [= _ <-]; by left |].
  intros (l1 & Hs & (x & _ & [= _ <-])%bind_Ok)%bind_Ok. by right.
Qed.

Lemma get_sorts l index x l' :
  get zero l index = Ok (x, l') -> l' = l \/ sort l = Ok l'.
Proof.
  unfold get. destruct (index >=? count l); [intros [= _ <-]; by left |].
  intros (l1 & Hs & (y & _ & [= _ <-])%bind_Ok)%bind_Ok. by right.
Qed.

Lemma indexof_sorts l x from_start i l' :
  indexof l x from_start = Ok (i, l') -> sort l = Ok l'.
Proof.
  unfold indexof. intros (l1 & Hs & H)%bind_Ok.
  destruct from_start; by apply bind_Ok in H as (j & _ & [= _ <-]).
Qed.

Lemma contains_sorts l x r l' :
  contains l x = Ok (r, l') -> l' = l \/ sort l = Ok l'.
Proof.
  unfold contains. destruct (empty l); [intros [= _ <-]; by left |].
  intros (l1 & Hs & (i & _ & [= _ <-])%bind_Ok)%bind_Ok. by right.
Qed.

Lemma clear_fields l l' :
  clear zero f_val_free l = Ok l' ->
  exists b, memset zero (buffer l) (capacity l) = Ok b /\
    l' = set_count (set_buffer l b) 0.
Proof.
  unfold clear. destruct (f_val l) as [ft |]; [| done].
  intros (u & _ & (b & Hb & [= <-])%bind_Ok)%bind_Ok. by exists b.
Qed.

(** X19.  The [flag] field is written by the two constructors only: after
    [resize], [insert], [remove], [sort], [get], [min], [max], [indexof],
    [contains], [clear] and [customize] it holds what it held before,
    whatever the arguments and whatever the call returns. *)
Theorem flag_written_by_constructors_only l x index from_start c a cb :
  flag (snd (resize l c)) = flag l /\
  after (insert l x) (fun r => flag (snd r) = flag l) /\
  after (remove zero l index) (fun r => flag (snd r) = flag l) /\
  after (sort l) (fun l' => flag l' = flag l) /\
  after (get zero l index) (fun r => flag (snd r) = flag l) /\
  after (min l) (fun r => flag (snd r) = flag l) /\
  after (max l) (fun r => flag (snd r) = flag l) /\
  after (indexof l x from_start) (fun r => flag (snd r) = flag l) /\
  after (contains l x) (fun r => flag (snd r) = flag l) /\
  after (clear zero f_val_free l) (fun l' => flag l' = flag l) /\
  flag (customize l a cb) = flag l.
Proof.
  assert (forall l', l' = l \/ sort l = Ok l' -> flag l' = flag l) as Hsort.
  { intros l' [-> | Hs]; [done |]. by apply sort_fields in Hs as (_ & _ & ? & _). }
  unfold after. split; [apply resize_flag |].
  split. { destruct (insert l x) as [[r l'] | |] eqn:H; [| done..].
           by apply insert_flag in H. }
  split. { destruct (remove zero l index) as [[r l'] | |] eqn:H; [| done..].
           by apply remove_flag in H. }
  split. { destruct (sort l) as [l' | |] eqn:H; [| done..].
           apply Hsort. by right. }
  split. { destruct (get zero l index) as [[r l'] | |] eqn:H; [| done..].
           by apply get_sorts, Hsort in H. }
  split. { destruct (min l) as [[r l'] | |] eqn:H; [| done..].
           by apply min_sorts, Hsort in H. }
  split. { destruct (max l) as [[r l'] | |] eqn:H; [| done..].
           by apply max_sorts, Hsort in H. }
  split. { destruct (indexof l x from_start) as [[r l'] | |] eqn:H; [| done..].
           apply indexof_sorts in H. apply Hsort. by right. }
  split. { destruct (contains l x) as [[r l'] | |] eqn:H; [| done..].
           by apply contains_sorts, Hsort in H. }
  split. { destruct (clear zero f_val_free l) as [l' | |] eqn:H; [| done..].
           by apply clear_fields in H as (b & _ & ->). }
  unfold customize. by destruct a, cb.
Qed.

(** X20.  Every operation keeps a list well-formed: a block of [capacity]
    slots, [capacity] at least 1 and [count] at most [capacity].  For
    [resize] the requested capacity has to be at least 1 and its byte count
    has to fit in [size_t]; for [insert] the byte count of the doubled block
    has to fit in [size_t]. *)
Theorem well_formed_kept l x index from_start c :
  well_formed l -> 0 <= index ->
  1 <= c -> sizeof V * c <= SIZE_MAX ->
  sizeof V * (capacity l * 2) <= SIZE_MAX ->
  well_formed (snd (resize l c)) /\
  after (insert l x) (fun r => well_formed (snd r)) /\
  after (remove zero l index) (fun r => well_formed (snd r)) /\
  after (sort l) well_formed /\
  after (get zero l index) (fun r => well_formed (snd r)) /\
  after (min l) (fun r => well_formed (snd r)) /\
  after (max l) (fun r => well_formed (snd r)) /\
  after (indexof l x from_start) (fun r => well_formed (snd r)) /\
  after (contains l x) (fun r => well_formed (snd r)) /\
  after (clear zero f_val_free l) well_formed.
Proof.
  intros Hwf Hi Hc Hfit Hfit2. pose proof Hwf as (Hlen & Hcnt & Hcap).
  pose proof (sizeof_positive (V := V)) as Hs.
  assert (forall l', l' = l \/ sort l = Ok l' -> well_formed l') as Hsort.
  { intros l' [-> | Hs']; [done |]. by apply sort_rearranges in Hs' as [? _]. }
  unfold after.
  split. { destruct (resize l c) as [[] l'] eqn:Hr; simpl.
           - pose proof Hr as (Hc1 & Hn1 & _)%resize_true.
             destruct (slots_exact c) as [Hsz Hq]; [lia | done |].
             unfold resize in Hr.
             destruct (capacity l =? c); [by injection Hr as <- |].
             destruct (c <? count l) eqn:E; [done |].
             destruct (realloc (alloc l) _); simpl in Hr; [| done].
             injection Hr as <-. unfold well_formed. simpl.
             rewrite realloc_block_length, Hq. nia.
           - by apply resize_false in Hr as ->. }
  split. { destruct (insert l x) as [[[] l'] | |] eqn:H; [| | done..].
           - by apply insert_appends in H as [? _].
           - by apply insert_false in H as ->. }
  split. { destruct (remove zero l index) as [[r l'] | |] eqn:H; [| done..].
           simpl. destruct (decide (count l <= index)) as [Hge | Hlt].
           { rewrite remove_out_of_range in H by done. by injection H as _ <-. }
           destruct (decide (count l = capacity l)) as [Hfull | Hroom].
           { rewrite remove_full_out_of_bounds in H by (done || lia). done. }
           destruct (remove_in_range zero l index)
             as (l2 & Hr & _ & _ & Hn & Hl & Hc2 & _); [done | lia.. |].
           rewrite Hr in H. injection H as _ <-.
           unfold well_formed. lia. }
  split. { destruct (sort l) as [l' | |] eqn:H; [| done..].
           apply Hsort. by right. }
  split. { destruct (get zero l index) as [[r l'] | |] eqn:H; [| done..].
           by apply get_sorts, Hsort in H. }
  split. { destruct (min l) as [[r l'] | |] eqn:H; [| done..].
           by apply min_sorts, Hsort in H. }
  split. { destruct (max l) as [[r l'] | |] eqn:H; [| done..].
           by apply max_sorts, Hsort in H. }
  split. { destruct (indexof l x from_start) as [[r l'] | |] eqn:H; [| done..].
           apply indexof_sorts in H. apply Hsort. by right. }
  split. { destruct (contains l x) as [[r l'] | |] eqn:H; [| done..].
           by apply contains_sorts, Hsort in H. }
  destruct (clear zero f_val_free l) as [l' | |] eqn:H; [| done..].
  apply clear_fields in H as (b & Hb & ->). unfold memset in Hb.
  destruct (Z.of_nat (length (buffer l)) <? capacity l); [done |].
  injection Hb as <-. unfold well_formed. simpl.
  rewrite length_app, length_replicate, length_drop. lia.
Qed.
End InvariantFacts.

(** Witness of X20: a list of three elements in a block of four slots. *)
Lemma well_formed_kept_witness :
  let l := IntList.make [3; 1; 2; 0] 3 false in
  well_formed (snd (resize l 8)) /\
  after (insert l 7) (fun r => well_formed (snd r)) /\
  after (remove 0 l 1) (fun r => well_formed (snd r)) /\
  after (sort l) well_formed /\
  after (get 0 l 1) (fun r => well_formed (snd r)) /\
  after (min l) (fun r => well_formed (snd r)) /\
  after (max l) (fun r => well_formed (snd r)) /\
  after (indexof l 7 true) (fun r => well_formed (snd r)) /\
  after (contains l 7) (fun r => well_formed (snd r)) /\
  after (clear 0 (fun _ => true) l) well_formed.
Proof.
  apply (well_formed_kept 0 (fun _ => true)
           (IntList.make [3; 1; 2; 0] 3 false) 7 1 true 8).
  - vm_compute. repeat split; discriminate.
  - lia.
  - lia.
  - vm_compute. discriminate.
  - vm_compute. discriminate.
Defined.

(** ** Construction, and where the iterator can stand *)

Section ConstructionFacts.
Context {V : Type} (zero : V) (dflt : cmc_alloc_node V).
Implicit Types (l : sortedlist V) (target : sortedlist V)
  (iter : sortedlist_iter).

(** X21.  [new] returns a list exactly when the capacity is at least 1, the
    function table is there and both allocations are granted; [new_custom]
    exactly when the capacity is at least 1 and both allocations are granted,
    by the allocator it is given or else the default one.  The list they
    return is well-formed, has the requested capacity and no element, is
    neither full nor marked as sorted, and its flag is [OK]. *)
Theorem constructors_spec cap ft a cb :
  cap <= SIZE_MAX ->
  let fresh_list l :=
    well_formed l /\ capacity l = cap /\ elements l = [] /\
    empty l = true /\ full l = false /\ is_sorted l = false /\
    flag l = cmc_flags.OK in
  match new zero dflt cap ft with
  | Some l => fresh_list l /\ f_val l = ft /\ alloc l = dflt /\
              1 <= cap /\ ft <> None /\
              malloc dflt = true /\ calloc dflt cap = true
  | None => cap < 1 \/ ft = None \/ malloc dflt = false
            \/ calloc dflt cap = false
  end /\
  match new_custom zero dflt cap ft a cb with
  | Some l => fresh_list l /\ f_val l = ft /\ alloc l = default dflt a /\
              callbacks l = cb /\ 1 <= cap /\
              malloc (default dflt a) = true /\
              calloc (default dflt a) cap = true
  | None => cap < 1 \/ malloc (default dflt a) = false
            \/ calloc (default dflt a) cap = false
  end.
Proof.
  intros Hmax fresh_list.
  assert (forall l, 1 <= cap -> buffer l = replicate (Z.to_nat cap) zero ->
            capacity l = cap -> count l = 0 -> is_sorted l = false ->
            flag l = cmc_flags.OK -> fresh_list l) as Hfresh.
  { intros l Hcap Hb Hc Hn Hs Hf. unfold fresh_list, well_formed, elements,
      empty, full.
    rewrite Hb, Hc, Hn, length_replicate. repeat split; (done || lia). }
  split.
  - destruct (new zero dflt cap ft) as [l |] eqn:Hnew.
    + apply new_Some in Hnew
        as (Hcap & Hft & Hm & Hca & Hb & Hc & Hn & Hs & Hf & Hv & Ha).
      split; [by apply Hfresh | done].
    + unfold new in Hnew. destruct (cap <? 1) eqn:E; [left; lia |].
      destruct ft as [ft |]; [| by right; left].
      destruct (malloc dflt); [| by right; right; left].
      destruct (calloc dflt cap); [done | by right; right; right].
  - destruct (new_custom zero dflt cap ft a cb) as [l |] eqn:Hnew.
    + apply new_custom_Some in Hnew
        as (Hcap & Hm & Hca & Hb & Hc & Hn & Hs & Hf & Hv & Ha & Hcb).
      split; [by apply Hfresh | done].
    + unfold new_custom in Hnew. destruct (cap <? 1) eqn:E; [left; lia |].
      right. destruct a as [a |]; simpl in *;
        (destruct (malloc _); [| by left]);
        (destruct (calloc _ cap); [done | by right]).
Qed.

(** X22.  The moves to an end of [ext/code.h] leave the iterator where
    those of [sortedlist.h] leave it, and return whether the list has an
    element; its boundary tests are those of [sortedlist.h]. *)
Theorem ext_iter_agrees target iter :
  ext.iter_to_start target iter
  = (negb (empty target), iter_to_start target iter) /\
  ext.iter_to_end target iter
  = (negb (empty target), iter_to_end target iter) /\
  ext.iter_at_start target iter = iter_start target iter /\
  ext.iter_at_end target iter = iter_end target iter.
Proof.
  unfold ext.iter_to_start, ext.iter_to_end, iter_to_start, iter_to_end,
    ext.iter_at_start, ext.iter_at_end, iter_start, iter_end.
  by destruct (empty target).
Qed.

(** On a cursor below [count], [iter_value] returns a live element. *)
Lemma iter_value_live target iter :
  well_formed target -> 0 <= cursor iter < count target ->
  exists x, iter_value zero target iter = Ok x /\
    elements target !! Z.to_nat (cursor iter) = Some x.
Proof.
  intros (Hlen & Hcnt & Hcap) Hc. unfold iter_value, empty.
  destruct (count target =? 0) eqn:E; [lia |].
  destruct (read_in_range (buffer target) (cursor iter)) as [x Hx]; [lia |].
  exists x. split; [done |]. apply read_Ok in Hx as [_ Hx].
  rewrite elements_lookup by lia. done.
Qed.

(** X23.  No move takes the cursor off the live elements: from a cursor
    below [count], after [iter_to_start], [iter_to_end], [iter_next],
    [iter_prev], [iter_advance], [iter_rewind] and [iter_go_to], whatever
    they return and whatever the number of steps or the index, also when the
    sum of cursor and steps wraps around, the cursor is below [count], and
    [iter_value] returns the element at the cursor. *)
Theorem iter_moves_stay_on_elements target iter steps index :
  well_formed target -> 0 <= cursor iter < count target ->
  0 <= steps <= SIZE_MAX ->
  Forall (fun it =>
            0 <= cursor it < count target /\
            exists x, iter_value zero target it = Ok x /\
              elements target !! Z.to_nat (cursor it) = Some x)
    [iter_to_start target iter; iter_to_end target iter;
     snd (iter_next target iter); snd (iter_prev target iter);
     snd (iter_advance target iter steps);
     snd (iter_rewind target iter steps);
     snd (iter_go_to target iter index)].
Proof.
  intros Hwf Hc Hs. pose proof Hwf as (Hlen & Hcnt & Hcap).
  assert (forall it, 0 <= cursor it < count target ->
            0 <= cursor it < count target /\
            exists x, iter_value zero target it = Ok x /\
              elements target !! Z.to_nat (cursor it) = Some x) as Hlive.
  { intros it Hit. split; [done |]. by apply iter_value_live. }
  assert (forall n, 0 <= n <= SIZE_MAX ->
            0 <= cursor (snd (iter_advance target iter n)) < count target)
    as Hadv.
  { intros n Hn. unfold iter_advance. destruct (end_ iter); [done |].
    destruct (wrap (cursor iter + 1) =? count target); [done |].
    destruct (n =? 0); simpl; [done |].
    pose proof (wrap_range (cursor iter + n)).
    destruct (wrap (cursor iter + n) >=? count target) eqn:E; simpl; lia. }
  assert (forall n, 0 <= n <= SIZE_MAX ->
            0 <= cursor (snd (iter_rewind target iter n)) < count target)
    as Hrew.
  { intros n Hn. unfold iter_rewind. destruct (start iter); [done |].
    destruct (cursor iter =? 0); [done |].
    destruct (n =? 0); simpl; [done |].
    destruct (cursor iter <? n) eqn:E; simpl; [done |].
    rewrite wrap_small by lia. lia. }
  repeat apply Forall_cons_2; [..| apply Forall_nil_2]; apply Hlive.
  - unfold iter_to_start, empty.
    destruct (count target =? 0) eqn:E; simpl; lia.
  - unfold iter_to_end, empty.
    destruct (count target =? 0) eqn:E; simpl; [lia |].
    rewrite wrap_small by lia. lia.
  - unfold iter_next. destruct (end_ iter); [done |].
    rewrite wrap_small by lia.
    destruct (cursor iter + 1 =? count target) eqn:E; simpl; lia.
  - unfold iter_prev. destruct (start iter); [done |].
    destruct (cursor iter =? 0) eqn:E; simpl; [done |].
    rewrite wrap_small by lia. lia.
  - by apply Hadv.
  - by apply Hrew.
  - unfold iter_go_to. destruct (index >=? count target); [done |].
    destruct (cursor iter >? index); [apply Hrew, wrap_range |].
    destruct (cursor iter <? index); [apply Hadv, wrap_range | done].
Qed.
End ConstructionFacts.

(** Witness of X21: the default allocator grants every request. *)
Lemma constructors_spec_witness :
  match new 0 IntList.generous 4 (Some IntList.int_ftab) with
  | Some l => (well_formed l /\ capacity l = 4 /\ elements l = [] /\
               empty l = true /\ full l = false /\ is_sorted l = false /\
               flag l = cmc_flags.OK)
              /\ f_val l = Some IntList.int_ftab
              /\ alloc l = IntList.generous /\ 1 <= 4
              /\ Some IntList.int_ftab <> None
              /\ malloc IntList.generous = true
              /\ calloc IntList.generous 4 = true
  | None => 4 < 1 \/ Some IntList.int_ftab = None
            \/ malloc IntList.generous = false
            \/ calloc IntList.generous 4 = false
  end /\
  match new_custom 0 IntList.generous 4 (Some IntList.int_ftab) None None with
  | Some l => (well_formed l /\ capacity l = 4 /\ elements l = [] /\
               empty l = true /\ full l = false /\ is_sorted l = false /\
               flag l = cmc_flags.OK)
              /\ f_val l = Some IntList.int_ftab
              /\ alloc l = default IntList.generous None
              /\ callbacks l = None /\ 1 <= 4
              /\ malloc (default IntList.generous None) = true
              /\ calloc (default IntList.generous None) 4 = true
  | None => 4 < 1 \/ malloc (default IntList.generous None) = false
            \/ calloc (default IntList.generous None) 4 = false
  end.
Proof.
  apply (constructors_spec 0 IntList.generous 4 (Some IntList.int_ftab)
           None None).
  unfold SIZE_MAX. lia.
Defined.

(** Witness of X23: a cursor on the last of three elements, and a number of
    steps that makes the sum wrap around. *)
Lemma iter_moves_stay_on_elements_witness :
  let target := IntList.make [1; 2; 3; 0] 3 true in
  let iter := {| cursor := 2; start := false; end_ := false |} in
  Forall (fun it =>
            0 <= cursor it < count target /\
            exists x, iter_value 0 target it = Ok x /\
              elements target !! Z.to_nat (cursor it) = Some x)
    [iter_to_start target iter; iter_to_end target iter;
     snd (iter_next target iter); snd (iter_prev target iter);
     snd (iter_advance target iter SIZE_MAX);
     snd (iter_rewind target iter SIZE_MAX);
     snd (iter_go_to target iter 0)].
Proof.
  apply (iter_moves_stay_on_elements 0
           (IntList.make [1; 2; 3; 0] 3 true)
           {| cursor := 2; start := false; end_ := false |} SIZE_MAX 0).
  - vm_compute. repeat split; discriminate.
  - simpl. lia.
  - unfold SIZE_MAX. lia.
Defined.

